(** * ECDSA file signer: Galois-field arithmetic, secp256k1 point operations
      and the sign / verify loops

    Shallow embedding of [GaloisField.hpp] (class [GF]) and of the
    arithmetic core of [ecdsa.cpp] ([genPriv], [add], [priv2pub] and the
    two loops of [main]).  Big integers ([mpz_class]) are [Z]; a C++
    exception or a GMP division by zero is an explicit error value that is
    threaded through every call.  The entropy of [/dev/random] is the
    list of the integers it delivers; the hash-based address encoder
    [binary2Addr] is a parameter of the recovery loop. *)

From Stdlib Require Import ZArith List String Ascii Lia Bool Znumtheory.
From Stdlib Require Import Zmod.ZmodInv.
Import ListNotations.
Local Open Scope Z_scope.

(** ** Failure channel *)

(** [Exception msg]: [GF::abort] printed [msg] and threw [std::exception];
    nothing in the program catches it.
    [DivideByZero]: GMP was asked to reduce modulo zero and raised its
    division-by-zero signal. *)
Inductive error : Type :=
| Exception (msg : string)
| DivideByZero.

Inductive result (A : Type) : Type :=
| Ok (a : A)
| Err (e : error).
Arguments Ok {A} a.
Arguments Err {A} e.

Definition bind {A B : Type} (c : result A) (k : A -> result B) : result B :=
  match c with
  | Ok a => k a
  | Err e => Err e
  end.

Notation "x <- c ;; k" := (bind c (fun x => k))
  (at level 61, c at next level, right associativity).

(** ** The GMP primitives the program calls

    GMP is an outside library; the three functions follow its manual. *)

Module GMP.

(** [mpz_mod r n d]: [r] is [n mod |d|], never negative; [d = 0] is a
    division by zero. *)
Definition mpz_mod (n d : Z) : result Z :=
  if d =? 0 then Err DivideByZero else Ok (n mod Z.abs d).

(** Left-to-right binary exponentiation over the bits of a positive
    exponent, reducing after every product. *)
Fixpoint powm_pos (b : Z) (e : positive) (m : Z) : Z :=
  match e with
  | xH => b mod m
  | xO e' => let h := powm_pos b e' m in (h * h) mod m
  | xI e' => let h := powm_pos b e' m in (((h * h) mod m) * b) mod m
  end.

(** [mpz_powm r b e m]: [r] is [b^e mod |m|] in [[0,|m|)]; a zero modulus
    is a division by zero; a negative exponent uses the inverse of [b]
    and is a division by zero when there is none. *)
Definition mpz_powm (b e m : Z) : result Z :=
  if m =? 0 then Err DivideByZero
  else match e with
       | Z0 => Ok (1 mod Z.abs m)
       | Zpos p => Ok (powm_pos b p (Z.abs m))
       | Zneg p =>
           if Z.gcd b m =? 1
           then Ok (powm_pos (Z.invmod b (Z.abs m)) p (Z.abs m))
           else Err DivideByZero
       end.

(** [mpz_and r a b]: bitwise and (two's complement for negatives). *)
Definition mpz_and (a b : Z) : Z := Z.land a b.

End GMP.

(** ** class GF *)

Module GF.

(** The two private members [num] and [prime]. *)
Record t : Type := make { num : Z; prime : Z }.

(** [getNum()] and [getPrime()] *)
Definition getNum (a : t) : Z := num a.
Definition getPrime (a : t) : Z := prime a.

(** [GF()]: both members are default-initialised [mpz_class], i.e. 0. *)
Definition empty : t := make 0 0.

(** [GF(n, p)]: [num = n mod p] by [mpz_mod], [prime = p]. *)
Definition new (n p : Z) : result t :=
  r <- GMP.mpz_mod n p ;; Ok (make r p).

(** [operator==(const GF&)] and [operator!=(GF)]. *)
Definition eqb (a b : t) : bool :=
  (num a =? num b) && (prime a =? prime b).
Definition neqb (a b : t) : bool :=
  negb (num a =? num b) || negb (prime a =? prime b).

(** [operator==(int)] and [operator!=(int)] rebuild both sides with the
    constructor first. *)
Definition eqb_int (a : t) (n : Z) : result bool :=
  l <- new (num a) (prime a) ;; r <- new n (prime a) ;; Ok (eqb l r).
Definition neqb_int (a : t) (n : Z) : result bool :=
  l <- new (num a) (prime a) ;; r <- new n (prime a) ;; Ok (neqb l r).

(** [abort(msg)]: prints [msg] and throws. *)
Definition abort {A : Type} (msg : string) : result A :=
  Err (Exception msg).

(** [operator+(GF)] *)
Definition add (a b : t) : result t :=
  if negb (prime a =? prime b)
  then abort "Cannot add two numbers in different Fields"
  else n <- GMP.mpz_mod (num a + num b) (prime a) ;; new n (prime a).

(** [operator+(int)] *)
Definition add_int (a : t) (n : Z) : result t :=
  l <- new (num a) (prime a) ;; r <- new n (prime a) ;; add l r.

(** [operator+()] *)
Definition pos (a : t) : result t := new (num a) (prime a).

(** [operator-(GF)] *)
Definition sub (a b : t) : result t :=
  if negb (prime a =? prime b)
  then abort "Cannot subtract two numbers in different Fields"
  else n <- GMP.mpz_mod (num a - num b) (prime a) ;; new n (prime a).

(** [operator-(int)] *)
Definition sub_int (a : t) (n : Z) : result t :=
  l <- new (num a) (prime a) ;; r <- new n (prime a) ;; sub l r.

(** [operator-()] *)
Definition neg (a : t) : result t := new (- num a) (prime a).

(** [operator*(GF)] *)
Definition mul (a b : t) : result t :=
  if negb (prime a =? prime b)
  then abort "Cannot multiply two numbers in different Fields"
  else n <- GMP.mpz_mod (num a * num b) (prime a) ;; new n (prime a).

(** [operator*(int)] *)
Definition mul_int (a : t) (n : Z) : result t :=
  l <- new (num a) (prime a) ;; r <- new n (prime a) ;; mul l r.

(** [pow(mpz_class)]: the exponent is first reduced modulo [prime - 1]. *)
Definition pow (a : t) (exp : Z) : result t :=
  let p1 := prime a - 1 in
  e <- GMP.mpz_mod exp p1 ;;
  n <- GMP.mpz_powm (num a) e (prime a) ;;
  new n (prime a).

(** [pow(int)] *)
Definition pow_int (a : t) (n : Z) : result t :=
  l <- new (num a) (prime a) ;; pow l n.

(** [operator/(GF)]: multiplication by [other.pow(prime-2)]. *)
Definition div (a b : t) : result t :=
  if negb (prime a =? prime b)
  then abort "Cannot divide two numbers in different Fields"
  else l <- new (num a) (prime a) ;;
       r <- pow b (prime a - 2) ;;
       mul l r.

(** [operator/(int)] *)
Definition div_int (a : t) (n : Z) : result t :=
  l <- new (num a) (prime a) ;; r <- new n (prime a) ;; div l r.

(** [operator%(GF)]: the raw value is reduced modulo the other raw value. *)
Definition rem (a b : t) : result t :=
  if negb (prime a =? prime b)
  then abort "Cannot get module from two numbers in different Fields"
  else n <- GMP.mpz_mod (num a) (num b) ;; new n (prime a).

(** [operator%(int)] *)
Definition rem_int (a : t) (n : Z) : result t :=
  l <- new (num a) (prime a) ;; r <- new n (prime a) ;; rem l r.

End GF.

(** ** struct point, class Curve *)

Record point : Type := mkpoint { x : GF.t; y : GF.t }.

Module secp256k1.
Definition N : Z :=
  0xFFFFFFFFFFFFFFFFFFFFFFFFFFFFFFFEBAAEDCE6AF48A03BBFD25E8CD0364141.
Definition P : Z :=
  0xFFFFFFFFFFFFFFFFFFFFFFFFFFFFFFFFFFFFFFFFFFFFFFFFFFFFFFFEFFFFFC2F.
Definition Gx : Z :=
  0x79BE667EF9DCBBAC55A06295CE870B07029BFCDB2DCE28D959F2815B16F81798.
Definition Gy : Z :=
  0x483ADA7726A3C4655DA4FBFC0E1108A8FD17B448A68554199C47D08FFB10D4B8.
(** [G.x = GF(x,P)], [G.y = GF(y,P)]; both literals are below [P], so
    the constructor's reduction leaves them as they are. *)
Definition G : point := mkpoint (GF.make (Gx mod P) P) (GF.make (Gy mod P) P).
End secp256k1.

(** ** Point addition *)

(** [point add(point p, point q)] *)
Definition add (p q : point) : result point :=
  lambda <-
    (if GF.eqb (x p) (x q) && GF.eqb (y p) (y q)
     then sq <- GF.pow_int (x p) 2 ;;
          n3 <- GF.mul_int sq 3 ;;
          d2 <- GF.mul_int (y p) 2 ;;
          GF.div n3 d2
     else dy <- GF.sub (y q) (y p) ;;
          dx <- GF.sub (x q) (x p) ;;
          GF.div dy dx) ;;
  l2 <- GF.pow_int lambda 2 ;;
  t1 <- GF.sub l2 (x p) ;;
  rx <- GF.sub t1 (x q) ;;
  t2 <- GF.sub (x p) rx ;;
  t3 <- GF.mul lambda t2 ;;
  ry <- GF.sub t3 (y p) ;;
  Ok (mkpoint rx ry).

(** ** Scalar multiplication *)

(** The body of the [for] loop of [priv2pub], run [iters] times on the
    loop state [(pub, G, bit)]. *)
Fixpoint priv2pub_loop (iters : nat) (sk : GF.t) (pub G : point) (bit : Z)
  : result point :=
  match iters with
  | O => Ok pub
  | S k =>
      let cmp := GMP.mpz_and bit (GF.getNum sk) in
      pub' <-
        (if negb (cmp =? 0)
         then zx <- GF.eqb_int (x pub) 0 ;;
              zy <- (if zx then GF.eqb_int (y pub) 0 else Ok false) ;;
              if zx && zy then Ok (mkpoint (x G) (y G)) else add pub G
         else Ok pub) ;;
      G' <- add G G ;;
      priv2pub_loop k sk pub' G' (Z.shiftl bit 1)
  end.

(** The accumulator's start value [(GF(0,P), GF(0,P))]. *)
Definition origin : point :=
  mkpoint (GF.make (0 mod secp256k1.P) secp256k1.P)
          (GF.make (0 mod secp256k1.P) secp256k1.P).

(** [point priv2pub(GF sk, point *Q = NULL)] *)
Definition priv2pub (sk : GF.t) (Q : option point) : result point :=
  let G := match Q with
           | None => mkpoint (x secp256k1.G) (y secp256k1.G)
           | Some q => mkpoint (x q) (y q)
           end in
  priv2pub_loop 256 sk origin G 1.


(** ** Entropy and nonce generation *)

(** What the successive calls [readDevRandom(32)] deliver: each element is
    the integer that [mpz_class(hex,16)] makes of the 64 hex digits of one
    call.  An exhausted list is a source that never delivers again: the
    loop that asks for the next draw does not return. *)
Definition entropy : Type := list Z.

(** A computation that draws from the entropy source: it returns a value
    and what is left of the source, raises, or waits forever. *)
Inductive run (A : Type) : Type :=
| Return (a : A) (rest : entropy)
| Raise (e : error)
| Starved.
Arguments Return {A} a rest.
Arguments Raise {A} e.
Arguments Starved {A}.

(** [GF genPriv()]: draw until [0 < key < N]; the result is [GF(key,P)]. *)
Fixpoint genPriv (rnd : entropy) : run GF.t :=
  match rnd with
  | [] => Starved
  | key :: rest =>
      if (key <=? 0) || (key >=? secp256k1.N)
      then genPriv rest
      else match GF.new key secp256k1.P with
           | Ok sk => Return sk rest
           | Err e => Raise e
           end
  end.

(** ** The signing loops of [main] *)

(** Body of the inner [do] loop for the nonce [sk]: the pair [(R, S)],
    here [(sigR, sigS)]. *)
Definition sign_candidate (message privKey sk : GF.t) : result (GF.t * GF.t) :=
  pk <- priv2pub sk None ;;
  let sigR := x pk in
  d <- GF.new (GF.getNum privKey) secp256k1.N ;;
  r <- GF.new (GF.getNum sigR) secp256k1.N ;;
  dr <- GF.mul d r ;;
  num <- GF.add message dr ;;
  k <- GF.new (GF.getNum sk) secp256k1.N ;;
  sigS <- GF.div num k ;;
  Ok (sigR, sigS).

(** The inner loop's condition [R == GF(0,P) or S == GF(0,N)]. *)
Definition sign_rejected (sigR sigS : GF.t) : result bool :=
  zP <- GF.new 0 secp256k1.P ;;
  if GF.eqb sigR zP then Ok true
  else zN <- GF.new 0 secp256k1.N ;; Ok (GF.eqb sigS zN).

(** The inner [do ... while]: every iteration draws a nonce with
    [genPriv], hence at least one element of the source; [fuel] bounds
    the number of iterations and is never the limit once it exceeds the
    length of the source. *)
Fixpoint sign_inner (fuel : nat) (message privKey : GF.t) (rnd : entropy)
  : run (GF.t * GF.t) :=
  match fuel with
  | O => Starved
  | S f =>
      match genPriv rnd with
      | Return sk rest =>
          match (c <- sign_candidate message privKey sk ;;
                 again <- sign_rejected (fst c) (snd c) ;;
                 Ok (c, again)) with
          | Ok (c, true) => sign_inner f message privKey rest
          | Ok (c, false) => Return c rest
          | Err e => Raise e
          end
      | Raise e => Raise e
      | Starved => Starved
      end
  end.

(** The self-check after the inner loop: [p.x == R] for
    [p = add(priv2pub(message/S), priv2pub(GF(R,N)/S, &pubKey))]. *)
Definition sign_check (message : GF.t) (pubKey : point) (sigR sigS : GF.t)
  : result bool :=
  u1 <- GF.div message sigS ;;
  p1 <- priv2pub u1 None ;;
  rn <- GF.new (GF.getNum sigR) secp256k1.N ;;
  u2 <- GF.div rn sigS ;;
  p2 <- priv2pub u2 (Some pubKey) ;;
  p <- add p1 p2 ;;
  Ok (GF.eqb (x p) sigR).

(** The outer [do ... while (!verify)]. *)
Fixpoint sign_outer (fuel : nat) (message privKey : GF.t) (pubKey : point)
  (rnd : entropy) : run (GF.t * GF.t) :=
  match fuel with
  | O => Starved
  | S f =>
      match sign_inner (S (List.length rnd)) message privKey rnd with
      | Return (sigR, sigS) rest =>
          match sign_check message pubKey sigR sigS with
          | Ok true => Return (sigR, sigS) rest
          | Ok false => sign_outer f message privKey pubKey rest
          | Err e => Raise e
          end
      | Raise e => Raise e
      | Starved => Starved
      end
  end.

(** The [sign] branch of [main] up to the pair [(R, S)]: [z] is the double
    hash of the file and [key] the integer decoded from the WIF. *)
Definition sign (z key : Z) (rnd : entropy) : run (GF.t * GF.t) :=
  match (message <- GF.new z secp256k1.N ;;
         privKey <- GF.new key secp256k1.P ;;
         pubKey <- priv2pub privKey None ;;
         Ok (message, privKey, pubKey)) with
  | Ok (message, privKey, pubKey) =>
      sign_outer (S (List.length rnd)) message privKey pubKey rnd
  | Err e => Raise e
  end.

(** ** The recovery loop of [main] *)

(** Lower-case hex digits of [v], most significant first, [w] of them. *)
Definition hex_digit (d : Z) : ascii :=
  nth (Z.to_nat d) (list_ascii_of_string "0123456789abcdef") "0"%char.
Fixpoint hex_fixed (w : nat) (v : Z) : string :=
  match w with
  | O => EmptyString
  | S w' => hex_fixed w' (v / 16) ++ String (hex_digit (v mod 16)) EmptyString
  end.

(** [gmp_sprintf("%Z064x", v)] for [v >= 0]: zero padded to 64 digits,
    longer when [v] needs more. *)
Definition hex_len (v : Z) : nat :=
  if v =? 0 then 1%nat else S (Z.to_nat (Z.log2 v / 4)).
Definition Z064x (v : Z) : string := hex_fixed (Nat.max 64 (hex_len v)) v.

(** [gmp_sprintf(pubBuf, "04%Z064x%Z064x", Q.x, Q.y)] *)
Definition pubBuf (Q : point) : string :=
  "04" ++ Z064x (GF.getNum (x Q)) ++ Z064x (GF.getNum (y Q)).

(** [string splitXY(string key, point &pk)] *)
Definition splitXY (key : string) (pk : point) : string :=
  let xs := substring 2 64 key in
  if GF.getNum (y pk) mod 2 =? 0 then "02" ++ xs else "03" ++ xs.

Section Verify.

(** [binary2Addr] hashes with [computeSHA256] and [computeRIPEMD160] of
    [SHA256.h] and [RIPEMD160.h], which are not among the sources; it is
    kept as an unknown function from the hex string of an encoded key
    to its Base58Check address. *)
Variable binary2Addr : string -> string.

(** Body of the [for] loop up to the recovered point [Q]. *)
Definition recover (message sigR sigS : GF.t) (i : Z) : result point :=
  nP <- GF.new secp256k1.N secp256k1.P ;;
  off <- GF.mul_int nP (Z.quot i 2) ;;
  xr <- GF.add sigR off ;;
  x3 <- GF.pow_int xr 3 ;;
  alpha <- GF.add_int x3 7 ;;
  beta <- GF.pow alpha (Z.quot (secp256k1.P + 1) 4) ;;
  bi <- GF.sub_int beta i ;;
  par <- GF.rem_int bi 2 ;;
  even <- GF.eqb_int par 0 ;;
  yr <- (if even then Ok beta else GF.neg beta) ;;
  let r := mkpoint xr yr in
  sR <- priv2pub sigS (Some r) ;;
  nm <- GF.neg message ;;
  zG <- priv2pub nm None ;;
  temp <- add sR zG ;;
  rn <- GF.new (GF.getNum sigR) secp256k1.N ;;
  rinv <- GF.pow_int rn (-1) ;;
  priv2pub rinv (Some temp).

(** The test [pub == pubKey || pubC == pubKey] on a recovered point. *)
Definition matches (pubKey : string) (Q : point) : bool :=
  let buf := pubBuf Q in
  let pub := binary2Addr buf in
  let pubC := binary2Addr (splitXY buf Q) in
  String.eqb pub pubKey || String.eqb pubC pubKey.

(** The [for] loop with its [break], over the remaining values of [i]. *)
Fixpoint recover_loop (ids : list Z) (message sigR sigS : GF.t)
  (pubKey : string)
  : result bool :=
  match ids with
  | [] => Ok false
  | i :: rest =>
      Q <- recover message sigR sigS i ;;
      if matches pubKey Q then Ok true
      else recover_loop rest message sigR sigS pubKey
  end.

(** The [verify] branch of [main] from the parsed integers on: [z] the
    double hash of the file, [r] and [s] the two integers of the DER
    signature.  [true] is "Signature verification passed". *)
Definition verify (z r s : Z) (pubKey : string) : result bool :=
  message <- GF.new z secp256k1.N ;;
  sigR <- GF.new r secp256k1.P ;;
  sigS <- GF.new s secp256k1.P ;;
  recover_loop [0; 1; 2; 3] message sigR sigS pubKey.

End Verify.

(** * Specification vocabulary *)

(** The value is reduced and tagged with [m]. *)
Definition reduced (m : Z) (a : GF.t) : Prop :=
  GF.prime a = m /\ 0 <= GF.num a < m.

(** The curve equation [y^2 = x^3 + 7] modulo the field prime. *)
Definition on_curve (p : point) : Prop :=
  (GF.num (y p) ^ 2) mod secp256k1.P
  = (GF.num (x p) ^ 3 + 7) mod secp256k1.P.

(** A draw that [genPriv] throws away. *)
Definition out_of_range (key : Z) : Prop := key <= 0 \/ secp256k1.N <= key.

(** The candidate point of recovery id [i] for the signature value [r],
    on raw values: [x = r + N * (i/2)], [alpha = x^3 + 7],
    [beta = alpha^((P+1)/4)], all modulo [P], and [y] is [beta] or
    [-beta] by the parity of [beta - i]. *)
Definition candidate_x (r i : Z) : Z :=
  (r + secp256k1.N * (i / 2)) mod secp256k1.P.
Definition candidate_alpha (xv : Z) : Z := (xv ^ 3 + 7) mod secp256k1.P.
Definition candidate_beta (alpha : Z) : Z :=
  (alpha ^ ((secp256k1.P + 1) / 4)) mod secp256k1.P.
Definition candidate_y (beta i : Z) : Z :=
  if ((beta - i) mod secp256k1.P) mod 2 =? 0
  then beta else (- beta) mod secp256k1.P.
Definition candidate (r i : Z) : point :=
  let xv := candidate_x r i in
  mkpoint (GF.make xv secp256k1.P)
    (GF.make (candidate_y (candidate_beta (candidate_alpha xv)) i)
       secp256k1.P).

(** Both coordinates carry the modulus [m]. *)
Definition point_over (m : Z) (p : point) : Prop :=
  GF.prime (x p) = m /\ GF.prime (y p) = m.

(** The slope and the two coordinates [add] computes, on raw values;
    [fdiv] is [operator/]: multiplication by the [(m-2)]-th power. *)
Definition fdiv (m a b : Z) : Z := (a * b ^ ((m - 2) mod (m - 1))) mod m.
Definition tangent_slope (m xp yp : Z) : Z :=
  fdiv m (((xp ^ (2 mod (m - 1))) mod m * 3) mod m) ((yp * 2) mod m).
Definition chord_slope (m xp yp xq yq : Z) : Z :=
  fdiv m ((yq - yp) mod m) ((xq - xp) mod m).
Definition sum_x (m lam xp xq : Z) : Z :=
  (((lam ^ (2 mod (m - 1))) mod m - xp) mod m - xq) mod m.
Definition sum_y (m lam xp yp rx : Z) : Z :=
  (((lam * ((xp - rx) mod m)) mod m) - yp) mod m.

(** * Vocabulary of the further properties *)

(** The curve equation over any modulus carried by the point. *)
Definition on_curve_mod (m : Z) (p : point) : Prop :=
  (GF.num (y p) ^ 2) mod m = (GF.num (x p) ^ 3 + 7) mod m.

(** Both coordinates are reduced elements of the field [m]. *)
Definition point_reduced (m : Z) (p : point) : Prop :=
  reduced m (x p) /\ reduced m (y p).

(** [j] successive doublings [add(Q, Q)]. *)
Fixpoint double_n (j : nat) (Q : point) : result point :=
  match j with
  | O => Ok Q
  | S j' => d <- add Q Q ;; double_n j' d
  end.

(** * The text side of [ecdsa.cpp]

    [std::string] is [string]; positions and lengths are the integers the
    program computes.  A call of the C or C++ library that throws, or that
    leaves the language's defined behaviour, ends the computation with a
    [fault]. *)

(** [OutOfRange]: [std::out_of_range] from [substr].
    [InvalidArgument]: [std::invalid_argument] from [stoul] or from the
    constructor [mpz_class(string, base)].
    [Undefined]: undefined behaviour, a write past the end of a buffer or
    the use of a value that was never written.
    [Unspecified]: an input on which this development does not describe
    the library function. *)
Inductive fault : Type :=
| OutOfRange
| InvalidArgument
| Undefined
| Unspecified.

Inductive outcome (A : Type) : Type :=
| Val (a : A)
| Fault (f : fault).
Arguments Val {A} a.
Arguments Fault {A} f.

Definition obind {A B : Type} (c : outcome A) (k : A -> outcome B)
  : outcome B :=
  match c with
  | Val a => k a
  | Fault f => Fault f
  end.

Notation "x <~ c ;; k" := (obind c (fun x => k))
  (at level 61, c at next level, right associativity).

(** ** Characters *)

Definition code (c : ascii) : Z := Z.of_N (N_of_ascii c).

(** [isspace] in the C locale. *)
Definition isspace (c : ascii) : bool :=
  (code c =? 32) || ((9 <=? code c) && (code c <=? 13)).

(** The value of a hexadecimal digit, either case. *)
Definition hex_val (c : ascii) : option Z :=
  let n := code c in
  if (48 <=? n) && (n <=? 57) then Some (n - 48)
  else if (97 <=? n) && (n <=? 102) then Some (n - 87)
  else if (65 <=? n) && (n <=? 70) then Some (n - 55)
  else None.

(** [s.c_str()] as a C string: the characters before the first NUL. *)
Fixpoint c_str (s : string) : string :=
  match s with
  | EmptyString => EmptyString
  | String c r => if code c =? 0 then EmptyString else String c (c_str r)
  end.

(** ** std::string::substr *)

(** [s.substr(pos, len)]: throws when [pos] is past the end (a negative
    [pos] is a huge [size_t]); a [len] that reaches past the end, or is
    negative, takes what is left. *)
Definition substr (s : string) (pos len : Z) : outcome string :=
  if (0 <=? pos) && (pos <=? Z.of_nat (String.length s))
  then Val (substring (Z.to_nat pos)
              (if len <? 0 then String.length s else Z.to_nat len) s)
  else Fault OutOfRange.

(** [s.substr(pos)] *)
Definition substr_from (s : string) (pos : Z) : outcome string :=
  substr s pos (Z.of_nat (String.length s)).

(** ** Numbers to text *)

(** [printf("%lx", v)] for [v >= 0]: the hex digits without padding. *)
Definition lx (v : Z) : string := hex_fixed (hex_len v) v.

(** [gmp_sprintf("%Z076x", v)] for [v >= 0]. *)
Definition Z076x (v : Z) : string := hex_fixed (Nat.max 76 (hex_len v)) v.

(** [sprintf] into a [char buf[cap]]: the text and its final NUL have to
    fit. *)
Definition into_buf (cap : nat) (s : string) : outcome string :=
  if (String.length s <? cap)%nat then Val s else Fault Undefined.

(** ** Text to numbers *)

Fixpoint skip_spaces (s : string) : string :=
  match s with
  | EmptyString => EmptyString
  | String c r => if isspace c then skip_spaces r else s
  end.

(** The digit loop of [mpz_set_str]: white space is dropped, anything
    else has to be a digit. *)
Fixpoint digits16 (s : string) (acc : Z) : option Z :=
  match s with
  | EmptyString => Some acc
  | String c r =>
      if isspace c then digits16 r acc
      else match hex_val c with
           | Some d => digits16 r (16 * acc + d)
           | None => None
           end
  end.

(** [mpz_class(s, 16)]: [mpz_set_str] skips leading white space, takes an
    optional minus sign, wants a digit next, and then reads digits and
    white space to the end; the constructor throws when that fails. *)
Definition mpz_class_str (s : string) : outcome Z :=
  let s1 := skip_spaces (c_str s) in
  let neg := match s1 with
             | String c _ => code c =? 45
             | EmptyString => false
             end in
  let s2 := match s1 with
            | String c r => if code c =? 45 then r else s1
            | EmptyString => s1
            end in
  match s2 with
  | EmptyString => Fault InvalidArgument
  | String c _ =>
      match hex_val c with
      | None => Fault InvalidArgument
      | Some _ =>
          match digits16 s2 0 with
          | Some v => Val (if neg then - v else v)
          | None => Fault InvalidArgument
          end
      end
  end.

(** The longest run of hex digits at the head of [s]: its value and the
    number of digits. *)
Fixpoint hex_run (s : string) (acc : Z) (n : nat) : Z * nat :=
  match s with
  | EmptyString => (acc, n)
  | String c r =>
      match hex_val c with
      | Some d => hex_run r (16 * acc + d) (S n)
      | None => (acc, n)
      end
  end.

(** [stoul(s, nullptr, 16)]: [strtoul] skips white space, takes a sign and
    a [0x] prefix that is followed by a digit, and reads the longest run
    of digits; no digit is [std::invalid_argument], a value above
    [ULONG_MAX] is [std::out_of_range]; a minus sign negates modulo
    [2^64]. *)
Definition stoul (s : string) : outcome Z :=
  let s1 := skip_spaces (c_str s) in
  let neg := match s1 with
             | String c _ => code c =? 45
             | EmptyString => false
             end in
  let s2 := match s1 with
            | String c r =>
                if (code c =? 45) || (code c =? 43) then r else s1
            | EmptyString => s1
            end in
  let s3 := match s2 with
            | String c0 (String cx (String d r)) =>
                if (code c0 =? 48) && ((code cx =? 120) || (code cx =? 88))
                then match hex_val d with
                     | Some _ => String d r
                     | None => s2
                     end
                else s2
            | _ => s2
            end in
  match hex_run s3 0 0 with
  | (_, O) => Fault InvalidArgument
  | (v, S _) =>
      if 2 ^ 64 <=? v then Fault OutOfRange
      else Val (if neg then (- v) mod 2 ^ 64 else v)
  end.

(** [int hex2int(string h)]: [sscanf("%x")] on the two characters [h[0]]
    and [h[1]].  Two hex digits give their value, one hex digit followed
    by the end or by a character that cannot continue a number gives the
    digit; [h[1]] of an empty string is outside the string; the other
    inputs ([sscanf] with a sign, white space or a [0x] prefix) are not
    described. *)
Definition hex2int (h : string) : outcome Z :=
  match h with
  | EmptyString => Fault Undefined
  | String c1 r =>
      let c2 := match r with
                | String c _ => c
                | EmptyString => Ascii.zero
                end in
      match hex_val c1, hex_val c2 with
      | Some d1, Some d2 => Val (16 * d1 + d2)
      | Some d1, None =>
          if (code c2 =? 120) || (code c2 =? 88) then Fault Unspecified
          else Val d1
      | None, _ => Fault Unspecified
      end
  end.

(** ** Hex text and byte arrays *)

(** The loop [source[i/2] = stoul(str.substr(i,2), nullptr, 16)] over an
    array of [str.length()/2] bytes: an odd length makes the last turn
    write one byte past the array. *)
Fixpoint hex_to_bytes (s : string) : outcome (list Z) :=
  match s with
  | EmptyString => Val []
  | String c1 EmptyString =>
      v <~ stoul (String c1 EmptyString) ;; Fault Undefined
  | String c1 (String c2 r) =>
      v <~ stoul (String c1 (String c2 EmptyString)) ;;
      rest <~ hex_to_bytes r ;;
      Val (v mod 256 :: rest)
  end.

(** The loop [sprintf(buf, "%02hhx", sigBin[i])] over a string of raw
    bytes. *)
Fixpoint bytes_to_hex (bin : string) : string :=
  match bin with
  | EmptyString => EmptyString
  | String c r => hex_fixed 2 (code c) ++ bytes_to_hex r
  end.

(** The [std::string] whose characters are the given bytes. *)
Definition string_of_bytes (bs : list Z) : string :=
  string_of_list_ascii (map (fun b => ascii_of_N (Z.to_N b)) bs).

(** ** Base58 *)

Definition base58 : string :=
  "123456789ABCDEFGHJKLMNPQRSTUVWXYZabcdefghijkmnopqrstuvwxyz".

(** [base58[i]] *)
Definition base58_at (i : Z) : ascii :=
  nth (Z.to_nat i) (list_ascii_of_string base58) Ascii.zero.

(** [(int) base58.find(c)] for a one-character string: the position of
    the first occurrence, [-1] when there is none. *)
Fixpoint find_from (c : ascii) (s : string) (pos : Z) : Z :=
  match s with
  | EmptyString => -1
  | String a r => if Ascii.eqb a c then pos else find_from c r (pos + 1)
  end.
Definition base58_find (c : ascii) : Z := find_from c base58 0.

(** The first loop of [encodeBase58Check]: [while (dec > 0)], at most
    [fuel] turns. *)
Fixpoint base58_digits (fuel : nat) (dec : Z) (output : string) : string :=
  match fuel with
  | O => output
  | S f =>
      if 0 <? dec
      then let remainder := dec mod 58 in
           base58_digits f ((dec - remainder) / 58)
             (String (base58_at remainder) output)
      else output
  end.

(** The second loop: one ['1'] in front for every leading ["00"]. *)
Fixpoint leading_ones (hex : string) (output : string) : string :=
  match hex with
  | String c1 (String c2 r) =>
      if (code c1 =? 48) && (code c2 =? 48)
      then leading_ones r (String "1"%char output)
      else output
  | _ => output
  end.

(** The number of ["00"] pairs at the head of a hex text, and a run of
    [k] characters ['1']. *)
Fixpoint zero_pairs (hex : string) : nat :=
  match hex with
  | String c1 (String c2 r) =>
      if (code c1 =? 48) && (code c2 =? 48) then S (zero_pairs r) else O
  | _ => O
  end.
Fixpoint ones (k : nat) : string :=
  match k with
  | O => EmptyString
  | S k' => String "1"%char (ones k')
  end.

(** [string encodeBase58Check(string hex)]; every turn of the first loop
    divides [dec] by 58, so that [log2 dec + 1] turns exhaust it. *)
Definition encodeBase58Check (hex : string) : outcome string :=
  dec <~ mpz_class_str hex ;;
  let output := base58_digits (S (Z.to_nat (Z.log2 dec))) dec EmptyString in
  Val (leading_ones hex output).

(** What a function printed on [cout], and what it returned. *)
Definition logged (A : Type) : Type := list string * A.

(** The loop of [decodeBase58] over the characters of [wif]: the number
    read, or nothing at the first character outside the alphabet. *)
Fixpoint base58_value (wif : string) (n : Z) : option Z :=
  match wif with
  | EmptyString => Some n
  | String c r =>
      let idx := base58_find c in
      if idx <? 0 then None else base58_value r (n * 58 + idx)
  end.

(** [string decodeBase58(string wif)]: the result is printed into a
    [char buf[77]]. *)
Definition decodeBase58 (wif : string) : outcome (logged string) :=
  match base58_value wif 0 with
  | None => Val (["Wrong WIF format. This is not Base58!"%string], EmptyString)
  | Some n => s <~ into_buf 77 (Z076x n) ;; Val ([], s)
  end.

(** ** Hashing and checksums *)

Section Hashing.

(** [computeSHA256(source, length, hashBuf)] and
    [computeRIPEMD160(source, length, hashBuf)] come from [SHA256.h] and
    [RIPEMD160.h], which are not among the sources: for the bytes of
    [source], each gives the byte it leaves in [hashBuf[i]]. *)
Variable computeSHA256 : list Z -> nat -> Z.
Variable computeRIPEMD160 : list Z -> nat -> Z.

(** [string getHash(string str, int function)] *)
Definition getHash (str : string) (function : Z) : outcome string :=
  source <~ hex_to_bytes str ;;
  let lenHash := if function =? 2 then 20%nat else 32%nat in
  hashBuf <~ (if function =? 1 then Val (computeSHA256 source)
              else if function =? 2 then Val (computeRIPEMD160 source)
              else Fault Undefined) ;;
  Val (String.concat EmptyString
         (map (fun i => hex_fixed 2 (hashBuf i mod 256)) (seq 0 lenHash))).

(** [string mainnetChecksum(string mainnet, const string &key,
    bool compress)] *)
Definition mainnetChecksum (mainnet key : string) (compress : bool)
  : outcome string :=
  let mainnet := (mainnet ++ key ++ (if compress then "01" else ""))%string in
  h <~ getHash mainnet 1 ;;
  sha <~ getHash h 1 ;;
  checksum <~ substr sha 0 8 ;;
  Val (mainnet ++ checksum)%string.

(** [string remMainCheck(string hex)] *)
Definition remMainCheck (hex : string) : outcome (logged string) :=
  p <~ substr hex 0 2 ;;
  let compressed := negb (String.eqb p "00") in
  hex1 <~ (if negb compressed then substr_from hex 2 else Val hex) ;;
  check <~ substr_from hex1 (Z.of_nat (String.length hex1) - 8) ;;
  hex2 <~ substr hex1 0 (Z.of_nat (String.length hex1) - 8) ;;
  h <~ getHash hex2 1 ;;
  sha <~ getHash h 1 ;;
  checksum <~ substr sha 0 8 ;;
  let log1 := if String.eqb checksum check then []
              else ["Checksum is wrong!"%string] in
  p2 <~ substr hex2 0 2 ;;
  hex3 <~ (if String.eqb p2 "80" then substr_from hex2 2 else Val hex2) ;;
  let log2 := if String.eqb p2 "80" then []
              else ["This is not a WIF!"%string] in
  r <~ substr hex3 0 64 ;;
  Val (log1 ++ log2, r).

(** [string binary2Addr(const string &str)] *)
Definition binary2Addr (str : string) : outcome string :=
  sha <~ getHash str 1 ;;
  rip <~ getHash sha 2 ;;
  hexCheck <~ mainnetChecksum "00" rip false ;;
  encodeBase58Check hexCheck.

(** The [sign] branch of [main] from [argv[3]] to the integer of the
    private key: [decodeBase58], [remMainCheck], [mpz_class(hex,16)]. *)
Definition wif_to_key (wif : string) : outcome (logged Z) :=
  d <~ decodeBase58 wif ;;
  k <~ remMainCheck (snd d) ;;
  v <~ mpz_class_str (snd k) ;;
  Val (fst d ++ fst k, v).

End Hashing.

(** ** The DER text of a signature *)

(** ["00"] in front when the first character is above ['7']. *)
Definition pad00 (s : string) : string :=
  match s with
  | String c _ => if 55 <? code c then ("00" ++ s)%string else s
  | EmptyString => s
  end.

(** The [sign] branch of [main] from the two integers to the hex string
    [der]; every [sprintf] writes into the same [char buf[143]]. *)
Definition der_of (r s : Z) : outcome string :=
  bufR <~ into_buf 143 (Z064x r) ;;
  let strR := pad00 bufR in
  bufS <~ into_buf 143 (Z064x s) ;;
  let strS := pad00 bufS in
  strRS <~ into_buf 143
             ("02" ++ lx (Z.of_nat (String.length strR) / 2) ++ strR ++
              "02" ++ lx (Z.of_nat (String.length strS) / 2) ++ strS)%string ;;
  into_buf 143 ("30" ++ lx (Z.of_nat (String.length strRS) / 2) ++ strRS)%string.

(** The [verify] branch of [main] from the hex string [der] to the two
    integers of [R] and [S]. *)
Definition parse_der (der : string) : outcome (Z * Z) :=
  hR <~ substr der 6 2 ;;
  lenR <~ hex2int hR ;;
  strR <~ substr der 8 (lenR * 2) ;;
  hS <~ substr der (8 + lenR * 2 + 2) 2 ;;
  lenS <~ hex2int hS ;;
  strS <~ substr der (8 + lenR * 2 + 4) (lenS * 2) ;;
  r <~ mpz_class_str strR ;;
  s <~ mpz_class_str strS ;;
  Val (r, s).

(** A lower-case hex digit, and a string of them. *)
Definition is_lower_hex (c : ascii) : bool :=
  ((48 <=? code c) && (code c <=? 57)) || ((97 <=? code c) && (code c <=? 102)).
Fixpoint all_lower_hex (s : string) : bool :=
  match s with
  | EmptyString => true
  | String c r => is_lower_hex c && all_lower_hex r
  end.

Section Base64.

(** [base64_encode(source, length)] and [base64_decode(sigB64)] come from
    [base64.h], which is not among the sources: the first turns a byte
    array into text, the second turns text into a string of raw bytes. *)
Variable base64_encode : list Z -> string.
Variable base64_decode : string -> string.

(** The [sign] branch of [main] from the two integers to the text it
    prints after ["Signature = "]. *)
Definition signature_text (r s : Z) : outcome string :=
  der <~ der_of r s ;;
  source <~ hex_to_bytes der ;;
  Val (base64_encode source).

(** The [verify] branch of [main] from [argv[4]] to the two integers. *)
Definition read_signature (sigB64 : string) : outcome (Z * Z) :=
  let sigBin := base64_decode sigB64 in
  parse_der (bytes_to_hex sigBin).

End Base64.

(** ** Reading the file *)

(** [sprintf(buf, "%02x", c)] for a [char c] that holds the byte [byte]:
    the [char] is promoted to [int], negative when [char] is signed and
    the byte is [0x80] or more, and ["%x"] prints the 32 bits of that
    [int] as an unsigned number, at least two digits. *)
Definition x02_char (char_signed : bool) (byte : Z) : string :=
  let c := if char_signed && (128 <=? byte) then byte - 256 else byte in
  let u := c mod 2 ^ 32 in
  hex_fixed (Nat.max 2 (hex_len u)) u.

(** The loop of [readFile] over the bytes that [input.get(c)] delivers;
    every [sprintf] writes into [char buf[3]]. *)
Fixpoint readFile_loop (char_signed : bool) (input : list Z) (tmp : string)
  : outcome string :=
  match input with
  | [] => Val tmp
  | c :: rest =>
      buf <~ into_buf 3 (x02_char char_signed c) ;;
      readFile_loop char_signed rest (tmp ++ buf)
  end.

(** [string readFile(string file)] for a file that opens, given by its
    bytes; whether [char] is signed is the platform's choice. *)
Definition readFile (char_signed : bool) (input : list Z) : outcome string :=
  readFile_loop char_signed input EmptyString.

Section Message.

Variable computeSHA256 : list Z -> nat -> Z.
Variable computeRIPEMD160 : list Z -> nat -> Z.

(** The start of [main]: [getHash(getHash(readFile(argv[2]),1),1)] and
    [mpz_class z(doubleSha,16)]. *)
Definition message_number (char_signed : bool) (input : list Z) : outcome Z :=
  text <~ readFile char_signed input ;;
  h <~ getHash computeSHA256 computeRIPEMD160 text 1 ;;
  doubleSha <~ getHash computeSHA256 computeRIPEMD160 h 1 ;;
  mpz_class_str doubleSha.

End Message.

(** * Properties *)

(** ** The GMP primitives *)

Lemma mpz_mod_pos (n d : Z) : 0 < d -> GMP.mpz_mod n d = Ok (n mod d).
Proof.
  intros Hd. unfold GMP.mpz_mod.
  destruct (Z.eqb_spec d 0) as [E|_]; [lia|].
  now rewrite Z.abs_eq by lia.
Qed.

Lemma powm_pos_spec (b : Z) (e : positive) (m : Z) :
  GMP.powm_pos b e m = (b ^ Zpos e) mod m.
Proof.
  induction e as [e IH|e IH|]; cbn [GMP.powm_pos].
  - rewrite IH, Pos2Z.inj_xI.
    replace (2 * Z.pos e + 1) with (Z.pos e + Z.pos e + 1) by lia.
    rewrite !Z.pow_add_r, Z.pow_1_r by lia.
    rewrite <- Zmult_mod.
    now rewrite Zmult_mod_idemp_l.
  - rewrite IH, Pos2Z.inj_xO.
    replace (2 * Z.pos e) with (Z.pos e + Z.pos e) by lia.
    rewrite Z.pow_add_r by lia.
    now rewrite <- Zmult_mod.
  - now rewrite Z.pow_1_r.
Qed.

Lemma mpz_powm_nonneg (b e m : Z) :
  0 < m -> 0 <= e -> GMP.mpz_powm b e m = Ok ((b ^ e) mod m).
Proof.
  intros Hm He. unfold GMP.mpz_powm.
  destruct (Z.eqb_spec m 0) as [E|_]; [lia|].
  rewrite Z.abs_eq by lia.
  destruct e as [|p|p]; [reflexivity| |lia].
  now rewrite powm_pos_spec.
Qed.

(** ** Closed forms of the [GF] operations over a positive modulus *)

Ltac gf_step :=
  repeat first
    [ rewrite Z.eqb_refl
    | rewrite mpz_mod_pos by lia
    | progress cbn [bind negb GF.num GF.prime GF.getNum GF.getPrime] ].

Section FieldOps.
Variable m : Z.
Hypothesis Hm : 0 < m.

Lemma new_pos (n : Z) : GF.new n m = Ok (GF.make (n mod m) m).
Proof. unfold GF.new. now gf_step. Qed.

Lemma eqb_int_pos (a : GF.t) (n : Z) :
  GF.prime a = m ->
  GF.eqb_int a n = Ok (GF.num a mod m =? n mod m).
Proof.
  intros Ha. unfold GF.eqb_int. rewrite Ha, !new_pos. gf_step.
  unfold GF.eqb. gf_step. now rewrite andb_true_r.
Qed.

Lemma add_pos (a b : GF.t) :
  GF.prime a = m -> GF.prime b = m ->
  GF.add a b = Ok (GF.make ((GF.num a + GF.num b) mod m) m).
Proof.
  intros Ha Hb. unfold GF.add. rewrite Ha, Hb. gf_step.
  rewrite new_pos. now rewrite Z.mod_mod by lia.
Qed.

Lemma sub_pos (a b : GF.t) :
  GF.prime a = m -> GF.prime b = m ->
  GF.sub a b = Ok (GF.make ((GF.num a - GF.num b) mod m) m).
Proof.
  intros Ha Hb. unfold GF.sub. rewrite Ha, Hb. gf_step.
  rewrite new_pos. now rewrite Z.mod_mod by lia.
Qed.

Lemma mul_pos (a b : GF.t) :
  GF.prime a = m -> GF.prime b = m ->
  GF.mul a b = Ok (GF.make ((GF.num a * GF.num b) mod m) m).
Proof.
  intros Ha Hb. unfold GF.mul. rewrite Ha, Hb. gf_step.
  rewrite new_pos. now rewrite Z.mod_mod by lia.
Qed.

Lemma neg_pos (a : GF.t) :
  GF.prime a = m -> GF.neg a = Ok (GF.make ((- GF.num a) mod m) m).
Proof. intros Ha. unfold GF.neg. now rewrite Ha, new_pos. Qed.

Lemma add_int_pos (a : GF.t) (n : Z) :
  GF.prime a = m ->
  GF.add_int a n = Ok (GF.make ((GF.num a + n) mod m) m).
Proof.
  intros Ha. unfold GF.add_int. rewrite Ha, !new_pos. gf_step.
  rewrite add_pos by reflexivity. gf_step.
  now rewrite <- Zplus_mod.
Qed.

Lemma sub_int_pos (a : GF.t) (n : Z) :
  GF.prime a = m ->
  GF.sub_int a n = Ok (GF.make ((GF.num a - n) mod m) m).
Proof.
  intros Ha. unfold GF.sub_int. rewrite Ha, !new_pos. gf_step.
  rewrite sub_pos by reflexivity. gf_step.
  now rewrite <- Zminus_mod.
Qed.

Lemma mul_int_pos (a : GF.t) (n : Z) :
  GF.prime a = m ->
  GF.mul_int a n = Ok (GF.make ((GF.num a * n) mod m) m).
Proof.
  intros Ha. unfold GF.mul_int. rewrite Ha, !new_pos. gf_step.
  rewrite mul_pos by reflexivity. gf_step.
  now rewrite <- Zmult_mod.
Qed.

(** The remainder needs a divisor whose raw value is not zero. *)
Lemma rem_pos (a b : GF.t) :
  GF.prime a = m -> GF.prime b = m -> GF.num b <> 0 ->
  GF.rem a b = Ok (GF.make ((GF.num a mod Z.abs (GF.num b)) mod m) m).
Proof.
  intros Ha Hb Hn. unfold GF.rem. rewrite Ha, Hb. gf_step.
  unfold GMP.mpz_mod. destruct (Z.eqb_spec (GF.num b) 0) as [E|_]; [easy|].
  gf_step. now rewrite new_pos.
Qed.

Lemma rem_zero (a b : GF.t) :
  GF.prime a = m -> GF.prime b = m -> GF.num b = 0 ->
  GF.rem a b = Err DivideByZero.
Proof.
  intros Ha Hb Hn. unfold GF.rem. rewrite Ha, Hb, Hn. now gf_step.
Qed.

Hypothesis Hm1 : 1 < m.

Lemma pow_pos (a : GF.t) (e : Z) :
  GF.prime a = m ->
  GF.pow a e = Ok (GF.make ((GF.num a ^ (e mod (m - 1))) mod m) m).
Proof.
  intros Ha. unfold GF.pow. rewrite Ha. gf_step.
  rewrite mpz_powm_nonneg by (try apply Z.mod_pos_bound; lia).
  gf_step. rewrite new_pos. now rewrite Z.mod_mod by lia.
Qed.

Lemma pow_int_pos (a : GF.t) (n : Z) :
  GF.prime a = m ->
  GF.pow_int a n = Ok (GF.make ((GF.num a ^ (n mod (m - 1))) mod m) m).
Proof.
  intros Ha. unfold GF.pow_int. rewrite Ha, new_pos. gf_step.
  rewrite pow_pos by reflexivity. gf_step.
  now rewrite Z.mod_pow_l.
Qed.

Lemma div_pos (a b : GF.t) :
  GF.prime a = m -> GF.prime b = m ->
  GF.div a b =
  Ok (GF.make ((GF.num a * GF.num b ^ ((m - 2) mod (m - 1))) mod m) m).
Proof.
  intros Ha Hb. unfold GF.div. rewrite Ha, Hb. gf_step.
  rewrite new_pos, pow_pos by assumption. gf_step.
  rewrite mul_pos by reflexivity. gf_step.
  now rewrite <- Zmult_mod.
Qed.

End FieldOps.

(** ** Point addition and scalar multiplication never fail inside one field *)

Ltac gf_eval m :=
  repeat first
    [ rewrite (pow_int_pos m) by first [assumption | reflexivity | lia]
    | rewrite (pow_pos m) by first [assumption | reflexivity | lia]
    | rewrite (mul_int_pos m) by first [assumption | reflexivity | lia]
    | rewrite (add_int_pos m) by first [assumption | reflexivity | lia]
    | rewrite (sub_int_pos m) by first [assumption | reflexivity | lia]
    | rewrite (div_pos m) by first [assumption | reflexivity | lia]
    | rewrite (sub_pos m) by first [assumption | reflexivity | lia]
    | rewrite (add_pos m) by first [assumption | reflexivity | lia]
    | rewrite (mul_pos m) by first [assumption | reflexivity | lia]
    | rewrite (neg_pos m) by first [assumption | reflexivity | lia]
    | rewrite (new_pos m) by first [assumption | reflexivity | lia]
    | progress cbn [bind GF.num GF.prime x y] ].

Section PointOps.
Variable m : Z.
Hypothesis Hm1 : 1 < m.

(** Doubling branch: taken when both coordinates compare equal. *)
Lemma add_tangent (p q : point) :
  point_over m p -> point_over m q ->
  GF.eqb (x p) (x q) && GF.eqb (y p) (y q) = true ->
  add p q =
  let lam := tangent_slope m (GF.num (x p)) (GF.num (y p)) in
  let rx := sum_x m lam (GF.num (x p)) (GF.num (x q)) in
  Ok (mkpoint (GF.make rx m)
              (GF.make (sum_y m lam (GF.num (x p)) (GF.num (y p)) rx) m)).
Proof.
  intros [Hpx Hpy] [Hqx Hqy] E. unfold add. rewrite E.
  assert (0 < m) by lia. gf_eval m.
  unfold tangent_slope, chord_slope, sum_x, sum_y, fdiv. cbv zeta.
  reflexivity.
Qed.

(** Chord branch: taken otherwise. *)
Lemma add_chord (p q : point) :
  point_over m p -> point_over m q ->
  GF.eqb (x p) (x q) && GF.eqb (y p) (y q) = false ->
  add p q =
  let lam := chord_slope m (GF.num (x p)) (GF.num (y p))
               (GF.num (x q)) (GF.num (y q)) in
  let rx := sum_x m lam (GF.num (x p)) (GF.num (x q)) in
  Ok (mkpoint (GF.make rx m)
              (GF.make (sum_y m lam (GF.num (x p)) (GF.num (y p)) rx) m)).
Proof.
  intros [Hpx Hpy] [Hqx Hqy] E. unfold add. rewrite E.
  assert (0 < m) by lia. gf_eval m.
  unfold tangent_slope, chord_slope, sum_x, sum_y, fdiv. cbv zeta.
  reflexivity.
Qed.

Lemma add_total (p q : point) :
  point_over m p -> point_over m q ->
  exists r, add p q = Ok r /\ point_over m r.
Proof.
  intros Hp Hq.
  destruct (GF.eqb (x p) (x q) && GF.eqb (y p) (y q)) eqn:E.
  - rewrite (add_tangent p q Hp Hq E). eexists. split; [reflexivity|].
    now split.
  - rewrite (add_chord p q Hp Hq E). eexists. split; [reflexivity|].
    now split.
Qed.

(** The whole loop returns a point of the same field when the
    accumulator and the running power start in it. *)
Lemma priv2pub_loop_total (iters : nat) (sk : GF.t) :
  forall (pub G : point) (bit : Z),
    point_over m pub -> point_over m G ->
    exists r, priv2pub_loop iters sk pub G bit = Ok r /\ point_over m r.
Proof.
  induction iters as [|k IH]; intros pub G bit Hpub HG; cbn [priv2pub_loop].
  - now exists pub.
  - destruct (add_total G G HG HG) as (G' & EG & HG').
    assert (Hacc : exists pub',
               (if negb (GMP.mpz_and bit (GF.getNum sk) =? 0)
                then zx <- GF.eqb_int (x pub) 0 ;;
                     zy <- (if zx then GF.eqb_int (y pub) 0 else Ok false) ;;
                     if zx && zy then Ok (mkpoint (x G) (y G)) else add pub G
                else Ok pub) = Ok pub' /\ point_over m pub').
    { destruct (negb (GMP.mpz_and bit (GF.getNum sk) =? 0)).
      - destruct Hpub as [Hx Hy].
        rewrite (eqb_int_pos m) by (lia || assumption). cbn [bind].
        destruct (GF.num (x pub) mod m =? 0 mod m).
        + rewrite (eqb_int_pos m) by (lia || assumption). cbn [bind].
          destruct (GF.num (y pub) mod m =? 0 mod m); cbn [andb].
          * eexists. split; [reflexivity|]. exact HG.
          * apply add_total; [now split | exact HG].
        + cbn [bind andb]. apply add_total; [now split | exact HG].
      - now exists pub. }
    destruct Hacc as (pub' & Epub & Hpub').
    rewrite Epub, EG. cbn [bind]. now apply IH.
Qed.

(** When no remaining bit of the scalar is set, the accumulator comes
    back as it is. *)
Lemma priv2pub_loop_idle (iters : nat) (sk : GF.t) :
  forall (pub G : point) (bit : Z),
    point_over m G ->
    (forall j, 0 <= j -> Z.land (Z.shiftl bit j) (GF.num sk) = 0) ->
    priv2pub_loop iters sk pub G bit = Ok pub.
Proof.
  induction iters as [|k IH]; intros pub G bit HG Hbits; cbn [priv2pub_loop].
  - reflexivity.
  - unfold GMP.mpz_and, GF.getNum.
    rewrite <- (Z.shiftl_0_r bit) at 1. rewrite Hbits by lia.
    cbn [Z.eqb negb bind].
    destruct (add_total G G HG HG) as (G' & EG & HG').
    rewrite EG. cbn [bind]. apply IH; [exact HG'|].
    intros j Hj. rewrite Z.shiftl_shiftl by lia. apply Hbits. lia.
Qed.

End PointOps.

(** ** Class GF: mixed moduli, zero divisors, exponents, the range invariant *)

Lemma prime_7 : Z.prime 7.
Proof.
  split; [lia|]. intros n Hn [k Hk].
  assert (n = 2 \/ n = 3 \/ n = 4 \/ n = 5 \/ n = 6) as C by lia.
  destruct C as [->|[->|[->|[->| ->]]]]; lia.
Qed.

Lemma exp_m2 (m : Z) : 2 < m -> (m - 2) mod (m - 1) = m - 2.
Proof. intros H. apply Z.mod_small. lia. Qed.

Lemma exp_neg1 (m : Z) : (-1) mod (m - 1) = (m - 2) mod (m - 1).
Proof.
  replace (m - 2) with (-1 + 1 * (m - 1)) by lia.
  now rewrite Z_mod_plus_full.
Qed.

(** C7: an operation on two elements with different moduli throws; this
    holds for addition, subtraction, multiplication, division and
    remainder. *)
Theorem mixed_moduli_abort (a b : GF.t) :
  GF.prime a <> GF.prime b ->
  GF.add a b = Err (Exception "Cannot add two numbers in different Fields") /\
  GF.sub a b =
    Err (Exception "Cannot subtract two numbers in different Fields") /\
  GF.mul a b =
    Err (Exception "Cannot multiply two numbers in different Fields") /\
  GF.div a b = Err (Exception "Cannot divide two numbers in different Fields") /\
  GF.rem a b =
    Err (Exception "Cannot get module from two numbers in different Fields").
Proof.
  intros H. apply Z.eqb_neq in H.
  unfold GF.add, GF.sub, GF.mul, GF.div, GF.rem, GF.abort.
  rewrite H. cbn [negb]. repeat split.
Qed.

Lemma mixed_moduli_abort_witness :
  GF.prime (GF.make 1 5) <> GF.prime (GF.make 1 7) /\
  GF.add (GF.make 1 5) (GF.make 1 7) =
    Err (Exception "Cannot add two numbers in different Fields").
Proof.
  split.
  - cbn. lia.
  - apply (mixed_moduli_abort (GF.make 1 5) (GF.make 1 7)). cbn. lia.
Defined.

(** C4 as stated fails: 5 / 0 over the modulus 7 returns the zero element
    and raises nothing. *)
Lemma div_by_zero_counterexample :
  GF.div (GF.make 5 7) (GF.make 0 7) = Ok (GF.make 0 7).
Proof. reflexivity. Qed.

(** C4 (amended): over a modulus above 2, dividing any element by the zero
    element of the same modulus raises nothing and returns the zero
    element. *)
Theorem div_by_zero_returns_zero (m : Z) (a : GF.t) :
  2 < m -> GF.prime a = m ->
  GF.div a (GF.make 0 m) = Ok (GF.make 0 m).
Proof.
  intros Hm Ha.
  rewrite (div_pos m) by (lia || assumption || reflexivity).
  cbn [GF.num]. rewrite exp_m2 by lia.
  rewrite Z.pow_0_l by lia. now rewrite Z.mul_0_r, Z.mod_0_l by lia.
Qed.

Lemma div_by_zero_returns_zero_witness :
  2 < 7 /\ GF.div (GF.make 5 7) (GF.make 0 7) = Ok (GF.make 0 7).
Proof.
  split; [lia|].
  apply (div_by_zero_returns_zero 7 (GF.make 5 7)); [lia | reflexivity].
Defined.

(** C9: the zero element of a prime modulus [m], raised to an exponent
    that is a multiple of [m - 1], is the one element; so it is for the
    exponents [0] and [m - 1]. *)
Theorem pow_zero_base (m : Z) :
  Z.prime m ->
  (forall e, e mod (m - 1) = 0 -> GF.pow (GF.make 0 m) e = Ok (GF.make 1 m)) /\
  GF.pow (GF.make 0 m) 0 = Ok (GF.make 1 m) /\
  GF.pow (GF.make 0 m) (m - 1) = Ok (GF.make 1 m).
Proof.
  intros Hp. pose proof (Z.prime_ge_2 _ Hp) as Hm.
  assert (G : forall e, e mod (m - 1) = 0 ->
                        GF.pow (GF.make 0 m) e = Ok (GF.make 1 m)).
  { intros e He. rewrite (pow_pos m) by (lia || reflexivity).
    cbn [GF.num]. rewrite He, Z.pow_0_r. now rewrite Z.mod_1_l by lia. }
  split; [exact G|]. split; apply G.
  - apply Z.mod_0_l. lia.
  - apply Z_mod_same_full.
Qed.

Lemma pow_zero_base_witness :
  Z.prime 7 /\ GF.pow (GF.make 0 7) 12 = Ok (GF.make 1 7).
Proof.
  split; [exact prime_7|].
  apply (proj1 (pow_zero_base 7 prime_7) 12). reflexivity.
Defined.

(** C6 as stated fails in its last identity: over the prime modulus 7,
    [2.pow(5) * 2] is the one element while [2.pow(1)] is 2. *)
Lemma pow_inverse_counterexample :
  Z.prime 7 /\
  GF.make 2 7 <> GF.make 0 7 /\
  (p <- GF.pow (GF.make 2 7) (7 - 2) ;; GF.mul p (GF.make 2 7))
    = Ok (GF.make 1 7) /\
  GF.pow (GF.make 2 7) 1 = Ok (GF.make 2 7) /\
  (p <- GF.pow (GF.make 2 7) (7 - 2) ;; GF.mul p (GF.make 2 7))
    <> GF.pow (GF.make 2 7) 1.
Proof.
  split; [exact prime_7|]. repeat split; try reflexivity; discriminate.
Qed.

(** C6 (amended): over a prime modulus [m], [a.pow(e)] returns the same
    element as [a.pow(e mod (m-1))] for every integer [e]; for [a] not
    zero, [a.pow(-1)] returns the same element as [a.pow(m-2)], and
    [a.pow(m-2) * a] is the one element. *)
Theorem pow_exponent_reduction (m : Z) (a : GF.t) :
  Z.prime m -> GF.prime a = m ->
  (forall e, exists r,
      GF.pow a e = Ok r /\ GF.pow a (e mod (m - 1)) = Ok r) /\
  (0 < GF.num a < m ->
   (exists r, GF.pow a (-1) = Ok r /\ GF.pow_int a (-1) = Ok r /\
              GF.pow a (m - 2) = Ok r) /\
   (p <- GF.pow a (m - 2) ;; GF.mul p a) = Ok (GF.make 1 m)).
Proof.
  intros Hp Ha. pose proof (Z.prime_ge_2 _ Hp) as Hm.
  split.
  - intros e. eexists. split.
    + apply (pow_pos m); (lia || assumption).
    + rewrite (pow_pos m) by (lia || assumption).
      now rewrite Z.mod_mod by lia.
  - intros Hnz. split.
    + eexists. split; [|split].
      * apply (pow_pos m); (lia || assumption).
      * now rewrite (pow_int_pos m) by (lia || assumption).
      * rewrite (pow_pos m) by (lia || assumption).
        now rewrite exp_neg1.
    + rewrite (pow_pos m) by (lia || assumption). cbn [bind].
      rewrite (mul_pos m) by (lia || assumption || reflexivity).
      cbn [GF.num]. do 2 f_equal.
      rewrite Zmult_mod_idemp_l.
      destruct (Z.eq_dec m 2) as [->|Hne].
      * assert (GF.num a = 1) as -> by lia. reflexivity.
      * rewrite exp_m2 by lia.
        rewrite <- (Z.pow_1_r (GF.num a)) at 2.
        rewrite <- Z.pow_add_r by lia.
        replace (m - 2 + 1) with (m - 1) by lia.
        apply Z.fermat_nz; [exact Hp|].
        rewrite Z.mod_small by lia. lia.
Qed.

Lemma pow_exponent_reduction_witness :
  Z.prime 7 /\ 0 < GF.num (GF.make 2 7) < 7 /\
  (p <- GF.pow (GF.make 2 7) (7 - 2) ;; GF.mul p (GF.make 2 7))
    = Ok (GF.make 1 7).
Proof.
  split; [exact prime_7|]. split; [cbn; lia|].
  apply (proj2 (pow_exponent_reduction 7 (GF.make 2 7) prime_7 eq_refl)).
  cbn. lia.
Defined.

(** Over a prime modulus [operator/] undoes [operator*]:
    [(a / b) * b] is [a] for [b] not zero. *)
Lemma div_mul_cancel (m : Z) (a b : GF.t) :
  Z.prime m -> GF.prime a = m -> GF.prime b = m -> GF.num b mod m <> 0 ->
  (q <- GF.div a b ;; GF.mul q b) = GF.new (GF.num a) m.
Proof.
  intros Hp Ha Hb Hnz. pose proof (Z.prime_ge_2 _ Hp) as Hm.
  rewrite (div_pos m) by (lia || assumption). cbn [bind].
  rewrite (mul_pos m), (new_pos m) by (lia || assumption || reflexivity).
  cbn [GF.num]. do 2 f_equal.
  rewrite Zmult_mod_idemp_l, <- Z.mul_assoc.
  destruct (Z.eq_dec m 2) as [->|Hne].
  - change ((2 - 2) mod (2 - 1)) with 0. rewrite Z.pow_0_r, Z.mul_1_l.
    assert (GF.num b mod 2 = 1) as E
        by (pose proof (Z.mod_pos_bound (GF.num b) 2); lia).
    now rewrite <- Zmult_mod_idemp_r, E, Z.mul_1_r.
  - rewrite exp_m2 by lia.
    rewrite <- (Z.pow_1_r (GF.num b)) at 2.
    rewrite <- Z.pow_add_r by lia.
    replace (m - 2 + 1) with (m - 1) by lia.
    rewrite <- Zmult_mod_idemp_r, Z.fermat_nz by assumption.
    now rewrite Z.mul_1_r.
Qed.

(** C8 as stated fails where an operation returns nothing: the remainder
    by the zero element, and exponentiation or division over the modulus
    1, make GMP reduce modulo zero. *)
Lemma value_reduced_counterexample :
  reduced 7 (GF.make 3 7) /\ reduced 7 (GF.make 0 7) /\
  GF.rem (GF.make 3 7) (GF.make 0 7) = Err DivideByZero /\
  ~ (exists r, GF.rem (GF.make 3 7) (GF.make 0 7) = Ok r /\ reduced 7 r) /\
  reduced 1 (GF.make 0 1) /\
  GF.pow (GF.make 0 1) 0 = Err DivideByZero /\
  GF.div (GF.make 0 1) (GF.make 0 1) = Err DivideByZero.
Proof.
  repeat split; try reflexivity; try (cbn; lia).
  intros (r & H & _). discriminate H.
Qed.

(** C8 (amended): over a positive modulus [m] the constructor stores a
    value in [[0, m)]; addition, subtraction, negation and multiplication
    of elements tagged [m] always return an element with a value in
    [[0, m)]; division and exponentiation do when [m > 1], and the
    remainder does when the raw value of the divisor is not zero; and
    whatever element one of these operations returns has its value in
    [[0, m)]. *)
Theorem value_always_reduced (m : Z) :
  0 < m ->
  (forall n, exists r, GF.new n m = Ok r /\ reduced m r) /\
  (forall a b, GF.prime a = m -> GF.prime b = m ->
     (exists r, GF.add a b = Ok r /\ reduced m r) /\
     (exists r, GF.sub a b = Ok r /\ reduced m r) /\
     (exists r, GF.neg a = Ok r /\ reduced m r) /\
     (exists r, GF.mul a b = Ok r /\ reduced m r) /\
     (1 < m -> exists r, GF.div a b = Ok r /\ reduced m r) /\
     (1 < m -> forall e, exists r, GF.pow a e = Ok r /\ reduced m r) /\
     (GF.num b <> 0 -> exists r, GF.rem a b = Ok r /\ reduced m r)) /\
  (forall a b e r, GF.prime a = m -> GF.prime b = m ->
     GF.div a b = Ok r \/ GF.pow a e = Ok r \/ GF.rem a b = Ok r ->
     reduced m r).
Proof.
  intros Hm.
  assert (R : forall v, reduced m (GF.make (v mod m) m)).
  { intros v. split; [reflexivity|]. cbn [GF.num].
    apply Z.mod_pos_bound. lia. }
  assert (T : forall a b, GF.prime a = m -> GF.prime b = m ->
     (exists r, GF.add a b = Ok r /\ reduced m r) /\
     (exists r, GF.sub a b = Ok r /\ reduced m r) /\
     (exists r, GF.neg a = Ok r /\ reduced m r) /\
     (exists r, GF.mul a b = Ok r /\ reduced m r) /\
     (1 < m -> exists r, GF.div a b = Ok r /\ reduced m r) /\
     (1 < m -> forall e, exists r, GF.pow a e = Ok r /\ reduced m r) /\
     (GF.num b <> 0 -> exists r, GF.rem a b = Ok r /\ reduced m r)).
  { intros a b Ha Hb. repeat split.
    - rewrite (add_pos m) by assumption. eauto.
    - rewrite (sub_pos m) by assumption. eauto.
    - rewrite (neg_pos m) by assumption. eauto.
    - rewrite (mul_pos m) by assumption. eauto.
    - intros H1. rewrite (div_pos m) by assumption. eauto.
    - intros H1 e. rewrite (pow_pos m) by assumption. eauto.
    - intros Hn. rewrite (rem_pos m) by assumption. eauto. }
  split; [|split].
  - intros n. rewrite (new_pos m) by assumption. eauto.
  - exact T.
  - intros a b e r Ha Hb H.
    destruct (T a b Ha Hb) as (_ & _ & _ & _ & Hdiv & Hpow & Hrem).
    destruct (Z.eq_dec m 1) as [->|Hne].
    + (* modulus 1: the exponent is reduced modulo zero *)
      destruct H as [H|[H|H]].
      * unfold GF.div in H. rewrite Ha, Hb in H. cbn in H.
        unfold GF.pow in H. rewrite Hb in H. cbn in H. discriminate.
      * unfold GF.pow in H. rewrite Ha in H. cbn in H. discriminate.
      * destruct (Z.eq_dec (GF.num b) 0) as [E|E].
        -- rewrite (rem_zero 1) in H by (lia || assumption). discriminate.
        -- destruct (Hrem E) as (r' & Er & Hr). congruence.
    + assert (1 < m) as H1 by lia.
      destruct H as [H|[H|H]].
      * destruct (Hdiv H1) as (r' & Er & Hr). congruence.
      * destruct (Hpow H1 e) as (r' & Er & Hr). congruence.
      * destruct (Z.eq_dec (GF.num b) 0) as [E|E].
        -- rewrite (rem_zero m) in H by (lia || assumption). discriminate.
        -- destruct (Hrem E) as (r' & Er & Hr). congruence.
Qed.

Lemma value_always_reduced_witness :
  0 < 7 /\ exists r, GF.new (-3) 7 = Ok r /\ reduced 7 r.
Proof.
  split; [lia|].
  apply (proj1 (value_always_reduced 7 ltac:(lia)) (-3)).
Defined.

(** ** The curve constants *)

Lemma P_gt_2 : 2 < secp256k1.P.
Proof. reflexivity. Qed.

Lemma N_gt_2 : 2 < secp256k1.N.
Proof. reflexivity. Qed.

Lemma N_lt_P : secp256k1.N < secp256k1.P.
Proof. reflexivity. Qed.

Lemma G_over_P : point_over secp256k1.P secp256k1.G.
Proof. split; reflexivity. Qed.

Lemma origin_over_P : point_over secp256k1.P origin.
Proof. split; reflexivity. Qed.

Lemma G_on_curve : on_curve secp256k1.G.
Proof. vm_compute. reflexivity. Qed.

Lemma origin_is_zero :
  GF.eqb_int (x origin) 0 = Ok true /\ GF.eqb_int (y origin) 0 = Ok true.
Proof. split; reflexivity. Qed.

(** ** Scalar multiplication on the identity *)

Lemma land_even_1 (j : Z) : 0 <= j -> Z.land (Z.shiftl 2 j) 1 = 0.
Proof.
  intros Hj.
  change (Z.land (Z.shiftl 2 j) 1) with (Z.land (Z.shiftl 2 j) (Z.ones 1)).
  rewrite Z.land_ones by lia. rewrite Z.shiftl_mul_pow2 by lia.
  change (2 ^ 1) with 2. rewrite Z.mul_comm. apply Z_mod_mult.
Qed.

(** A set bit met while the accumulator is [(0,0)]: the accumulator
    becomes the running point, [add] is not called on it. *)
Lemma priv2pub_step_identity (iters : nat) (sk : GF.t) (G : point) (bit : Z) :
  Z.land bit (GF.num sk) <> 0 ->
  priv2pub_loop (S iters) sk origin G bit =
  (G' <- add G G ;;
   priv2pub_loop iters sk (mkpoint (x G) (y G)) G' (Z.shiftl bit 1)).
Proof.
  intros Hbit. cbn [priv2pub_loop]. unfold GMP.mpz_and, GF.getNum.
  apply Z.eqb_neq in Hbit. rewrite Hbit. cbn [negb].
  destruct origin_is_zero as [-> ->]. reflexivity.
Qed.

Lemma priv2pub_one (m : Z) (sk : GF.t) (Q : point) :
  1 < m -> point_over m Q -> GF.num sk = 1 ->
  priv2pub sk (Some Q) = Ok Q.
Proof.
  intros Hm HQ Hsk. unfold priv2pub.
  assert (E : mkpoint (x Q) (y Q) = Q) by now destruct Q.
  rewrite E. change 256%nat with (S 255).
  rewrite priv2pub_step_identity by (rewrite Hsk; discriminate).
  destruct (add_total m Hm Q Q HQ HQ) as (G' & EG & HG').
  rewrite EG, E. cbn [bind].
  apply (priv2pub_loop_idle m Hm); [exact HG'|].
  intros j Hj. rewrite Hsk. change (Z.shiftl 1 1) with 2.
  now apply land_even_1.
Qed.

(** Without a second argument the base point is the generator. *)
Lemma priv2pub_default (sk : GF.t) :
  priv2pub sk None = priv2pub sk (Some secp256k1.G).
Proof. unfold priv2pub. reflexivity. Qed.

Lemma priv2pub_total (sk : GF.t) (Q : point) :
  point_over secp256k1.P Q ->
  exists pk, priv2pub sk (Some Q) = Ok pk /\ point_over secp256k1.P pk.
Proof.
  intros HQ. unfold priv2pub.
  apply (priv2pub_loop_total secp256k1.P); try exact origin_over_P.
  - pose proof P_gt_2. lia.
  - exact HQ.
Qed.

Lemma priv2pub_total_G (sk : GF.t) :
  exists pk, priv2pub sk None = Ok pk /\ point_over secp256k1.P pk.
Proof.
  rewrite priv2pub_default. exact (priv2pub_total sk secp256k1.G G_over_P).
Qed.

(** C10: for a scalar whose value is zero, [priv2pub] returns the pair
    [(0,0)] it started the accumulator with and raises nothing: no bit of
    the scalar is set, so the loop hands the accumulator back as it is,
    whatever the number of iterations. *)
Theorem priv2pub_zero_scalar (sk : GF.t) :
  GF.num sk = 0 ->
  priv2pub sk None
    = Ok (mkpoint (GF.make 0 secp256k1.P) (GF.make 0 secp256k1.P)) /\
  forall iters pub bit,
    priv2pub_loop iters sk pub secp256k1.G bit = Ok pub.
Proof.
  intros Hsk.
  assert (L : forall iters pub bit,
             priv2pub_loop iters sk pub secp256k1.G bit = Ok pub).
  { intros iters pub bit.
    apply (priv2pub_loop_idle secp256k1.P).
    - pose proof P_gt_2. lia.
    - exact G_over_P.
    - intros j _. rewrite Hsk. apply Z.land_0_r. }
  split; [|exact L].
  unfold priv2pub. exact (L 256%nat origin 1).
Qed.

Lemma priv2pub_zero_scalar_witness :
  GF.num (GF.make 0 secp256k1.N) = 0 /\
  priv2pub (GF.make 0 secp256k1.N) None
    = Ok (mkpoint (GF.make 0 secp256k1.P) (GF.make 0 secp256k1.P)).
Proof.
  split; [reflexivity|].
  apply (priv2pub_zero_scalar (GF.make 0 secp256k1.N)). reflexivity.
Defined.

(** C5: [add] misses the identity case that [priv2pub] has.  The pair
    [(0,0)] is the identity of the scalar multiplication: [priv2pub]
    returns it for the scalar 0, and its guard
    [pub.x == 0 && pub.y == 0] makes the accumulator [(0,0)] plus [G] the
    generator itself, so that [priv2pub(1)] is [G].  [add] has the
    doubling and the chord branch only: on the generator, a point of the
    curve, and [(0,0)], in either order, it returns a point that is not
    the generator. *)
Theorem add_misses_identity :
  on_curve secp256k1.G /\
  priv2pub (GF.make 0 secp256k1.N) None = Ok origin /\
  priv2pub (GF.make 1 secp256k1.N) None = Ok secp256k1.G /\
  (exists r, add secp256k1.G origin = Ok r /\ r <> secp256k1.G) /\
  (exists r, add origin secp256k1.G = Ok r /\ r <> secp256k1.G).
Proof.
  pose proof P_gt_2 as HP.
  split; [exact G_on_curve|]. split; [|split; [|split]].
  - unfold priv2pub.
    apply (priv2pub_loop_idle secp256k1.P); [lia | exact G_over_P|].
    intros j _. apply Z.land_0_r.
  - rewrite priv2pub_default.
    apply (priv2pub_one secp256k1.P); [lia | exact G_over_P | reflexivity].
  - eexists. split; [vm_compute; reflexivity|]. vm_compute. discriminate.
  - eexists. split; [vm_compute; reflexivity|]. vm_compute. discriminate.
Qed.

(** ** Nonce generation *)

Lemma new_key_P (key : Z) :
  0 < key < secp256k1.N ->
  GF.new key secp256k1.P = Ok (GF.make key secp256k1.P).
Proof.
  intros H. pose proof N_lt_P. pose proof P_gt_2.
  rewrite (new_pos secp256k1.P) by lia. now rewrite Z.mod_small by lia.
Qed.

Lemma genPriv_cons (key : Z) (rest : entropy) :
  genPriv (key :: rest) =
  if (key <=? 0) || (key >=? secp256k1.N) then genPriv rest
  else Return (GF.make key secp256k1.P) rest.
Proof.
  cbn [genPriv].
  destruct (Z.leb_spec key 0) as [H0|H0]; cbn [orb]; [reflexivity|].
  destruct (Z.geb_spec key secp256k1.N) as [H1|H1]; [reflexivity|].
  now rewrite new_key_P by lia.
Qed.

(** C3 as stated fails in the modulus: the element returned for the draw 5
    is tagged with the field prime, which is not the group order. *)
Lemma genPriv_modulus_counterexample :
  exists sk rest,
    genPriv [5] = Return sk rest /\
    GF.num sk = 5 /\
    GF.prime sk = secp256k1.P /\
    GF.prime sk <> secp256k1.N.
Proof.
  exists (GF.make 5 secp256k1.P), []. repeat split.
  cbn [GF.prime]. apply Z.eqb_neq. reflexivity.
Qed.

(** [genPriv] returns exactly the first draw inside [(0, N)]. *)
Lemma genPriv_returns (rnd : entropy) (sk : GF.t) (rest : entropy) :
  genPriv rnd = Return sk rest <->
  exists skipped key,
    rnd = skipped ++ key :: rest /\
    Forall out_of_range skipped /\
    0 < key < secp256k1.N /\
    sk = GF.make key secp256k1.P.
Proof.
  split.
  - revert sk rest. induction rnd as [|k rnd IH]; intros sk rest H.
    + discriminate.
    + rewrite genPriv_cons in H.
      destruct (Z.leb_spec k 0) as [H0|H0]; cbn [orb] in H.
      * destruct (IH _ _ H) as (sk' & key & -> & F & Hk & ->).
        exists (k :: sk'), key. repeat split; try lia.
        constructor; [left; lia | exact F].
      * destruct (Z.geb_spec k secp256k1.N) as [H1|H1].
        -- destruct (IH _ _ H) as (sk' & key & -> & F & Hk & ->).
           exists (k :: sk'), key. repeat split; try lia.
           constructor; [right; lia | exact F].
        -- injection H as <- <-. exists [], k. repeat split; try lia.
           constructor.
  - intros (skipped & key & -> & F & Hk & ->).
    induction F as [|k l Hk' F IH]; cbn [app]; rewrite genPriv_cons.
    + destruct (Z.leb_spec key 0) as [H0|H0]; [lia|]. cbn [orb].
      destruct (Z.geb_spec key secp256k1.N) as [H1|H1]; [lia|]. reflexivity.
    + assert ((k <=? 0) || (k >=? secp256k1.N) = true) as ->; [|exact IH].
      destruct Hk' as [Hk'|Hk'].
      * destruct (Z.leb_spec k 0); [reflexivity | lia].
      * destruct (Z.geb_spec k secp256k1.N); [apply orb_true_r | lia].
Qed.

Lemma genPriv_never_raises (rnd : entropy) (e : error) :
  genPriv rnd <> Raise e.
Proof.
  induction rnd as [|k rnd IH]; [discriminate|].
  rewrite genPriv_cons. destruct ((k <=? 0) || (k >=? secp256k1.N)).
  - exact IH.
  - discriminate.
Qed.

Lemma genPriv_shorter (rnd : entropy) (sk : GF.t) (rest : entropy) :
  genPriv rnd = Return sk rest -> (List.length rest < List.length rnd)%nat.
Proof.
  intros H. apply genPriv_returns in H.
  destruct H as (skipped & key & -> & _).
  rewrite length_app. cbn [List.length]. lia.
Qed.

Lemma genPriv_starved (rnd : entropy) :
  genPriv rnd = Starved <-> Forall out_of_range rnd.
Proof.
  induction rnd as [|k rnd IH].
  - split; [constructor | reflexivity].
  - rewrite genPriv_cons.
    destruct (Z.leb_spec k 0) as [H0|H0]; cbn [orb].
    + rewrite IH. split.
      * intros F. constructor; [left; lia | exact F].
      * intros F. now inversion F.
    + destruct (Z.geb_spec k secp256k1.N) as [H1|H1].
      * rewrite IH. split.
        -- intros F. constructor; [right; lia | exact F].
        -- intros F. now inversion F.
      * split; [discriminate|].
        intros F. inversion F as [|? ? [Hk|Hk] ?]; lia.
Qed.

(** C3 (amended): [genPriv] returns exactly when the source holds a draw
    inside [(0, N)]; the element returned carries the first such draw as
    it is, tagged with the field prime [P] (not the group order), and
    every draw before it, being [<= 0] or [>= N], was thrown away and
    replaced by the next one, never reduced; it raises nothing and keeps
    drawing as long as every draw is out of range. *)
Theorem genPriv_spec (rnd : entropy) :
  (forall sk rest,
      genPriv rnd = Return sk rest <->
      exists skipped key,
        rnd = skipped ++ key :: rest /\
        Forall out_of_range skipped /\
        0 < key < secp256k1.N /\
        sk = GF.make key secp256k1.P) /\
  (forall e, genPriv rnd <> Raise e) /\
  (genPriv rnd = Starved <-> Forall out_of_range rnd).
Proof.
  split; [|split].
  - intros sk rest. apply genPriv_returns.
  - apply genPriv_never_raises.
  - apply genPriv_starved.
Qed.

(** ** The signing loop *)

Lemma sign_formula (n z d r k e : Z) :
  ((z + ((d mod n) * (r mod n)) mod n) mod n * (k mod n) ^ e) mod n
  = ((z + d * r) * k ^ e) mod n.
Proof.
  rewrite Zmult_mod_idemp_l.
  rewrite <- (Zmult_mod d r).
  rewrite <- (Zmult_mod_idemp_l (z + (d * r) mod n)).
  rewrite Zplus_mod_idemp_r, Zmult_mod_idemp_l.
  rewrite <- Zmult_mod_idemp_r, Z.mod_pow_l.
  now rewrite Zmult_mod_idemp_r.
Qed.

(** The value of [S] as one formula on the raw values. *)
Lemma sign_candidate_eq (message privKey sk : GF.t) (pk : point) :
  GF.prime message = secp256k1.N ->
  priv2pub sk None = Ok pk ->
  sign_candidate message privKey sk =
  Ok (x pk,
      GF.make (((GF.num message + GF.num privKey * GF.num (x pk))
                * GF.num sk ^ (secp256k1.N - 2)) mod secp256k1.N)
        secp256k1.N).
Proof.
  intros Hm Hpk. pose proof N_gt_2 as HN.
  unfold sign_candidate, GF.getNum. rewrite Hpk. cbn [bind].
  gf_eval secp256k1.N.
  rewrite exp_m2 by exact HN. now rewrite sign_formula.
Qed.

Lemma sign_rejected_eq (sigR sigS : GF.t) :
  GF.prime sigR = secp256k1.P -> GF.prime sigS = secp256k1.N ->
  sign_rejected sigR sigS = Ok ((GF.num sigR =? 0) || (GF.num sigS =? 0)).
Proof.
  intros HR HS. pose proof N_gt_2. pose proof P_gt_2.
  unfold sign_rejected. gf_eval secp256k1.P.
  unfold GF.eqb. cbn [GF.num GF.prime].
  rewrite HR, HS, !Z.eqb_refl, !andb_true_r.
  rewrite Z.mod_0_l by lia.
  destruct (GF.num sigR =? 0); [reflexivity|].
  gf_eval secp256k1.N. rewrite Z.eqb_refl, andb_true_r.
  now rewrite Z.mod_0_l by lia.
Qed.

(** One turn of the inner loop on a drawn nonce. *)
Lemma sign_inner_step (fuel : nat) (message privKey sk : GF.t)
  (rnd rest : entropy) :
  GF.prime message = secp256k1.N ->
  genPriv rnd = Return sk rest ->
  exists pk,
    priv2pub sk None = Ok pk /\
    let r := x pk in
    let s := GF.make (((GF.num message + GF.num privKey * GF.num r)
                       * GF.num sk ^ (secp256k1.N - 2)) mod secp256k1.N)
               secp256k1.N in
    sign_candidate message privKey sk = Ok (r, s) /\
    sign_inner (S fuel) message privKey rnd =
      (if (GF.num r =? 0) || (GF.num s =? 0)
       then sign_inner fuel message privKey rest
       else Return (r, s) rest).
Proof.
  intros Hm Hgen.
  destruct (priv2pub_total_G sk) as (pk & Hpk & [Hx _]).
  exists pk. split; [exact Hpk|]. cbv zeta.
  pose proof (sign_candidate_eq message privKey sk pk Hm Hpk) as Hc.
  split; [exact Hc|].
  cbn [sign_inner]. rewrite Hgen, Hc. cbn [bind fst snd].
  rewrite sign_rejected_eq by (assumption || reflexivity). cbn [bind].
  now destruct ((GF.num (x pk) =? 0) || _).
Qed.

(** Whatever the inner loop returns is the candidate of one of the drawn
    nonces and has no zero component. *)
Lemma sign_inner_sound (message privKey : GF.t) :
  GF.prime message = secp256k1.N ->
  forall fuel rnd sigR sigS rest,
    sign_inner fuel message privKey rnd = Return (sigR, sigS) rest ->
    GF.num sigR <> 0 /\ GF.num sigS <> 0 /\
    exists sk pre,
      rnd = pre ++ GF.num sk :: rest /\
      0 < GF.num sk < secp256k1.N /\
      sign_candidate message privKey sk = Ok (sigR, sigS).
Proof.
  intros Hm. induction fuel as [|f IH]; intros rnd sigR sigS rest H.
  - discriminate.
  - destruct (genPriv rnd) as [sk rest0| |] eqn:Hgen;
      try (cbn [sign_inner] in H; rewrite Hgen in H; discriminate).
    destruct (sign_inner_step f message privKey sk rnd rest0 Hm Hgen)
      as (pk & Hpk & Hc & Hstep).
    rewrite Hstep in H. clear Hstep.
    match type of Hc with
    | _ = Ok (_, ?t) => remember t as s eqn:Es
    end.
    clear Es.
    apply genPriv_returns in Hgen.
    destruct Hgen as (skipped & key & -> & _ & Hkey & ->).
    destruct ((GF.num (x pk) =? 0) || (GF.num s =? 0)) eqn:Hrej.
    + destruct (IH _ _ _ _ H) as (HR & HS & sk' & pre & -> & Hk' & Hc').
      split; [exact HR|]. split; [exact HS|].
      exists sk', (skipped ++ key :: pre). split; [|split; assumption].
      now rewrite <- app_assoc.
    + injection H as <- <- <-.
      apply orb_false_iff in Hrej. destruct Hrej as [H1 H2].
      apply Z.eqb_neq in H1, H2.
      split; [exact H1|]. split; [exact H2|].
      exists (GF.make key secp256k1.P), skipped.
      split; [reflexivity|]. split; [exact Hkey | exact Hc].
Qed.

(** The bound on the iterations is never what stops the inner loop. *)
Lemma sign_inner_fuel (message privKey : GF.t) :
  forall f1 f2 rnd,
    (List.length rnd < f1)%nat -> (List.length rnd < f2)%nat ->
    sign_inner f1 message privKey rnd = sign_inner f2 message privKey rnd.
Proof.
  induction f1 as [|f1 IH]; intros f2 rnd H1 H2; [lia|].
  destruct f2 as [|f2]; [lia|]. cbn [sign_inner].
  destruct (genPriv rnd) as [sk rest| |] eqn:Hgen; try reflexivity.
  apply genPriv_shorter in Hgen.
  destruct (c <- sign_candidate message privKey sk ;;
            again <- sign_rejected (fst c) (snd c) ;; Ok (c, again))
    as [[c [|]]|e]; try reflexivity.
  apply IH; lia.
Qed.

(** What the outer loop returns has passed the inner loop. *)
Lemma sign_outer_sound (message privKey : GF.t) (pubKey : point) :
  GF.prime message = secp256k1.N ->
  forall fuel rnd sigR sigS rest,
    sign_outer fuel message privKey pubKey rnd = Return (sigR, sigS) rest ->
    GF.num sigR <> 0 /\ GF.num sigS <> 0 /\
    sign_check message pubKey sigR sigS = Ok true /\
    exists sk, 0 < GF.num sk < secp256k1.N /\
               sign_candidate message privKey sk = Ok (sigR, sigS).
Proof.
  intros Hm. induction fuel as [|f IH]; intros rnd sigR sigS rest H.
  - discriminate.
  - cbn [sign_outer] in H.
    destruct (sign_inner (S (List.length rnd)) message privKey rnd)
      as [[R0 S0] rest0| |] eqn:Hin; try discriminate.
    destruct (sign_check message pubKey R0 S0) as [[|]|e] eqn:Hchk;
      try discriminate.
    + injection H as <- <- <-.
      destruct (sign_inner_sound message privKey Hm _ _ _ _ _ Hin)
        as (HR & HS & sk & pre & _ & Hk & Hc).
      repeat split; try assumption. now exists sk.
    + exact (IH _ _ _ _ H).
Qed.

(** The [sign] branch as a whole. *)
Lemma sign_sound (z key : Z) (rnd : entropy) (sigR sigS : GF.t)
  (rest : entropy) :
  sign z key rnd = Return (sigR, sigS) rest ->
  GF.prime sigR = secp256k1.P /\ GF.prime sigS = secp256k1.N /\
  GF.num sigR <> 0 /\ GF.num sigS <> 0.
Proof.
  pose proof N_gt_2 as HN. pose proof P_gt_2 as HP.
  unfold sign. rewrite !(new_pos _) by lia. cbn [bind].
  destruct (priv2pub_total_G (GF.make (key mod secp256k1.P) secp256k1.P))
    as (pubKey & -> & _).
  cbn [bind]. intros H.
  destruct (sign_outer_sound
              (GF.make (z mod secp256k1.N) secp256k1.N)
              (GF.make (key mod secp256k1.P) secp256k1.P)
              pubKey eq_refl _ _ _ _ _ H)
    as (HR & HS & _ & sk & _ & Hc).
  destruct (priv2pub_total_G sk) as (pk & Hpk & [Hx _]).
  rewrite (sign_candidate_eq
             (GF.make (z mod secp256k1.N) secp256k1.N) _ _ pk eq_refl Hpk)
    in Hc.
  match type of Hc with
  | Ok (_, ?t) = _ => remember t as s eqn:Es
  end.
  injection Hc as <- <-.
  split; [exact Hx|]. split; [rewrite Es; reflexivity|]. split; assumption.
Qed.

Lemma sign_inner_shorter (message privKey : GF.t) :
  forall fuel rnd c rest,
    sign_inner fuel message privKey rnd = Return c rest ->
    (List.length rest < List.length rnd)%nat.
Proof.
  induction fuel as [|f IH]; intros rnd c rest H; [discriminate|].
  cbn [sign_inner] in H.
  destruct (genPriv rnd) as [sk rest0| |] eqn:Hgen; try discriminate.
  apply genPriv_shorter in Hgen.
  destruct (c0 <- sign_candidate message privKey sk ;;
            again <- sign_rejected (fst c0) (snd c0) ;; Ok (c0, again))
    as [[c0 [|]]|e]; try discriminate.
  - apply IH in H. lia.
  - injection H as _ <-. exact Hgen.
Qed.

(** Nor is it what stops the outer loop. *)
Lemma sign_outer_fuel (message privKey : GF.t) (pubKey : point) :
  forall f1 f2 rnd,
    (List.length rnd < f1)%nat -> (List.length rnd < f2)%nat ->
    sign_outer f1 message privKey pubKey rnd
    = sign_outer f2 message privKey pubKey rnd.
Proof.
  induction f1 as [|f1 IH]; intros f2 rnd H1 H2; [lia|].
  destruct f2 as [|f2]; [lia|]. cbn [sign_outer].
  destruct (sign_inner (S (List.length rnd)) message privKey rnd)
    as [[R0 S0] rest| |] eqn:Hin; try reflexivity.
  apply sign_inner_shorter in Hin.
  destruct (sign_check message pubKey R0 S0) as [[|]|e]; try reflexivity.
  apply IH; lia.
Qed.

Lemma priv2pub_one_G :
  priv2pub (GF.make 1 secp256k1.P) None = Ok secp256k1.G.
Proof.
  rewrite priv2pub_default.
  apply (priv2pub_one secp256k1.P); [reflexivity | exact G_over_P | reflexivity].
Qed.

(** A candidate with [s == 0]: the digest [N - 3*Gx mod N], the private
    key 3 and the nonce 1.  The loop throws it away and asks for the next
    nonce, which the source [[1]] does not have. *)
Example sign_inner_rejects_zero_s :
  let z := secp256k1.N - (3 * secp256k1.Gx) mod secp256k1.N in
  sign_candidate (GF.make z secp256k1.N) (GF.make 3 secp256k1.P)
    (GF.make 1 secp256k1.P)
  = Ok (x secp256k1.G, GF.make 0 secp256k1.N) /\
  sign_inner 2 (GF.make z secp256k1.N) (GF.make 3 secp256k1.P) [1] = Starved.
Proof.
  intros z.
  assert (Hc : sign_candidate (GF.make z secp256k1.N) (GF.make 3 secp256k1.P)
                 (GF.make 1 secp256k1.P)
               = Ok (x secp256k1.G, GF.make 0 secp256k1.N)).
  { rewrite (sign_candidate_eq (GF.make z secp256k1.N) _ _ secp256k1.G
               eq_refl priv2pub_one_G).
    cbn [GF.num]. rewrite Z.pow_1_l by (pose proof N_gt_2; lia).
    reflexivity. }
  split; [exact Hc|].
  cbn [sign_inner]. rewrite genPriv_cons.
  change ((1 <=? 0) || (1 >=? secp256k1.N)) with false. cbv iota.
  rewrite Hc. cbn [bind fst snd].
  rewrite sign_rejected_eq by reflexivity. cbn [bind GF.num].
  reflexivity.
Qed.

(** ** The recovery loop *)

Lemma rem_int_pos (m : Z) (a : GF.t) (n : Z) :
  0 < m -> GF.prime a = m -> n mod m <> 0 ->
  GF.rem_int a n =
  Ok (GF.make (((GF.num a mod m) mod Z.abs (n mod m)) mod m) m).
Proof.
  intros Hm Ha Hn. unfold GF.rem_int. rewrite Ha, !(new_pos m) by lia.
  cbn [bind]. now rewrite (rem_pos m) by (lia || assumption || reflexivity).
Qed.

Lemma exp_cube : 3 mod (secp256k1.P - 1) = 3.
Proof. reflexivity. Qed.

Lemma exp_sqrt :
  Z.quot (secp256k1.P + 1) 4 mod (secp256k1.P - 1) = (secp256k1.P + 1) / 4.
Proof. reflexivity. Qed.

Lemma two_mod_P : 2 mod secp256k1.P = 2.
Proof. reflexivity. Qed.

Lemma parity_test (v : Z) :
  (((((v mod secp256k1.P) mod secp256k1.P) mod Z.abs (2 mod secp256k1.P))
      mod secp256k1.P) mod secp256k1.P =? 0 mod secp256k1.P)
  = ((v mod secp256k1.P) mod 2 =? 0).
Proof.
  pose proof P_gt_2 as HP.
  rewrite two_mod_P. change (Z.abs 2) with 2.
  rewrite (Z.mod_mod v) by lia. rewrite Z.mod_0_l by lia.
  pose proof (Z.mod_pos_bound (v mod secp256k1.P) 2 ltac:(lia)).
  now rewrite !(Z.mod_small (_ mod 2) secp256k1.P) by lia.
Qed.

Lemma candidate_x_eq (r i : Z) :
  0 <= i ->
  (r + (secp256k1.N mod secp256k1.P * Z.quot i 2) mod secp256k1.P)
    mod secp256k1.P
  = candidate_x r i.
Proof.
  intros Hi. unfold candidate_x.
  rewrite Z.quot_div_nonneg by lia.
  now rewrite Zmult_mod_idemp_l, Zplus_mod_idemp_r.
Qed.

Lemma candidate_over (r i : Z) : point_over secp256k1.P (candidate r i).
Proof. split; reflexivity. Qed.

(** The body of the recovery loop, on the candidate point. *)
Lemma recover_eq (message sigR sigS : GF.t) (i : Z) :
  GF.prime message = secp256k1.N ->
  GF.prime sigR = secp256k1.P ->
  0 <= i ->
  recover message sigR sigS i =
  (sR <- priv2pub sigS (Some (candidate (GF.num sigR) i)) ;;
   zG <- priv2pub
           (GF.make ((- GF.num message) mod secp256k1.N) secp256k1.N) None ;;
   temp <- add sR zG ;;
   priv2pub
     (GF.make ((GF.num sigR ^ (secp256k1.N - 2)) mod secp256k1.N)
        secp256k1.N)
     (Some temp)).
Proof.
  intros Hm HR Hi. pose proof P_gt_2 as HP. pose proof N_gt_2 as HN.
  unfold recover, GF.getNum.
  gf_eval secp256k1.P.
  rewrite (rem_int_pos secp256k1.P)
    by (lia || reflexivity || (rewrite two_mod_P; lia)).
  cbn [bind]. rewrite (eqb_int_pos secp256k1.P) by (lia || reflexivity).
  cbn [bind GF.num].
  rewrite parity_test, candidate_x_eq by exact Hi.
  rewrite exp_cube, exp_sqrt, Zplus_mod_idemp_l.
  fold (candidate_alpha (candidate_x (GF.num sigR) i)).
  fold (candidate_beta (candidate_alpha (candidate_x (GF.num sigR) i))).
  set (beta := candidate_beta _).
  assert (Ey : (if (beta - i) mod secp256k1.P mod 2 =? 0
                then Ok (GF.make beta secp256k1.P)
                else Ok (GF.make (- beta mod secp256k1.P) secp256k1.P))
               = Ok (GF.make (candidate_y beta i) secp256k1.P)).
  { unfold candidate_y. now destruct (_ =? 0). }
  rewrite Ey. cbn [bind]. fold (candidate (GF.num sigR) i).
  gf_eval secp256k1.N.
  rewrite Z.mod_pow_l, exp_neg1, exp_m2 by exact HN.
  reflexivity.
Qed.

Lemma recover_total (message sigR sigS : GF.t) (i : Z) :
  GF.prime message = secp256k1.N ->
  GF.prime sigR = secp256k1.P ->
  0 <= i ->
  exists sR zG temp Q,
    priv2pub sigS (Some (candidate (GF.num sigR) i)) = Ok sR /\
    priv2pub (GF.make ((- GF.num message) mod secp256k1.N) secp256k1.N) None
      = Ok zG /\
    add sR zG = Ok temp /\
    priv2pub
      (GF.make ((GF.num sigR ^ (secp256k1.N - 2)) mod secp256k1.N)
         secp256k1.N)
      (Some temp) = Ok Q /\
    recover message sigR sigS i = Ok Q.
Proof.
  intros Hm HR Hi. pose proof P_gt_2 as HP.
  destruct (priv2pub_total sigS _ (candidate_over (GF.num sigR) i))
    as (sR & EsR & HsR).
  destruct (priv2pub_total_G
              (GF.make ((- GF.num message) mod secp256k1.N) secp256k1.N))
    as (zG & EzG & HzG).
  destruct (add_total secp256k1.P ltac:(lia) sR zG HsR HzG)
    as (temp & Et & Ht).
  destruct (priv2pub_total
              (GF.make ((GF.num sigR ^ (secp256k1.N - 2)) mod secp256k1.N)
                 secp256k1.N) temp Ht)
    as (Q & EQ & _).
  exists sR, zG, temp, Q. repeat (split; [assumption|]).
  rewrite recover_eq by assumption.
  rewrite EsR. cbn [bind]. rewrite EzG. cbn [bind]. rewrite Et. cbn [bind].
  exact EQ.
Qed.

Section Recovery.
Variable binary2Addr : string -> string.

Lemma matches_iff (pubKey : string) (Q : point) :
  matches binary2Addr pubKey Q = true <->
  binary2Addr (pubBuf Q) = pubKey \/
  binary2Addr (splitXY (pubBuf Q) Q) = pubKey.
Proof.
  unfold matches. rewrite orb_true_iff, !String.eqb_eq. reflexivity.
Qed.

Lemma recover_loop_spec (message sigR sigS : GF.t) (pubKey : string) :
  GF.prime message = secp256k1.N ->
  GF.prime sigR = secp256k1.P ->
  forall ids, Forall (fun i => 0 <= i) ids ->
    exists found,
      recover_loop binary2Addr ids message sigR sigS pubKey = Ok found /\
      (found = true <->
       exists i Q, In i ids /\ recover message sigR sigS i = Ok Q /\
                   matches binary2Addr pubKey Q = true).
Proof.
  intros Hm HR ids Hids. induction Hids as [|i ids Hi Hids IH].
  - exists false. split; [reflexivity|]. split; [discriminate|].
    intros (i & Q & [] & _).
  - destruct (recover_total message sigR sigS i Hm HR Hi)
      as (_ & _ & _ & Q & _ & _ & _ & _ & EQ).
    cbn [recover_loop]. rewrite EQ. cbn [bind].
    destruct (matches binary2Addr pubKey Q) eqn:EM.
    + exists true. split; [reflexivity|]. split; [|reflexivity].
      intros _. exists i, Q. split; [now left|]. now split.
    + destruct IH as (found & Ef & Hf). exists found.
      split; [exact Ef|]. rewrite Hf. split.
      * intros (j & Q' & Hin & Hr & HM). exists j, Q'.
        split; [now right|]. now split.
      * intros (j & Q' & [<-|Hin] & Hr & HM).
        -- rewrite EQ in Hr. assert (Q' = Q) as -> by congruence.
           congruence.
        -- exists j, Q'. now repeat split.
Qed.

End Recovery.

(** ** The loops of [main] *)


Lemma neg_mod (z n : Z) : (- (z mod n)) mod n = (- z) mod n.
Proof.
  rewrite <- (Z.sub_0_l (z mod n)), <- (Z.sub_0_l z).
  apply Zminus_mod_idemp_r.
Qed.

(** C2: for each recovery id [i] in 0..3 the loop builds the candidate
    point [x = r + N*(i/2)], [alpha = x^3 + 7],
    [beta = alpha^((P+1)/4)], [y = beta] if [(beta - i) mod 2 == 0] and
    [-beta] otherwise (field arithmetic modulo [P]), and recovers
    [Q = priv2pub(r^(N-2) mod N, add(priv2pub(s, (x,y)),
    priv2pub(-digest, G)))], where [r^(N-2)] is [pow(-1)]; every step
    returns, and the verification passes exactly when the compressed or
    the uncompressed address of one of the four recovered points is the
    claimed one. *)
Theorem verify_by_recovery (binary2Addr : string -> string)
  (z r s : Z) (pubKey : string) :
  let message := GF.make (z mod secp256k1.N) secp256k1.N in
  let sigR := GF.make (r mod secp256k1.P) secp256k1.P in
  let sigS := GF.make (s mod secp256k1.P) secp256k1.P in
  (forall i, In i [0; 1; 2; 3] ->
     exists sR zG temp Q,
       priv2pub sigS (Some (candidate (r mod secp256k1.P) i)) = Ok sR /\
       priv2pub (GF.make ((- z) mod secp256k1.N) secp256k1.N) None = Ok zG /\
       add sR zG = Ok temp /\
       priv2pub
         (GF.make (((r mod secp256k1.P) ^ (secp256k1.N - 2)) mod secp256k1.N)
            secp256k1.N)
         (Some temp) = Ok Q /\
       recover message sigR sigS i = Ok Q) /\
  exists found,
    verify binary2Addr z r s pubKey = Ok found /\
    (found = true <->
     exists i Q,
       In i [0; 1; 2; 3] /\
       recover message sigR sigS i = Ok Q /\
       (binary2Addr (pubBuf Q) = pubKey \/
        binary2Addr (splitXY (pubBuf Q) Q) = pubKey)).
Proof.
  intros message sigR sigS.
  pose proof P_gt_2 as HP. pose proof N_gt_2 as HN.
  split.
  - intros i Hi.
    assert (0 <= i) as Hi0 by (cbn [In] in Hi; lia).
    destruct (recover_total message sigR sigS i eq_refl eq_refl Hi0)
      as (sR & zG & temp & Q & H1 & H2 & H3 & H4 & H5).
    exists sR, zG, temp, Q.
    subst message sigR. cbn [GF.num] in H1, H2, H4.
    rewrite neg_mod in H2. now repeat split.
  - assert (Hids : Forall (fun i => 0 <= i) [0; 1; 2; 3])
      by (repeat constructor; lia).
    destruct (recover_loop_spec binary2Addr message sigR sigS pubKey
                eq_refl eq_refl _ Hids) as (found & Ef & Hf).
    exists found. split.
    + unfold verify. rewrite !(new_pos _) by lia. cbn [bind]. exact Ef.
    + rewrite Hf. split.
      * intros (i & Q & Hin & Hr & HM). exists i, Q.
        apply matches_iff in HM. now repeat split.
      * intros (i & Q & Hin & Hr & HM). exists i, Q.
        apply matches_iff in HM. now repeat split.
Qed.

(** ** Concrete runs *)

Example new_negative : GF.new (-3) 7 = Ok (GF.make 4 7).
Proof. reflexivity. Qed.

Example new_zero_modulus : GF.new 5 0 = Err DivideByZero.
Proof. reflexivity. Qed.

Example pow_minus_one : GF.pow_int (GF.make 3 7) (-1) = Ok (GF.make 5 7).
Proof. reflexivity. Qed.

Example div_small : GF.div (GF.make 3 7) (GF.make 5 7) = Ok (GF.make 2 7).
Proof. reflexivity. Qed.

Example genPriv_skips :
  genPriv [0; -4; secp256k1.N; 7; 9] = Return (GF.make 7 secp256k1.P) [9].
Proof. reflexivity. Qed.

Example Z064x_small :
  Z064x 255
  = "00000000000000000000000000000000000000000000000000000000000000ff"%string.
Proof. reflexivity. Qed.

Example splitXY_G :
  splitXY (pubBuf secp256k1.G) secp256k1.G
  = ("02" ++ Z064x secp256k1.Gx)%string.
Proof. vm_compute. reflexivity. Qed.

(** * Further properties of class GF *)

Lemma mul_div_cancel (m : Z) (a b : GF.t) :
  Z.prime m -> GF.prime a = m -> GF.prime b = m -> GF.num b mod m <> 0 ->
  (p <- GF.mul a b ;; GF.div p b) = GF.new (GF.num a) m.
Proof.
  intros Hp Ha Hb Hnz. pose proof (Z.prime_ge_2 _ Hp) as Hm.
  rewrite (mul_pos m) by (lia || assumption). cbn [bind].
  rewrite (div_pos m), (new_pos m) by (lia || assumption || reflexivity).
  cbn [GF.num]. do 2 f_equal.
  rewrite Zmult_mod_idemp_l, <- Z.mul_assoc.
  destruct (Z.eq_dec m 2) as [->|Hne].
  - change ((2 - 2) mod (2 - 1)) with 0. rewrite Z.pow_0_r, Z.mul_1_r.
    assert (GF.num b mod 2 = 1) as E
        by (pose proof (Z.mod_pos_bound (GF.num b) 2); lia).
    now rewrite <- Zmult_mod_idemp_r, E, Z.mul_1_r.
  - rewrite exp_m2 by lia.
    rewrite <- (Z.pow_1_r (GF.num b)) at 1.
    rewrite <- Z.pow_add_r by lia.
    replace (1 + (m - 2)) with (m - 1) by lia.
    rewrite <- Zmult_mod_idemp_r, Z.fermat_nz by assumption.
    now rewrite Z.mul_1_r.
Qed.

(** X1: Over a prime modulus [operator/] and [operator*] undo each other:
    for [b] not zero, [(a / b) * b] and [(a * b) / b] are both [a], as
    the constructor reduces it. *)
Theorem division_inverts_multiplication (m : Z) (a b : GF.t) :
  Z.prime m -> GF.prime a = m -> GF.prime b = m -> GF.num b mod m <> 0 ->
  (q <- GF.div a b ;; GF.mul q b) = GF.new (GF.num a) m /\
  (p <- GF.mul a b ;; GF.div p b) = GF.new (GF.num a) m.
Proof.
  intros Hp Ha Hb Hnz. split.
  - now apply div_mul_cancel.
  - now apply mul_div_cancel.
Qed.

Lemma division_inverts_multiplication_witness :
  Z.prime 7 /\ GF.num (GF.make 5 7) mod 7 <> 0 /\
  (q <- GF.div (GF.make 3 7) (GF.make 5 7) ;; GF.mul q (GF.make 5 7))
  = GF.new 3 7.
Proof.
  split; [exact prime_7|]. split; [cbn; lia|].
  apply (division_inverts_multiplication 7 (GF.make 3 7) (GF.make 5 7)
           prime_7 eq_refl eq_refl).
  cbn. lia.
Defined.

(** X2: [operator!=] is the negation of [operator==], which holds exactly for
    two elements with the same value and the same modulus; the [int]
    forms compare modulo the modulus, so that [GF(3,7) == 10]. *)
Theorem equality_operators (a b : GF.t) :
  GF.neqb a b = negb (GF.eqb a b) /\
  (GF.eqb a b = true <-> a = b) /\
  (forall m n, 0 < m -> GF.prime a = m ->
     GF.eqb_int a n = Ok (GF.num a mod m =? n mod m) /\
     GF.neqb_int a n = Ok (negb (GF.num a mod m =? n mod m))).
Proof.
  split; [|split].
  - unfold GF.neqb, GF.eqb. now rewrite negb_andb.
  - unfold GF.eqb. rewrite andb_true_iff, !Z.eqb_eq.
    destruct a, b; cbn [GF.num GF.prime]. split.
    + now intros [-> ->].
    + intros H. now injection H.
  - intros m n Hm Ha. split; [now apply eqb_int_pos|].
    unfold GF.neqb_int. rewrite Ha, !(new_pos m) by lia. cbn [bind].
    unfold GF.neqb. cbn [GF.num GF.prime].
    now rewrite Z.eqb_refl, orb_false_r.
Qed.

Lemma equality_operators_witness :
  GF.eqb_int (GF.make 3 7) 10 = Ok true.
Proof.
  exact (proj1 (proj2 (proj2 (equality_operators (GF.make 3 7) (GF.make 3 7)))
                 7 10 ltac:(lia) eq_refl)).
Defined.

(** X3: Addition and multiplication do not depend on the order of their
    operands, whatever the moduli: the same element, or the same
    failure. *)
Theorem add_mul_commute (a b : GF.t) :
  GF.add a b = GF.add b a /\ GF.mul a b = GF.mul b a.
Proof.
  unfold GF.add, GF.mul.
  destruct (Z.eqb_spec (GF.prime a) (GF.prime b)) as [E|E].
  - rewrite E, Z.eqb_refl. cbn [negb].
    now rewrite (Z.add_comm (GF.num a)), (Z.mul_comm (GF.num a)).
  - assert ((GF.prime b =? GF.prime a) = false) as ->
        by (apply Z.eqb_neq; congruence).
    now cbn [negb].
Qed.

Section FieldLaws.
Variable m : Z.
Hypothesis Hm : 0 < m.
Variables a b c : GF.t.
Hypothesis Ha : GF.prime a = m.
Hypothesis Hb : GF.prime b = m.
Hypothesis Hc : GF.prime c = m.

Lemma add_assoc_m :
  (s <- GF.add a b ;; GF.add s c) = (s <- GF.add b c ;; GF.add a s).
Proof.
  gf_eval m. do 2 f_equal.
  now rewrite Zplus_mod_idemp_l, Zplus_mod_idemp_r, Z.add_assoc.
Qed.

Lemma mul_assoc_m :
  (s <- GF.mul a b ;; GF.mul s c) = (s <- GF.mul b c ;; GF.mul a s).
Proof.
  gf_eval m. do 2 f_equal.
  now rewrite Zmult_mod_idemp_l, Zmult_mod_idemp_r, Z.mul_assoc.
Qed.

Lemma mul_add_distr_m :
  (s <- GF.add b c ;; GF.mul a s)
  = (p <- GF.mul a b ;; q <- GF.mul a c ;; GF.add p q).
Proof.
  gf_eval m. do 2 f_equal.
  now rewrite Zmult_mod_idemp_r, <- Zplus_mod, Z.mul_add_distr_l.
Qed.

Lemma sub_add_m :
  (d <- GF.sub a b ;; GF.add d b) = GF.new (GF.num a) m.
Proof.
  gf_eval m. do 2 f_equal.
  rewrite Zplus_mod_idemp_l. f_equal. lia.
Qed.

Lemma add_sub_m :
  (s <- GF.add a b ;; GF.sub s b) = GF.new (GF.num a) m.
Proof.
  gf_eval m. do 2 f_equal.
  rewrite Zminus_mod_idemp_l. f_equal. lia.
Qed.

Lemma add_neg_m :
  (n <- GF.neg a ;; GF.add a n) = Ok (GF.make 0 m).
Proof.
  gf_eval m. do 2 f_equal.
  rewrite Zplus_mod_idemp_r, Z.add_opp_diag_r. now apply Z.mod_0_l, not_eq_sym, Z.lt_neq.
Qed.

Lemma sub_is_add_neg_m :
  GF.sub a b = (n <- GF.neg b ;; GF.add a n).
Proof.
  gf_eval m. do 2 f_equal.
  now rewrite Zplus_mod_idemp_r.
Qed.

End FieldLaws.

(** X4: Over a common positive modulus addition and multiplication are
    associative and multiplication distributes over addition. *)
Theorem ring_laws (m : Z) (a b c : GF.t) :
  0 < m -> GF.prime a = m -> GF.prime b = m -> GF.prime c = m ->
  (s <- GF.add a b ;; GF.add s c) = (s <- GF.add b c ;; GF.add a s) /\
  (s <- GF.mul a b ;; GF.mul s c) = (s <- GF.mul b c ;; GF.mul a s) /\
  (s <- GF.add b c ;; GF.mul a s)
  = (p <- GF.mul a b ;; q <- GF.mul a c ;; GF.add p q).
Proof.
  intros Hm Ha Hb Hc. split; [|split].
  - now apply (add_assoc_m m).
  - now apply (mul_assoc_m m).
  - now apply (mul_add_distr_m m).
Qed.

Lemma ring_laws_witness :
  0 < 7 /\
  (s <- GF.add (GF.make 6 7) (GF.make 5 7) ;; GF.mul (GF.make 3 7) s)
  = Ok (GF.make 5 7).
Proof.
  split; [lia|].
  rewrite (proj2 (proj2 (ring_laws 7 (GF.make 3 7) (GF.make 6 7) (GF.make 5 7)
                           ltac:(lia) eq_refl eq_refl eq_refl))).
  reflexivity.
Defined.

(** X5: Over a common positive modulus subtraction undoes addition and
    addition undoes subtraction, up to the constructor's reduction of the
    left operand; [a - b] is [a + (-b)] and [a + (-a)] is the zero
    element. *)
Theorem additive_inverse_laws (m : Z) (a b : GF.t) :
  0 < m -> GF.prime a = m -> GF.prime b = m ->
  (d <- GF.sub a b ;; GF.add d b) = GF.new (GF.num a) m /\
  (s <- GF.add a b ;; GF.sub s b) = GF.new (GF.num a) m /\
  GF.sub a b = (n <- GF.neg b ;; GF.add a n) /\
  (n <- GF.neg a ;; GF.add a n) = Ok (GF.make 0 m).
Proof.
  intros Hm Ha Hb. repeat split.
  - now apply (sub_add_m m).
  - now apply (add_sub_m m).
  - now apply (sub_is_add_neg_m m).
  - now apply (add_neg_m m).
Qed.

Lemma additive_inverse_laws_witness :
  0 < 7 /\
  (d <- GF.sub (GF.make 2 7) (GF.make 5 7) ;; GF.add d (GF.make 5 7))
  = Ok (GF.make 2 7).
Proof.
  split; [lia|].
  exact (proj1 (additive_inverse_laws 7 (GF.make 2 7) (GF.make 5 7)
                  ltac:(lia) eq_refl eq_refl)).
Defined.

(** X6: [operator%(int)] over a positive modulus [m]: the [int] is first
    reduced modulo [m], so that a multiple of [m] makes GMP divide by
    zero; any other [int] gives the remainder of the reduced value by the
    reduced [int]. *)
Theorem rem_int_reduces_divisor (m : Z) (a : GF.t) (n : Z) :
  0 < m -> GF.prime a = m ->
  GF.rem_int a n
  = if n mod m =? 0 then Err DivideByZero
    else Ok (GF.make ((GF.num a mod m) mod (n mod m)) m).
Proof.
  intros Hm Ha. unfold GF.rem_int. rewrite Ha, !(new_pos m) by exact Hm.
  cbn [bind].
  pose proof (Z.mod_pos_bound n m Hm) as Hn.
  destruct (Z.eqb_spec (n mod m) 0) as [E|E].
  - now rewrite (rem_zero m).
  - rewrite (rem_pos m) by (assumption || reflexivity).
    cbn [GF.num]. rewrite Z.abs_eq by lia. do 2 f_equal.
    pose proof (Z.mod_pos_bound (GF.num a mod m) (n mod m) ltac:(lia)).
    apply Z.mod_small. lia.
Qed.

Lemma rem_int_reduces_divisor_witness :
  GF.rem_int (GF.make 3 7) 14 = Err DivideByZero /\
  GF.rem_int (GF.make 5 7) 2 = Ok (GF.make 1 7).
Proof.
  split.
  - apply (rem_int_reduces_divisor 7 (GF.make 3 7) 14); [lia | reflexivity].
  - apply (rem_int_reduces_divisor 7 (GF.make 5 7) 2); [lia | reflexivity].
Defined.

(** ** Exponent arithmetic over a prime modulus *)

(** Fermat: exponents count modulo [m - 1]. *)
Lemma pow_mod_exp (m a e : Z) :
  Z.prime m -> a mod m <> 0 -> 0 <= e ->
  (a ^ e) mod m = (a ^ (e mod (m - 1))) mod m.
Proof.
  intros Hp Ha He. pose proof (Z.prime_ge_2 _ Hp) as Hm.
  pose proof (Z.mod_pos_bound e (m - 1) ltac:(lia)) as Hr.
  assert (Hq : 0 <= e / (m - 1)) by (apply Z.div_pos; lia).
  rewrite (Z.div_mod e (m - 1)) at 1 by lia.
  rewrite Z.pow_add_r by nia.
  rewrite Z.pow_mul_r by lia.
  rewrite <- Zmult_mod_idemp_l, <- Z.mod_pow_l.
  rewrite Z.fermat_nz by assumption.
  rewrite Z.pow_1_l by lia.
  rewrite Zmult_mod_idemp_l. f_equal. lia.
Qed.

(** X7: Over a prime modulus and for [a] not zero, [pow] behaves as a power
    with integer exponents: [a.pow(1)] is [a], adding exponents multiplies
    the powers, a power of a power multiplies the exponents, and
    [a.pow(e) * a.pow(-e)] is the one element. *)
Theorem pow_laws (m : Z) (a : GF.t) (e k : Z) :
  Z.prime m -> GF.prime a = m -> 0 < GF.num a < m ->
  GF.pow a 1 = Ok a /\
  GF.pow a (e + k) = (p <- GF.pow a e ;; q <- GF.pow a k ;; GF.mul p q) /\
  (p <- GF.pow a e ;; GF.pow p k) = GF.pow a (e * k) /\
  (p <- GF.pow a e ;; q <- GF.pow a (- e) ;; GF.mul p q) = Ok (GF.make 1 m).
Proof.
  intros Hp Ha Hnz. pose proof (Z.prime_ge_2 _ Hp) as Hm.
  assert (Hz : GF.num a mod m <> 0) by (rewrite Z.mod_small; lia).
  pose proof (Z.mod_pos_bound e (m - 1) ltac:(lia)) as He.
  pose proof (Z.mod_pos_bound k (m - 1) ltac:(lia)) as Hk.
  assert (Hsum : forall u v,
             (p <- GF.pow a u ;; q <- GF.pow a v ;; GF.mul p q)
             = Ok (GF.make ((GF.num a ^ ((u + v) mod (m - 1))) mod m) m)).
  { intros u v.
    pose proof (Z.mod_pos_bound u (m - 1) ltac:(lia)).
    pose proof (Z.mod_pos_bound v (m - 1) ltac:(lia)).
    gf_eval m. do 2 f_equal.
    rewrite <- Zmult_mod, <- Z.pow_add_r by lia.
    rewrite pow_mod_exp by (assumption || lia).
    now rewrite <- Zplus_mod. }
  split; [|split; [|split]].
  - rewrite (pow_pos m) by (lia || assumption).
    destruct a as [n p]. cbn [GF.num GF.prime] in *. subst p. do 2 f_equal.
    destruct (Z.eq_dec m 2) as [->|Hne].
    + assert (n = 1) as -> by lia. reflexivity.
    + rewrite (Z.mod_small 1) by lia. rewrite Z.pow_1_r. apply Z.mod_small. lia.
  - rewrite Hsum. now apply (pow_pos m); (lia || assumption).
  - gf_eval m. do 2 f_equal.
    rewrite Z.mod_pow_l, <- Z.pow_mul_r by lia.
    rewrite pow_mod_exp by (assumption || nia).
    now rewrite <- Zmult_mod.
  - rewrite Hsum, Z.add_opp_diag_r.
    rewrite Z.mod_0_l, Z.pow_0_r by lia. now rewrite Z.mod_1_l by lia.
Qed.

Lemma pow_laws_witness :
  Z.prime 7 /\ 0 < GF.num (GF.make 3 7) < 7 /\
  (p <- GF.pow (GF.make 3 7) 4 ;; GF.pow p 5) = GF.pow (GF.make 3 7) 20.
Proof.
  split; [exact prime_7|]. split; [cbn; lia|].
  apply (pow_laws 7 (GF.make 3 7) 4 5 prime_7 eq_refl). cbn. lia.
Defined.

(** * Further properties of point addition *)

From Stdlib Require Import Zmod.ZmodDef Zmod.ZmodBase.

Declare Scope Zm_scope.
Delimit Scope Zm_scope with Zm.
Notation "a + b" := (ZmodDef.Zmod.add a b) : Zm_scope.
Notation "a - b" := (ZmodDef.Zmod.sub a b) : Zm_scope.
Notation "a * b" := (ZmodDef.Zmod.mul a b) : Zm_scope.
Notation "1" := ZmodDef.Zmod.one : Zm_scope.
Notation "0" := ZmodDef.Zmod.zero : Zm_scope.
Notation "- a" := (ZmodDef.Zmod.opp a) : Zm_scope.

Ltac push_of_Z :=
  repeat first
    [ rewrite ZmodBase.Zmod.of_Z_mod
    | rewrite ZmodBase.Zmod.of_Z_add
    | rewrite ZmodBase.Zmod.of_Z_sub
    | rewrite ZmodBase.Zmod.of_Z_mul ].

Section CurveAlgebra.
Variable m : Z.
Add Ring Zmod_m_ring : (ZmodBase.Zmod.ring_theory m).

(** The chord construction stays on [y^2 = x^3 + B] in any commutative
    ring in which the difference of the abscissas has an inverse [I]. *)
Lemma chord_stays (X1 Y1 X2 Y2 I B : Zmod m) :
  (Y1 * Y1 = X1 * X1 * X1 + B)%Zm ->
  (Y2 * Y2 = X2 * X2 * X2 + B)%Zm ->
  ((X2 - X1) * I = 1)%Zm ->
  let L := ((Y2 - Y1) * I)%Zm in
  let X3 := (L * L - X1 - X2)%Zm in
  let Y3 := (L * (X1 - X3) - Y1)%Zm in
  (Y3 * Y3 = X3 * X3 * X3 + B)%Zm.
Proof.
  intros H1 H2 H3 L X3 Y3.
  set (A := (- ((1 + 1) * L * L * X1)
             + (1 + 1) * L * Y1
             + X1 * X2 + X1 * X3 + X2 * X3)%Zm).
  assert (E3 : (L * (X2 - X1) = Y2 - Y1)%Zm).
  { subst L.
    transitivity ((Y2 - Y1) * ((X2 - X1) * I))%Zm; [ring|].
    rewrite H3. ring. }
  assert (E2 : (A * (X2 - X1) = 0)%Zm).
  { transitivity (((L * (X2 - X1) + Y1) * (L * (X2 - X1) + Y1)
                   - (X2 * X2 * X2 + B))
                  - (Y1 * Y1 - (X1 * X1 * X1 + B)))%Zm.
    - subst A X3. ring.
    - rewrite E3, H1.
      transitivity (Y2 * Y2 - (X2 * X2 * X2 + B))%Zm; [ring|].
      rewrite H2. ring. }
  assert (EA : A = 0%Zm).
  { transitivity (A * (X2 - X1) * I)%Zm.
    - transitivity (A * ((X2 - X1) * I))%Zm; [rewrite H3|]; ring.
    - rewrite E2. ring. }
  assert (E1 : (Y3 * Y3 - (X3 * X3 * X3 + B)
                = (Y1 * Y1 - (X1 * X1 * X1 + B)) + A * (X3 - X1))%Zm).
  { subst Y3 A X3. ring. }
  rewrite EA, H1 in E1.
  transitivity ((Y3 * Y3 - (X3 * X3 * X3 + B)) + (X3 * X3 * X3 + B))%Zm;
    [ring|].
  rewrite E1. ring.
Qed.

(** The tangent construction, with [J] the inverse of [2 * Y1]. *)
Lemma tangent_stays (X1 Y1 J B : Zmod m) :
  (Y1 * Y1 = X1 * X1 * X1 + B)%Zm ->
  (((1 + 1) * Y1) * J = 1)%Zm ->
  let L := (((1 + 1 + 1) * (X1 * X1)) * J)%Zm in
  let X3 := (L * L - X1 - X1)%Zm in
  let Y3 := (L * (X1 - X3) - Y1)%Zm in
  (Y3 * Y3 = X3 * X3 * X3 + B)%Zm.
Proof.
  intros H1 H3 L X3 Y3.
  set (A := ((1 + 1) * L * Y1
             - (1 + 1 + 1) * (X1 * X1))%Zm).
  assert (EA : A = 0%Zm).
  { subst A L.
    transitivity ((1 + 1 + 1) * (X1 * X1)
                  * (((1 + 1) * Y1) * J)
                  - (1 + 1 + 1) * (X1 * X1))%Zm; [ring|].
    rewrite H3. ring. }
  assert (E1 : (Y3 * Y3 - (X3 * X3 * X3 + B)
                = (Y1 * Y1 - (X1 * X1 * X1 + B)) + A * (X3 - X1))%Zm).
  { subst Y3 A X3. ring. }
  rewrite EA, H1 in E1.
  transitivity ((Y3 * Y3 - (X3 * X3 * X3 + B)) + (X3 * X3 * X3 + B))%Zm;
    [ring|].
  rewrite E1. ring.
Qed.



Lemma on_curve_mod_of_Z (xv yv : Z) :
  (yv ^ 2) mod m = (xv ^ 3 + 7) mod m <->
  (ZmodDef.Zmod.of_Z m yv * ZmodDef.Zmod.of_Z m yv
   = ZmodDef.Zmod.of_Z m xv * ZmodDef.Zmod.of_Z m xv * ZmodDef.Zmod.of_Z m xv
     + ZmodDef.Zmod.of_Z m 7)%Zm.
Proof.
  rewrite <- ZmodBase.Zmod.of_Z_inj.
  replace (yv ^ 2) with (yv * yv) by ring.
  replace (xv ^ 3) with (xv * xv * xv) by ring.
  push_of_Z. reflexivity.
Qed.

(** The [(m-2)]-th power is the inverse over a prime modulus. *)
Lemma of_Z_inverse (d : Z) :
  Z.prime m -> d mod m <> 0 ->
  (ZmodDef.Zmod.of_Z m d * ZmodDef.Zmod.of_Z m (d ^ ((m - 2) mod (m - 1)))
   = 1)%Zm.
Proof.
  intros Hp Hd. pose proof (Z.prime_ge_2 _ Hp) as Hm.
  rewrite <- ZmodBase.Zmod.of_Z_mul, <- ZmodBase.Zmod.of_Z_1.
  apply ZmodBase.Zmod.of_Z_inj.
  destruct (Z.eq_dec m 2) as [->|Hne].
  - change ((2 - 2) mod (2 - 1)) with 0. rewrite Z.pow_0_r, Z.mul_1_r.
    pose proof (Z.mod_pos_bound d 2 ltac:(lia)). rewrite (Z.mod_small 1) by lia.
    lia.
  - rewrite exp_m2 by lia.
    rewrite <- (Z.pow_1_r d) at 1. rewrite <- Z.pow_add_r by lia.
    replace (1 + (m - 2)) with (m - 1) by lia.
    rewrite Z.fermat_nz by assumption. now rewrite Z.mod_small by lia.
Qed.

Lemma of_Z_two : ZmodDef.Zmod.of_Z m 2 = (1 + 1)%Zm.
Proof.
  change 2 with (1 + 1). now rewrite ZmodBase.Zmod.of_Z_add, ZmodBase.Zmod.of_Z_1.
Qed.

Lemma of_Z_three : ZmodDef.Zmod.of_Z m 3 = (1 + 1 + 1)%Zm.
Proof.
  change 3 with (1 + 1 + 1).
  now rewrite !ZmodBase.Zmod.of_Z_add, ZmodBase.Zmod.of_Z_1.
Qed.

Lemma reduced_mod (v : Z) : 0 < m -> reduced m (GF.make (v mod m) m).
Proof.
  intros Hm. split; [reflexivity|]. cbn [GF.num]. apply Z.mod_pos_bound. lia.
Qed.

Lemma sum_reduced (lam xp yp xq : Z) :
  0 < m ->
  point_reduced m
    (mkpoint (GF.make (sum_x m lam xp xq) m)
       (GF.make (sum_y m lam xp yp (sum_x m lam xp xq)) m)).
Proof. intros Hm. split; now apply reduced_mod. Qed.

Lemma add_on_curve_m (p q : point) :
  Z.prime m -> 3 < m ->
  point_over m p -> point_over m q ->
  on_curve_mod m p -> on_curve_mod m q ->
  (if GF.eqb (x p) (x q) && GF.eqb (y p) (y q)
   then (GF.num (y p) * 2) mod m <> 0
   else (GF.num (x q) - GF.num (x p)) mod m <> 0) ->
  exists r, add p q = Ok r /\ point_reduced m r /\ on_curve_mod m r.
Proof.
  intros Hp Hm3 Hpo Hqo Hpc Hqc Hside.
  assert (Hm1 : 1 < m) by lia.
  assert (E2 : 2 mod (m - 1) = 2) by (apply Z.mod_small; lia).
  unfold on_curve_mod in Hpc, Hqc. rewrite on_curve_mod_of_Z in Hpc, Hqc.
  destruct (GF.eqb (x p) (x q) && GF.eqb (y p) (y q)) eqn:E.
  - rewrite (add_tangent m Hm1 p q Hpo Hqo E). cbv zeta.
    eexists. split; [reflexivity|]. split; [apply sum_reduced; lia|].
    unfold on_curve_mod. cbn [x y GF.num]. rewrite on_curve_mod_of_Z.
    apply andb_true_iff in E. destruct E as [Ex _].
    unfold GF.eqb in Ex. apply andb_true_iff in Ex. destruct Ex as [Ex _].
    apply Z.eqb_eq in Ex. rewrite <- Ex.
    pose proof (of_Z_inverse ((GF.num (y p) * 2) mod m) Hp) as HJ.
    rewrite Z.mod_mod in HJ by lia. specialize (HJ Hside).
    unfold sum_y, sum_x, tangent_slope, fdiv. rewrite E2, !Z.pow_2_r.
    push_of_Z. rewrite !of_Z_three.
    rewrite ZmodBase.Zmod.of_Z_mod, ZmodBase.Zmod.of_Z_mul, of_Z_two in HJ.
    set (J := ZmodDef.Zmod.of_Z m
                (((GF.num (y p) * 2) mod m) ^ ((m - 2) mod (m - 1)))) in *.
    set (X1 := ZmodDef.Zmod.of_Z m (GF.num (x p))) in *.
    set (Y1 := ZmodDef.Zmod.of_Z m (GF.num (y p))) in *.
    assert (HJ' : ((1 + 1) * Y1 * J = 1)%Zm).
    { transitivity ((Y1 * (1 + 1)) * J)%Zm; [ring | exact HJ]. }
    pose proof (tangent_stays X1 Y1 J _ Hpc HJ') as T. cbv zeta in T.
    match goal with
    | |- ?l = ?r =>
        match type of T with
        | ?a = ?b => replace l with a by ring; replace r with b by ring
        end
    end.
    exact T.
  - rewrite (add_chord m Hm1 p q Hpo Hqo E). cbv zeta.
    eexists. split; [reflexivity|]. split; [apply sum_reduced; lia|].
    unfold on_curve_mod. cbn [x y GF.num]. rewrite on_curve_mod_of_Z.
    pose proof (of_Z_inverse ((GF.num (x q) - GF.num (x p)) mod m) Hp) as HI.
    rewrite Z.mod_mod in HI by lia. specialize (HI Hside).
    unfold sum_y, sum_x, chord_slope, fdiv. rewrite E2, !Z.pow_2_r.
    push_of_Z.
    rewrite ZmodBase.Zmod.of_Z_mod, ZmodBase.Zmod.of_Z_sub in HI.
    set (I := ZmodDef.Zmod.of_Z m
                (((GF.num (x q) - GF.num (x p)) mod m) ^ ((m - 2) mod (m - 1))))
      in *.
    exact (chord_stays _ _ _ _ I _ Hpc Hqc HI).
Qed.

End CurveAlgebra.

(** X8: Over a prime modulus above 3, [add] keeps the curve
    [y^2 = x^3 + 7]: two points of the curve with different abscissas, or
    twice the same point with an ordinate that is not zero, give a point
    of the curve with reduced coordinates. *)
Theorem add_stays_on_curve (m : Z) (p q : point) :
  Z.prime m -> 3 < m ->
  point_over m p -> point_over m q ->
  on_curve_mod m p -> on_curve_mod m q ->
  (if GF.eqb (x p) (x q) && GF.eqb (y p) (y q)
   then (GF.num (y p) * 2) mod m <> 0
   else (GF.num (x q) - GF.num (x p)) mod m <> 0) ->
  exists r, add p q = Ok r /\ point_reduced m r /\ on_curve_mod m r.
Proof. exact (add_on_curve_m m p q). Qed.

Lemma prime_13 : Z.prime 13.
Proof.
  split; [lia|]. intros n Hn [k Hk].
  assert (n = 2 \/ n = 3 \/ n = 4 \/ n = 5 \/ n = 6 \/ n = 7 \/ n = 8 \/
          n = 9 \/ n = 10 \/ n = 11 \/ n = 12) as C by lia.
  repeat (destruct C as [->|C]; [lia|]). subst n. lia.
Qed.

Lemma add_stays_on_curve_witness :
  Z.prime 13 /\ 3 < 13 /\
  on_curve_mod 13 (mkpoint (GF.make 7 13) (GF.make 5 13)) /\
  on_curve_mod 13 (mkpoint (GF.make 8 13) (GF.make 5 13)) /\
  exists r,
    add (mkpoint (GF.make 7 13) (GF.make 5 13))
        (mkpoint (GF.make 8 13) (GF.make 5 13)) = Ok r /\
    point_reduced 13 r /\ on_curve_mod 13 r.
Proof.
  split; [exact prime_13|]. split; [lia|].
  split; [reflexivity|]. split; [reflexivity|].
  apply (add_stays_on_curve 13 (mkpoint (GF.make 7 13) (GF.make 5 13))
           (mkpoint (GF.make 8 13) (GF.make 5 13)) prime_13).
  - lia.
  - split; reflexivity.
  - split; reflexivity.
  - reflexivity.
  - reflexivity.
  - cbn. lia.
Defined.

Lemma add_reduced (m : Z) (p q : point) :
  1 < m -> point_over m p -> point_over m q ->
  exists r, add p q = Ok r /\ point_reduced m r.
Proof.
  intros Hm Hp Hq.
  destruct (GF.eqb (x p) (x q) && GF.eqb (y p) (y q)) eqn:E.
  - rewrite (add_tangent m Hm p q Hp Hq E). eexists. split; [reflexivity|].
    apply sum_reduced. lia.
  - rewrite (add_chord m Hm p q Hp Hq E). eexists. split; [reflexivity|].
    apply sum_reduced. lia.
Qed.

(** X9: Inside one field with a modulus above 1, [add] raises nothing and
    returns reduced coordinates, whatever the two points are. *)
Theorem add_closed (m : Z) (p q : point) :
  1 < m -> point_over m p -> point_over m q ->
  exists r, add p q = Ok r /\ point_reduced m r.
Proof. exact (add_reduced m p q). Qed.

Lemma add_closed_witness :
  1 < 13 /\
  exists r,
    add (mkpoint (GF.make 7 13) (GF.make 5 13))
        (mkpoint (GF.make 7 13) (GF.make 8 13)) = Ok r /\
    point_reduced 13 r.
Proof.
  split; [lia|].
  apply (add_closed 13); [lia | split; reflexivity | split; reflexivity].
Defined.

(** X10: Two points with the same abscissa and different ordinates, such as a
    point and its opposite: the chord slope divides by the zero element,
    which gives the slope 0, and [add] returns [(-2x, -y)] of its first
    operand instead of the identity pair [(0,0)]. *)
Theorem add_mirror_points (m : Z) (p q : point) :
  3 < m -> point_over m p -> point_over m q ->
  GF.eqb (x p) (x q) = true -> GF.eqb (y p) (y q) = false ->
  add p q = Ok (mkpoint (GF.make ((- 2 * GF.num (x p)) mod m) m)
                  (GF.make ((- GF.num (y p)) mod m) m)).
Proof.
  intros Hm Hp Hq Ex Ey.
  rewrite (add_chord m ltac:(lia) p q Hp Hq) by (now rewrite Ex, Ey).
  cbv zeta.
  unfold GF.eqb in Ex. apply andb_true_iff in Ex. destruct Ex as [Ex _].
  apply Z.eqb_eq in Ex.
  assert (L : chord_slope m (GF.num (x p)) (GF.num (y p))
                (GF.num (x q)) (GF.num (y q)) = 0).
  { unfold chord_slope, fdiv. rewrite <- Ex, Z.sub_diag, Z.mod_0_l by lia.
    rewrite exp_m2 by lia. rewrite Z.pow_0_l by lia.
    now rewrite Z.mul_0_r, Z.mod_0_l by lia. }
  rewrite L. unfold sum_x, sum_y.
  rewrite (Z.mod_small 2 (m - 1)) by lia.
  rewrite Z.pow_0_l, Z.mod_0_l, Z.mul_0_l, Z.mod_0_l by lia.
  rewrite <- Ex, Zminus_mod_idemp_l. do 4 f_equal. lia.
Qed.

Lemma add_mirror_points_witness :
  3 < 13 /\
  add (mkpoint (GF.make 7 13) (GF.make 5 13))
      (mkpoint (GF.make 7 13) (GF.make 8 13))
  = Ok (mkpoint (GF.make 12 13) (GF.make 8 13)).
Proof.
  split; [lia|].
  apply (add_mirror_points 13 (mkpoint (GF.make 7 13) (GF.make 5 13))
           (mkpoint (GF.make 7 13) (GF.make 8 13)));
    [lia | split; reflexivity | split; reflexivity | reflexivity | reflexivity].
Defined.

Section AddCommutes.
Variable m : Z.
Add Ring Zmod_m_ring' : (ZmodBase.Zmod.ring_theory m).

(** The two chord slopes, taken in either order, are the same element. *)
Lemma chord_slope_sym (X1 Y1 X2 Y2 I I' : Zmod m) :
  ((X2 - X1) * I = 1)%Zm -> ((X1 - X2) * I' = 1)%Zm ->
  ((Y1 - Y2) * I' = (Y2 - Y1) * I)%Zm.
Proof.
  intros HI HI'.
  assert (E : I' = (- I)%Zm).
  { transitivity (I' * ((X2 - X1) * I))%Zm; [rewrite HI; ring|].
    transitivity (- (((X1 - X2) * I') * I))%Zm; [ring|].
    rewrite HI'. ring. }
  rewrite E. ring.
Qed.

Lemma add_comm_m (p q : point) :
  Z.prime m -> 3 < m ->
  point_over m p -> point_over m q ->
  (GF.num (x q) - GF.num (x p)) mod m <> 0 ->
  add p q = add q p.
Proof.
  intros Hp Hm3 Hpo Hqo Hd.
  assert (Hm1 : 1 < m) by lia.
  assert (E2 : 2 mod (m - 1) = 2) by (apply Z.mod_small; lia).
  assert (Hd' : (GF.num (x p) - GF.num (x q)) mod m <> 0).
  { intros H. apply Hd.
    replace (GF.num (x q) - GF.num (x p))
      with (- (GF.num (x p) - GF.num (x q))) by lia.
    apply Z.mod_divide in H; [|lia]. apply Z.mod_divide; [lia|].
    now apply Z.divide_opp_r. }
  assert (Npq : GF.eqb (x p) (x q) && GF.eqb (y p) (y q) = false).
  { apply andb_false_iff. left. unfold GF.eqb. apply andb_false_iff. left.
    apply Z.eqb_neq. intros E. apply Hd.
    rewrite E, Z.sub_diag. apply Z.mod_0_l. lia. }
  assert (Nqp : GF.eqb (x q) (x p) && GF.eqb (y q) (y p) = false).
  { apply andb_false_iff. left. unfold GF.eqb. apply andb_false_iff. left.
    apply Z.eqb_neq. intros E. apply Hd.
    rewrite E, Z.sub_diag. apply Z.mod_0_l. lia. }
  rewrite (add_chord m Hm1 p q Hpo Hqo Npq), (add_chord m Hm1 q p Hqo Hpo Nqp).
  cbv zeta.
  pose proof (of_Z_inverse m ((GF.num (x q) - GF.num (x p)) mod m) Hp) as HI.
  rewrite Z.mod_mod in HI by lia. specialize (HI Hd).
  pose proof (of_Z_inverse m ((GF.num (x p) - GF.num (x q)) mod m) Hp) as HI'.
  rewrite Z.mod_mod in HI' by lia. specialize (HI' Hd').
  rewrite ZmodBase.Zmod.of_Z_mod, ZmodBase.Zmod.of_Z_sub in HI, HI'.
  assert (EL : ZmodDef.Zmod.of_Z m
                 (chord_slope m (GF.num (x q)) (GF.num (y q))
                    (GF.num (x p)) (GF.num (y p)))
               = ZmodDef.Zmod.of_Z m
                   (chord_slope m (GF.num (x p)) (GF.num (y p))
                      (GF.num (x q)) (GF.num (y q)))).
  { unfold chord_slope, fdiv. push_of_Z.
    exact (chord_slope_sym _ _ _ _ _ _ HI HI'). }
  set (lam := chord_slope m (GF.num (x p)) (GF.num (y p))
                (GF.num (x q)) (GF.num (y q))) in *.
  set (lam' := chord_slope m (GF.num (x q)) (GF.num (y q))
                 (GF.num (x p)) (GF.num (y p))) in *.
  assert (Hx : sum_x m lam (GF.num (x p)) (GF.num (x q))
               = sum_x m lam' (GF.num (x q)) (GF.num (x p))).
  { unfold sum_x. apply ZmodBase.Zmod.of_Z_inj.
    rewrite E2, !Z.pow_2_r. push_of_Z. rewrite EL. ring. }
  rewrite <- Hx.
  set (rx := sum_x m lam (GF.num (x p)) (GF.num (x q))).
  assert (Hy : sum_y m lam (GF.num (x p)) (GF.num (y p)) rx
               = sum_y m lam' (GF.num (x q)) (GF.num (y q)) rx).
  { unfold sum_y. apply ZmodBase.Zmod.of_Z_inj. push_of_Z. rewrite EL.
    subst lam. unfold chord_slope, fdiv. push_of_Z.
    set (I := ZmodDef.Zmod.of_Z m
                (((GF.num (x q) - GF.num (x p)) mod m)
                 ^ ((m - 2) mod (m - 1)))) in *.
    set (X1 := ZmodDef.Zmod.of_Z m (GF.num (x p))) in *.
    set (X2 := ZmodDef.Zmod.of_Z m (GF.num (x q))) in *.
    set (Y1 := ZmodDef.Zmod.of_Z m (GF.num (y p))) in *.
    set (Y2 := ZmodDef.Zmod.of_Z m (GF.num (y q))) in *.
    set (R := ZmodDef.Zmod.of_Z m rx).
    transitivity ((Y2 - Y1) * I * (X2 - R) - Y2
                  + (Y2 - Y1) * (1 - (X2 - X1) * I))%Zm; [ring|].
    rewrite HI. ring. }
  now rewrite Hy.
Qed.

End AddCommutes.

(** X11: Over a prime modulus above 3, [add] does not depend on the order of
    two points with different abscissas. *)
Theorem add_commutes (m : Z) (p q : point) :
  Z.prime m -> 3 < m ->
  point_over m p -> point_over m q ->
  (GF.num (x q) - GF.num (x p)) mod m <> 0 ->
  add p q = add q p.
Proof. exact (add_comm_m m p q). Qed.

Lemma add_commutes_witness :
  Z.prime 13 /\ 3 < 13 /\
  add (mkpoint (GF.make 7 13) (GF.make 5 13))
      (mkpoint (GF.make 8 13) (GF.make 5 13))
  = add (mkpoint (GF.make 8 13) (GF.make 5 13))
        (mkpoint (GF.make 7 13) (GF.make 5 13)).
Proof.
  split; [exact prime_13|]. split; [lia|].
  apply (add_commutes 13 (mkpoint (GF.make 7 13) (GF.make 5 13))
           (mkpoint (GF.make 8 13) (GF.make 5 13)) prime_13);
    [lia | split; reflexivity | split; reflexivity | cbn; lia].
Defined.

(** A zero scalar leaves the accumulator alone. *)
Lemma priv2pub_zero_loop :
  priv2pub (GF.make 0 secp256k1.P) None
  = Ok (mkpoint (GF.make 0 secp256k1.P) (GF.make 0 secp256k1.P)).
Proof.
  unfold priv2pub.
  apply (priv2pub_loop_idle secp256k1.P).
  - pose proof P_gt_2. lia.
  - exact G_over_P.
  - intros j _. apply Z.land_0_r.
Qed.

(** * Further properties of scalar multiplication *)

Lemma land_pow2 (a v : Z) :
  0 <= a -> Z.land (2 ^ a) v = if Z.testbit v a then 2 ^ a else 0.
Proof.
  intros Ha. apply Z.bits_inj'. intros n Hn.
  rewrite Z.land_spec, Z.pow2_bits_eqb by lia.
  destruct (Z.eqb_spec a n) as [->|Hne].
  - destruct (Z.testbit v n); cbn [andb].
    + rewrite Z.pow2_bits_eqb by lia. now rewrite Z.eqb_refl.
    + now rewrite Z.bits_0.
  - cbn [andb]. destruct (Z.testbit v a).
    + rewrite Z.pow2_bits_eqb by lia. symmetry. now apply Z.eqb_neq.
    + now rewrite Z.bits_0.
Qed.

Lemma land_pow2_zero (a v : Z) :
  0 <= a -> (Z.land (2 ^ a) v =? 0) = negb (Z.testbit v a).
Proof.
  intros Ha. rewrite land_pow2 by lia.
  destruct (Z.testbit v a); cbn [negb]; [|reflexivity].
  apply Z.eqb_neq. pose proof (Z.pow_pos_nonneg 2 a). lia.
Qed.

Lemma shiftl_pow2 (i : Z) : 0 <= i -> Z.shiftl (2 ^ i) 1 = 2 ^ (i + 1).
Proof.
  intros Hi. rewrite Z.shiftl_mul_pow2, Z.pow_add_r by lia. reflexivity.
Qed.

(** The loop reads the scalar only through the bits it tests. *)
Lemma priv2pub_loop_bits (n : nat) (sk sk' : GF.t) :
  forall pub G i,
    0 <= i ->
    (forall k, i <= k < i + Z.of_nat n ->
               Z.testbit (GF.num sk) k = Z.testbit (GF.num sk') k) ->
    priv2pub_loop n sk pub G (2 ^ i) = priv2pub_loop n sk' pub G (2 ^ i).
Proof.
  induction n as [|n IH]; intros pub G i Hi Hbits; [reflexivity|].
  cbn [priv2pub_loop]. unfold GMP.mpz_and, GF.getNum.
  rewrite !land_pow2_zero by lia. rewrite (Hbits i) by lia.
  rewrite shiftl_pow2 by lia.
  destruct (if negb (negb (Z.testbit (GF.num sk') i))
            then zx <- GF.eqb_int (x pub) 0 ;;
                 zy <- (if zx then GF.eqb_int (y pub) 0 else Ok false) ;;
                 if zx && zy then Ok (mkpoint (x G) (y G)) else add pub G
            else Ok pub) as [pub'|e]; [|reflexivity].
  cbn [bind]. destruct (add G G) as [G'|e]; [|reflexivity]. cbn [bind].
  apply IH; [lia|]. intros k Hk. apply Hbits. lia.
Qed.

(** X12: [priv2pub] looks at the bits 0 to 255 of the scalar's value and at
    nothing else: two scalars that agree modulo [2^256], whatever their
    moduli, give the same result on every base. *)
Theorem priv2pub_low_bits (sk sk' : GF.t) (Q : option point) :
  GF.num sk mod 2 ^ 256 = GF.num sk' mod 2 ^ 256 ->
  priv2pub sk Q = priv2pub sk' Q.
Proof.
  intros H. unfold priv2pub.
  change 1 with (2 ^ 0) at 1 2.
  apply priv2pub_loop_bits; [lia|].
  intros k Hk. change (Z.of_nat 256) with 256 in Hk.
  rewrite <- (Z.mod_pow2_bits_low (GF.num sk) 256 k) by lia.
  rewrite <- (Z.mod_pow2_bits_low (GF.num sk') 256 k) by lia.
  now rewrite H.
Qed.

Lemma priv2pub_low_bits_witness :
  priv2pub (GF.make (2 ^ 256) (2 ^ 300)) None
  = Ok (mkpoint (GF.make 0 secp256k1.P) (GF.make 0 secp256k1.P)).
Proof.
  rewrite (priv2pub_low_bits (GF.make (2 ^ 256) (2 ^ 300))
             (GF.make 0 secp256k1.P) None eq_refl).
  apply priv2pub_zero_loop.
Defined.

Lemma reduced_over (m : Z) (p : point) : point_reduced m p -> point_over m p.
Proof. intros [[H1 _] [H2 _]]. now split. Qed.

Lemma priv2pub_loop_pow2 (m : Z) (sk : GF.t) :
  1 < m ->
  forall (j n : nat) (G : point) (i : Z),
    0 <= i -> (j < n)%nat -> point_over m G ->
    GF.num sk = 2 ^ (i + Z.of_nat j) ->
    priv2pub_loop n sk origin G (2 ^ i) = double_n j G.
Proof.
  intros Hm. induction j as [|j IH]; intros n G i Hi Hn HG Hsk.
  - destruct n as [|n]; [lia|].
    rewrite Z.add_0_r in Hsk.
    rewrite priv2pub_step_identity.
    + destruct (add_total m Hm G G HG HG) as (G' & EG & HG').
      rewrite EG. cbn [bind double_n].
      replace (mkpoint (x G) (y G)) with G by now destruct G.
      apply (priv2pub_loop_idle m Hm); [exact HG'|].
      intros k Hk. rewrite shiftl_pow2, Z.shiftl_mul_pow2 by lia.
      rewrite <- Z.pow_add_r, land_pow2, Hsk by lia.
      rewrite Z.pow2_bits_eqb by lia.
      now replace (i =? i + 1 + k) with false by (symmetry; apply Z.eqb_neq; lia).
    + rewrite land_pow2, Hsk, Z.pow2_bits_eqb, Z.eqb_refl by lia.
      pose proof (Z.pow_pos_nonneg 2 i). lia.
  - destruct n as [|n]; [lia|].
    cbn [priv2pub_loop double_n]. unfold GMP.mpz_and, GF.getNum.
    rewrite land_pow2_zero, Hsk, Z.pow2_bits_eqb by lia.
    replace (i + Z.of_nat (S j) =? i) with false
      by (symmetry; apply Z.eqb_neq; lia).
    cbn [negb bind].
    destruct (add_total m Hm G G HG HG) as (G' & EG & HG').
    rewrite EG. cbn [bind]. rewrite shiftl_pow2 by lia.
    apply IH; [lia | lia | exact HG' |].
    rewrite Hsk. f_equal. lia.
Qed.

(** X13: A scalar that is a power of two below [2^256] gives that many
    doublings of the base point and no other addition. *)
Theorem priv2pub_power_of_two (m : Z) (sk : GF.t) (Q : point) (j : nat) :
  1 < m -> point_over m Q -> (j < 256)%nat ->
  GF.num sk = 2 ^ Z.of_nat j ->
  priv2pub sk (Some Q) = double_n j Q.
Proof.
  intros Hm HQ Hj Hsk. unfold priv2pub.
  replace (mkpoint (x Q) (y Q)) with Q by now destruct Q.
  change 1 with (2 ^ 0).
  now apply (priv2pub_loop_pow2 m sk Hm j 256 Q 0).
Qed.

Lemma priv2pub_power_of_two_witness :
  1 < secp256k1.P /\
  priv2pub (GF.make 4 secp256k1.N) (Some secp256k1.G)
  = (d <- add secp256k1.G secp256k1.G ;; add d d).
Proof.
  split; [reflexivity|].
  rewrite (priv2pub_power_of_two secp256k1.P (GF.make 4 secp256k1.N)
             secp256k1.G 2 eq_refl G_over_P ltac:(lia) eq_refl).
  cbn [double_n].
  destruct (add secp256k1.G secp256k1.G) as [d|e]; [|reflexivity].
  cbn [bind]. now destruct (add d d).
Defined.

Lemma priv2pub_loop_reduced (m : Z) (sk : GF.t) :
  1 < m ->
  forall (n : nat) (pub G : point) (bit : Z),
    point_reduced m pub -> point_reduced m G ->
    exists r, priv2pub_loop n sk pub G bit = Ok r /\ point_reduced m r.
Proof.
  intros Hm. induction n as [|n IH]; intros pub G bit Hpub HG;
    cbn [priv2pub_loop].
  - now exists pub.
  - pose proof (reduced_over m G HG) as HGo.
    pose proof (reduced_over m pub Hpub) as Hpo.
    destruct (add_reduced m G G Hm HGo HGo) as (G' & EG & HG').
    assert (Hacc : exists pub',
               (if negb (GMP.mpz_and bit (GF.getNum sk) =? 0)
                then zx <- GF.eqb_int (x pub) 0 ;;
                     zy <- (if zx then GF.eqb_int (y pub) 0 else Ok false) ;;
                     if zx && zy then Ok (mkpoint (x G) (y G)) else add pub G
                else Ok pub) = Ok pub' /\ point_reduced m pub').
    { destruct (negb (GMP.mpz_and bit (GF.getNum sk) =? 0)).
      - destruct Hpo as [Hx Hy].
        rewrite (eqb_int_pos m) by (lia || assumption). cbn [bind].
        destruct (GF.num (x pub) mod m =? 0 mod m).
        + rewrite (eqb_int_pos m) by (lia || assumption). cbn [bind].
          destruct (GF.num (y pub) mod m =? 0 mod m); cbn [andb].
          * eexists. split; [reflexivity|]. exact HG.
          * apply add_reduced; [lia | now split | exact HGo].
        + cbn [bind andb]. apply add_reduced; [lia | now split | exact HGo].
      - now exists pub. }
    destruct Hacc as (pub' & Epub & Hpub').
    rewrite Epub, EG. cbn [bind]. now apply IH.
Qed.

Lemma origin_reduced : point_reduced secp256k1.P origin.
Proof. split; split; try reflexivity; cbn; split; discriminate || reflexivity. Qed.

Lemma G_reduced : point_reduced secp256k1.P secp256k1.G.
Proof. split; split; try reflexivity; cbn; split; discriminate || reflexivity. Qed.

(** X14: For every scalar and every base with reduced coordinates over the
    field prime (the generator when none is given), [priv2pub] raises
    nothing and returns a point whose coordinates are tagged with the
    field prime and lie in [[0, P)]. *)
Theorem priv2pub_closed (sk : GF.t) (Q : option point) :
  (forall q, Q = Some q -> point_reduced secp256k1.P q) ->
  exists pk, priv2pub sk Q = Ok pk /\ point_reduced secp256k1.P pk.
Proof.
  intros HQ. unfold priv2pub.
  apply (priv2pub_loop_reduced secp256k1.P).
  - pose proof P_gt_2. lia.
  - exact origin_reduced.
  - destruct Q as [q|].
    + replace (mkpoint (x q) (y q)) with q by now destruct q.
      now apply HQ.
    + exact G_reduced.
Qed.

Lemma priv2pub_closed_witness :
  exists pk,
    priv2pub (GF.make 12345 secp256k1.N) (Some secp256k1.G) = Ok pk /\
    point_reduced secp256k1.P pk.
Proof.
  apply (priv2pub_closed (GF.make 12345 secp256k1.N) (Some secp256k1.G)).
  intros q H. injection H as <-. exact G_reduced.
Defined.

(** * Further properties of the text side *)

(** ** Strings *)

Lemma append_nil_r (s : string) : (s ++ "")%string = s.
Proof. induction s as [|c s IH]; [reflexivity|]. cbn. now rewrite IH. Qed.

Lemma append_assoc (a b c : string) :
  ((a ++ b) ++ c)%string = (a ++ (b ++ c))%string.
Proof. induction a as [|x a IH]; [reflexivity|]. cbn. now rewrite IH. Qed.

Lemma length_app (a b : string) :
  String.length (a ++ b) = (String.length a + String.length b)%nat.
Proof. induction a as [|x a IH]; [reflexivity|]. cbn. now rewrite IH. Qed.

Lemma substring_0_app (a b : string) (k : nat) :
  k = String.length a -> substring 0 k (a ++ b) = a.
Proof.
  intros ->. induction a as [|x a IH]; cbn.
  - now destruct b.
  - now rewrite IH.
Qed.

Lemma substring_0_all (a : string) (k : nat) :
  (String.length a <= k)%nat -> substring 0 k a = a.
Proof.
  revert k. induction a as [|x a IH]; intros k Hk.
  - now destruct k.
  - destruct k as [|k]; [cbn in Hk; lia|]. cbn. rewrite IH; [reflexivity|].
    cbn in Hk. lia.
Qed.

Lemma substring_skip_app (a b : string) (n k : nat) :
  n = String.length a -> substring n k (a ++ b) = substring 0 k b.
Proof.
  intros ->. induction a as [|x a IH]; [reflexivity|]. cbn. exact IH.
Qed.

Lemma substring_skip_more (a b : string) (n j k : nat) :
  n = (String.length a + j)%nat ->
  substring n k (a ++ b) = substring j k b.
Proof.
  intros ->. induction a as [|x a IH]; [reflexivity|]. cbn. exact IH.
Qed.

(** ** Hexadecimal digits *)

Lemma hex_digit_facts (d : Z) :
  0 <= d < 16 ->
  hex_val (hex_digit d) = Some d /\
  isspace (hex_digit d) = false /\
  (code (hex_digit d) =? 0) = false /\
  (code (hex_digit d) =? 45) = false /\
  (55 <? code (hex_digit d)) = (8 <=? d).
Proof.
  intros H.
  assert (d = 0 \/ d = 1 \/ d = 2 \/ d = 3 \/ d = 4 \/ d = 5 \/ d = 6 \/
          d = 7 \/ d = 8 \/ d = 9 \/ d = 10 \/ d = 11 \/ d = 12 \/ d = 13 \/
          d = 14 \/ d = 15) as C by lia.
  repeat (destruct C as [->|C]; [repeat split|]). subst d. repeat split.
Qed.

(** The digits most significant first. *)
Lemma hex_fixed_cons (w : nat) :
  forall v,
    hex_fixed (S w) v
    = String (hex_digit ((v / 16 ^ Z.of_nat w) mod 16)) (hex_fixed w v).
Proof.
  induction w as [|w IH]; intros v.
  - cbn [hex_fixed]. now rewrite Z.pow_0_r, Z.div_1_r.
  - change (hex_fixed (S (S w)) v)
      with (hex_fixed (S w) (v / 16)
            ++ String (hex_digit (v mod 16)) EmptyString)%string.
    rewrite IH. cbn [append]. f_equal.
    rewrite Z.div_div by (try apply Z.pow_pos_nonneg; lia).
    rewrite Nat2Z.inj_succ, Z.pow_succ_r by lia. reflexivity.
Qed.

Lemma length_hex_fixed (w : nat) (v : Z) : String.length (hex_fixed w v) = w.
Proof.
  revert v. induction w as [|w IH]; intros v; [reflexivity|].
  cbn [hex_fixed]. rewrite length_app, IH. cbn. lia.
Qed.

Lemma digit_range (v w : Z) : 0 <= (v / 16 ^ w) mod 16 < 16.
Proof. apply Z.mod_pos_bound. lia. Qed.

Lemma c_str_hex_fixed (w : nat) (v : Z) :
  c_str (hex_fixed w v) = hex_fixed w v.
Proof.
  induction w as [|w IH]; [reflexivity|].
  rewrite hex_fixed_cons. cbn [c_str].
  destruct (hex_digit_facts _ (digit_range v (Z.of_nat w))) as (_ & _ & -> & _).
  now rewrite IH.
Qed.

Lemma digits16_hex_fixed (w : nat) (v : Z) :
  forall acc rest,
    digits16 (hex_fixed w v ++ rest) acc
    = digits16 rest (acc * 16 ^ Z.of_nat w + v mod 16 ^ Z.of_nat w).
Proof.
  induction w as [|w IH]; intros acc rest.
  - cbn [hex_fixed append]. rewrite Z.pow_0_r, Z.mod_1_r. f_equal. lia.
  - rewrite hex_fixed_cons. cbn [append digits16].
    destruct (hex_digit_facts _ (digit_range v (Z.of_nat w)))
      as (-> & -> & _).
    rewrite IH. f_equal.
    rewrite Nat2Z.inj_succ, Z.pow_succ_r by lia.
    pose proof (Z.pow_pos_nonneg 16 (Z.of_nat w) ltac:(lia) ltac:(lia)) as Hp.
    rewrite (Z.mul_comm 16 (16 ^ Z.of_nat w)).
    rewrite (Z.rem_mul_r v (16 ^ Z.of_nat w) 16) by lia.
    lia.
Qed.

(** Reading back what [hex_fixed] printed. *)
Lemma mpz_class_str_hex_fixed (w : nat) (v : Z) :
  mpz_class_str (hex_fixed (S w) v) = Val (v mod 16 ^ Z.of_nat (S w)).
Proof.
  unfold mpz_class_str. rewrite c_str_hex_fixed.
  pose proof (digits16_hex_fixed (S w) v 0 EmptyString) as D.
  rewrite append_nil_r in D. cbn [digits16] in D.
  rewrite Z.mul_0_l, Z.add_0_l in D.
  rewrite hex_fixed_cons in *. cbn [skip_spaces].
  destruct (hex_digit_facts _ (digit_range v (Z.of_nat w)))
    as (Hv & -> & _ & -> & _).
  rewrite Hv, D. reflexivity.
Qed.

Lemma hex_len_bound (v : Z) : 0 <= v -> v < 16 ^ Z.of_nat (hex_len v).
Proof.
  intros Hv. unfold hex_len.
  destruct (Z.eqb_spec v 0) as [->|Hne]; [reflexivity|].
  pose proof (Z.log2_nonneg v) as Hl.
  pose proof (Z.log2_spec v ltac:(lia)) as [_ Hs].
  assert (Hq : 0 <= Z.log2 v / 4) by (apply Z.div_pos; lia).
  rewrite Nat2Z.inj_succ, Z2Nat.id by lia.
  change 16 with (2 ^ 4). rewrite <- Z.pow_mul_r by lia.
  eapply Z.lt_le_trans; [exact Hs|].
  apply Z.pow_le_mono_r; [lia|].
  pose proof (Z.mod_pos_bound (Z.log2 v) 4 ltac:(lia)).
  pose proof (Z.div_mod (Z.log2 v) 4 ltac:(lia)). lia.
Qed.

Lemma hex_len_small (v : Z) (w : nat) :
  0 <= v < 16 ^ Z.of_nat w -> (0 < w)%nat -> (hex_len v <= w)%nat.
Proof.
  intros [Hv Hw] Hpos. unfold hex_len.
  destruct (Z.eqb_spec v 0) as [->|Hne]; [lia|].
  pose proof (Z.log2_spec v ltac:(lia)) as [Hs _].
  assert (Z.log2 v < 4 * Z.of_nat w).
  { apply (Z.pow_lt_mono_r_iff 2); [lia | lia|].
    eapply Z.le_lt_trans; [exact Hs|].
    rewrite Z.pow_mul_r by lia. exact Hw. }
  assert (Z.log2 v / 4 < Z.of_nat w) by (apply Z.div_lt_upper_bound; lia).
  pose proof (Z.log2_nonneg v).
  assert (0 <= Z.log2 v / 4) by (apply Z.div_pos; lia).
  lia.
Qed.

(** ** Printing and reading integers *)

Lemma Z064x_fixed (v : Z) : 0 <= v < 2 ^ 256 -> Z064x v = hex_fixed 64 v.
Proof.
  intros Hv. unfold Z064x.
  assert (hex_len v <= 64)%nat by (apply hex_len_small; [exact Hv | lia]).
  now rewrite Nat.max_l by lia.
Qed.

(** X15: What [gmp_sprintf("%Z064x")] prints for an integer that is not
    negative, [mpz_class(text, 16)] reads back as the same integer; below
    [2^256] the text has exactly 64 characters. *)
Theorem Z064x_read_back (v : Z) :
  0 <= v ->
  mpz_class_str (Z064x v) = Val v /\
  (v < 2 ^ 256 -> String.length (Z064x v) = 64%nat).
Proof.
  intros Hv. split.
  - unfold Z064x.
    destruct (Nat.max 64 (hex_len v)) as [|w] eqn:E; [lia|].
    rewrite mpz_class_str_hex_fixed. f_equal. apply Z.mod_small.
    split; [exact Hv|]. rewrite <- E.
    eapply Z.lt_le_trans; [apply hex_len_bound; exact Hv|].
    apply Z.pow_le_mono_r; lia.
  - intros Hlt. rewrite Z064x_fixed by lia. apply length_hex_fixed.
Qed.

Lemma Z064x_read_back_witness :
  0 <= 255 /\ mpz_class_str (Z064x 255) = Val 255.
Proof.
  split; [lia|]. exact (proj1 (Z064x_read_back 255 ltac:(lia))).
Defined.

Lemma P_lt_2_256 : secp256k1.P < 2 ^ 256.
Proof. reflexivity. Qed.

(** X16: For a point with reduced coordinates over the field prime, the
    uncompressed key text has 130 characters, and the compressed key that
    [splitXY] cuts out of it is ["02"] or ["03"], by the parity of [y],
    followed by the 64 digits of [x]. *)
Theorem compressed_key_text (Q : point) :
  point_reduced secp256k1.P Q ->
  String.length (pubBuf Q) = 130%nat /\
  splitXY (pubBuf Q) Q
  = ((if (GF.num (y Q) mod 2 =? 0)%Z then "02" else "03")
     ++ Z064x (GF.num (x Q)))%string.
Proof.
  intros [[_ Hx] [_ Hy]]. pose proof P_lt_2_256 as HP.
  unfold pubBuf, splitXY, GF.getNum.
  rewrite !Z064x_fixed by lia.
  split.
  - cbn [append String.length]. rewrite length_app, !length_hex_fixed.
    reflexivity.
  - assert (E : substring 2 64
                  ("04" ++ hex_fixed 64 (GF.num (x Q))
                   ++ hex_fixed 64 (GF.num (y Q)))
                = hex_fixed 64 (GF.num (x Q))).
    { cbn [append substring].
      apply substring_0_app. now rewrite length_hex_fixed. }
    rewrite E. now destruct (GF.num (y Q) mod 2 =? 0).
Qed.

Lemma compressed_key_text_witness :
  point_reduced secp256k1.P secp256k1.G /\
  splitXY (pubBuf secp256k1.G) secp256k1.G
  = ("02" ++ Z064x (GF.num (x secp256k1.G)))%string.
Proof.
  split; [exact G_reduced|].
  exact (proj2 (compressed_key_text secp256k1.G G_reduced)).
Defined.

(** ** The DER text *)

Lemma into_buf_fits (cap : nat) (s : string) :
  (String.length s < cap)%nat -> into_buf cap s = Val s.
Proof.
  intros H. unfold into_buf. now apply Nat.ltb_lt in H as ->.
Qed.

Lemma into_buf_over (cap : nat) (s : string) :
  (cap <= String.length s)%nat -> into_buf cap s = Fault Undefined.
Proof.
  intros H. unfold into_buf. now apply Nat.ltb_ge in H as ->.
Qed.

Lemma pad00_hex_fixed (v : Z) :
  0 <= v < 2 ^ 256 ->
  pad00 (hex_fixed 64 v)
  = if 2 ^ 255 <=? v then ("00" ++ hex_fixed 64 v)%string else hex_fixed 64 v.
Proof.
  intros Hv. pose proof (hex_fixed_cons 63 v) as E.
  unfold pad00. rewrite E at 1.
  destruct (hex_digit_facts _ (digit_range v (Z.of_nat 63)))
    as (_ & _ & _ & _ & ->).
  change (16 ^ Z.of_nat 63) with (2 ^ 252).
  assert (Hq : 0 <= v / 2 ^ 252 < 16).
  { split; [apply Z.div_pos; lia|].
    apply Z.div_lt_upper_bound; [lia|]. change (2 ^ 252 * 16) with (2 ^ 256).
    lia. }
  rewrite Z.mod_small by exact Hq.
  destruct (Z.leb_spec (2 ^ 255) v) as [H|H].
  - assert (8 <= v / 2 ^ 252)
      by (apply Z.div_le_lower_bound; [lia|]; change (2 ^ 252 * 8) with (2 ^ 255); lia).
    now destruct (Z.leb_spec 8 (v / 2 ^ 252)); [|lia].
  - assert (v / 2 ^ 252 < 8)
      by (apply Z.div_lt_upper_bound; [lia|]; change (2 ^ 252 * 8) with (2 ^ 255); lia).
    now destruct (Z.leb_spec 8 (v / 2 ^ 252)); [lia|].
Qed.

Lemma substr_at (a v b : string) (pos len : Z) :
  pos = Z.of_nat (String.length a) ->
  len = Z.of_nat (String.length v) ->
  substr (a ++ v ++ b) pos len = Val v.
Proof.
  intros -> ->. unfold substr.
  rewrite !length_app, !Nat2Z.id.
  assert ((0 <=? Z.of_nat (String.length a))
          && (Z.of_nat (String.length a)
              <=? Z.of_nat (String.length a
                            + (String.length v + String.length b))) = true)
    as -> by (apply andb_true_iff; split; apply Z.leb_le; lia).
  assert ((Z.of_nat (String.length v) <? 0) = false) as ->
      by (apply Z.ltb_ge; lia).
  rewrite substring_skip_app by reflexivity.
  now rewrite substring_0_app.
Qed.

(** [parse_der] on a text made of a 6-character head, the length byte and
    the digits of [R], a 2-character separator, and the length byte and
    the digits of [S]. *)
Lemma parse_der_shape (pre hR strR mid hS strS : string) (lenR lenS : Z) :
  String.length pre = 6%nat ->
  String.length hR = 2%nat -> hex2int hR = Val lenR ->
  Z.of_nat (String.length strR) = lenR * 2 ->
  String.length mid = 2%nat ->
  String.length hS = 2%nat -> hex2int hS = Val lenS ->
  Z.of_nat (String.length strS) = lenS * 2 ->
  parse_der (pre ++ hR ++ strR ++ mid ++ hS ++ strS)
  = (r <~ mpz_class_str strR ;; s <~ mpz_class_str strS ;; Val (r, s)).
Proof.
  intros Hpre HhR EhR HR Hmid HhS EhS HS. unfold parse_der.
  rewrite (substr_at pre hR) by (rewrite ?Hpre, ?HhR; reflexivity).
  cbn [obind]. rewrite EhR. cbn [obind].
  assert (E1 : (pre ++ hR ++ strR ++ mid ++ hS ++ strS
                = (pre ++ hR) ++ strR ++ (mid ++ hS ++ strS))%string)
    by now rewrite !append_assoc.
  rewrite E1 at 1.
  rewrite (substr_at (pre ++ hR) strR)
    by (rewrite ?length_app, ?Hpre, ?HhR; lia).
  cbn [obind].
  assert (E2 : (pre ++ hR ++ strR ++ mid ++ hS ++ strS
                = (pre ++ hR ++ strR ++ mid) ++ hS ++ strS)%string)
    by now rewrite !append_assoc.
  rewrite E2 at 1.
  rewrite (substr_at (pre ++ hR ++ strR ++ mid) hS)
    by (rewrite ?length_app, ?Hpre, ?HhR, ?Hmid, ?HhS; lia).
  cbn [obind]. rewrite EhS. cbn [obind].
  assert (E3 : (pre ++ hR ++ strR ++ mid ++ hS ++ strS
                = (pre ++ hR ++ strR ++ mid ++ hS) ++ strS ++ "")%string)
    by now rewrite !append_assoc, append_nil_r.
  rewrite E3.
  rewrite (substr_at (pre ++ hR ++ strR ++ mid ++ hS) strS)
    by (rewrite ?length_app, ?Hpre, ?HhR, ?Hmid, ?HhS; lia).
  reflexivity.
Qed.

Ltac eval_lx :=
  repeat match goal with
         | |- context [lx ?t] =>
             lazymatch t with
             | context [String.length _] => fail
             | _ => let v := eval vm_compute in (lx t) in
                    progress change (lx t) with v
             end
         end.

Ltac set_len k :=
  match goal with
  | LR : String.length ?a = _, LS : String.length ?b = _
    |- context [lx (Z.of_nat (String.length ?t) / 2)] =>
      replace (String.length t) with k
        by (cbn [String.length append]; rewrite !length_app, LR, ?LS;
            cbn [String.length append]; rewrite ?length_app, ?LS;
            reflexivity)
  end.

(** [der_of] on two integers below [2^256]: the text, and its length. *)
Lemma der_of_text (r s : Z) :
  0 <= r < 2 ^ 256 -> 0 <= s < 2 ^ 256 ->
  let hr := 2 ^ 255 <=? r in
  let hs := 2 ^ 255 <=? s in
  let strR := ((if hr then "00" else "") ++ hex_fixed 64 r)%string in
  let strS := ((if hs then "00" else "") ++ hex_fixed 64 s)%string in
  let der := (("30" ++ lx (68 + (if hr then 1 else 0) + (if hs then 1 else 0))
               ++ "02")
              ++ lx (32 + (if hr then 1 else 0)) ++ strR
              ++ "02" ++ lx (32 + (if hs then 1 else 0)) ++ strS)%string in
  der_of r s = (if hr && hs then Fault Undefined else Val der) /\
  String.length der
  = (140 + (if hr then 2 else 0) + (if hs then 2 else 0))%nat.
Proof.
  intros Hr Hs hr hs strR strS der.
  assert (LR : String.length strR = if hr then 66%nat else 64%nat).
  { subst strR. rewrite length_app, length_hex_fixed. now destruct hr. }
  assert (LS : String.length strS = if hs then 66%nat else 64%nat).
  { subst strS. rewrite length_app, length_hex_fixed. now destruct hs. }
  assert (PR : pad00 (hex_fixed 64 r) = strR).
  { rewrite pad00_hex_fixed by exact Hr. subst strR hr. now destruct (_ <=? r). }
  assert (PS : pad00 (hex_fixed 64 s) = strS).
  { rewrite pad00_hex_fixed by exact Hs. subst strS hs. now destruct (_ <=? s). }
  assert (Ld : String.length der
               = (140 + (if hr then 2 else 0) + (if hs then 2 else 0))%nat).
  { subst der. rewrite !length_app, LR, LS. now destruct hr, hs. }
  split; [|exact Ld].
  unfold der_of. rewrite !Z064x_fixed by assumption.
  rewrite !into_buf_fits by (rewrite length_hex_fixed; lia).
  cbn [obind]. rewrite PR, PS.
  subst der. clearbody strR strS hr hs. clear PR PS Hr Hs Ld.
  destruct hr, hs; cbv iota in LR, LS; rewrite LR, LS; cbn [andb]; cbv iota.
  all: eval_lx.
  all: rewrite into_buf_fits
         by (cbn [String.length append]; rewrite !length_app, LR, ?LS;
             cbn [String.length append]; rewrite ?length_app, ?LS; lia).
  all: cbn [obind].
  1: set_len 140%nat. 2-3: set_len 138%nat. 4: set_len 136%nat.
  all: eval_lx.
  1: apply into_buf_over.
  2-4: apply into_buf_fits.
  all: cbn [String.length append]; rewrite !length_app, LR, ?LS;
    cbn [String.length append]; rewrite ?length_app, ?LS; lia.
Qed.


Lemma mpz_class_str_padded (pad : bool) (w : nat) (v : Z) :
  mpz_class_str ((if pad then "00" else "") ++ hex_fixed (S w) v)
  = Val (v mod 16 ^ Z.of_nat (S w)).
Proof.
  destruct pad; [|apply mpz_class_str_hex_fixed].
  pose proof (mpz_class_str_hex_fixed w v) as E.
  unfold mpz_class_str in *. cbn [append c_str code] in *.
  rewrite c_str_hex_fixed in *.
  change (Z.of_N (N_of_ascii "0") =? 0) with false. cbv iota.
  cbn [skip_spaces]. change (isspace "0") with false. cbv iota.
  change (Z.of_N (N_of_ascii "0") =? 45) with false. cbv iota.
  change (hex_val "0") with (Some 0). cbv iota.
  cbn [digits16]. change (isspace "0") with false.
  change (hex_val "0") with (Some 0). cbv iota. cbn [Z.mul Z.add].
  rewrite hex_fixed_cons in *. cbn [skip_spaces] in E.
  destruct (hex_digit_facts _ (digit_range v (Z.of_nat w)))
    as (Hv & Hsp & _ & Hm & _).
  rewrite Hsp, Hm, Hv in E.
  destruct (digits16 _ 0) as [d|]; [|discriminate E].
  exact E.
Qed.

Lemma Val_inj {A : Type} (a b : A) : Val a = Val b -> a = b.
Proof. intros H. now injection H. Qed.

(** What [verify] reads out of a DER text that [sign] built. *)
Lemma parse_der_of (r s : Z) (der : string) :
  0 <= r < 2 ^ 256 -> 0 <= s < 2 ^ 256 ->
  der_of r s = Val der ->
  parse_der der = Val (r, s) /\
  String.length der
  = (140 + (if (2 ^ 255 <=? r)%Z then 2 else 0)
     + (if (2 ^ 255 <=? s)%Z then 2 else 0))%nat.
Proof.
  intros Hr Hs Hder.
  destruct (der_of_text r s Hr Hs) as [Hd Hl]. cbv zeta in Hd, Hl.
  rewrite Hder in Hd.
  destruct ((2 ^ 255 <=? r) && (2 ^ 255 <=? s)) eqn:Hhi; [discriminate Hd|].
  apply Val_inj in Hd. subst der.
  split; [|exact Hl].
  rewrite (parse_der_shape _ _ _ _ _ _
             (32 + (if 2 ^ 255 <=? r then 1 else 0))
             (32 + (if 2 ^ 255 <=? s then 1 else 0))).
  - rewrite !(mpz_class_str_padded _ 63). cbn [obind].
    change (16 ^ Z.of_nat 64) with (2 ^ 256).
    now rewrite !Z.mod_small by assumption.
  - now destruct (_ <=? r), (_ <=? s).
  - now destruct (_ <=? r).
  - now destruct (_ <=? r).
  - rewrite length_app, length_hex_fixed. now destruct (_ <=? r).
  - reflexivity.
  - now destruct (_ <=? s).
  - now destruct (_ <=? s).
  - rewrite length_app, length_hex_fixed. now destruct (_ <=? s).
Qed.

Lemma der_of_returns (r s : Z) :
  0 <= r < 2 ^ 256 -> 0 <= s < 2 ^ 256 ->
  (2 ^ 255 <=? r) && (2 ^ 255 <=? s) = false ->
  exists der, der_of r s = Val der.
Proof.
  intros Hr Hs Hhi.
  destruct (der_of_text r s Hr Hs) as [Hd _]. cbv zeta in Hd.
  rewrite Hhi in Hd. eexists. exact Hd.
Qed.

(** X17: The DER text that [sign] builds from two integers below [2^256], of
    which at most one has its top bit set, has 140 or 142 characters, and
    [verify] reads the same two integers out of it. *)
Theorem der_round_trip (r s : Z) :
  0 <= r < 2 ^ 256 -> 0 <= s < 2 ^ 256 ->
  (2 ^ 255 <=? r) && (2 ^ 255 <=? s) = false ->
  exists der,
    der_of r s = Val der /\
    parse_der der = Val (r, s) /\
    String.length der
    = (140 + (if (2 ^ 255 <=? r)%Z then 2 else 0)
       + (if (2 ^ 255 <=? s)%Z then 2 else 0))%nat.
Proof.
  intros Hr Hs Hhi.
  destruct (der_of_returns r s Hr Hs Hhi) as [der Hd].
  exists der. split; [exact Hd|]. now apply parse_der_of.
Qed.

Lemma der_round_trip_witness :
  exists der,
    der_of 255 (2 ^ 255) = Val der /\ parse_der der = Val (255, 2 ^ 255).
Proof.
  destruct (der_round_trip 255 (2 ^ 255)) as (der & H1 & H2 & _);
    [split; [lia | reflexivity] | split; [discriminate | reflexivity]
    | reflexivity |].
  exists der. now split.
Defined.

(** X18: When both integers have their top bit set, the DER text has 144
    characters: with its final NUL it does not fit the 143 bytes of
    [buf], and the last [sprintf] of [sign] writes past the end. *)
Theorem der_buffer_overrun (r s : Z) :
  2 ^ 255 <= r < 2 ^ 256 -> 2 ^ 255 <= s < 2 ^ 256 ->
  der_of r s = Fault Undefined.
Proof.
  intros Hr Hs.
  destruct (der_of_text r s) as [Hd _]; [lia | lia |]. cbv zeta in Hd.
  assert ((2 ^ 255 <=? r) = true) as Er by (apply Z.leb_le; lia).
  assert ((2 ^ 255 <=? s) = true) as Es by (apply Z.leb_le; lia).
  now rewrite Er, Es in Hd.
Qed.

Lemma der_buffer_overrun_witness :
  der_of (2 ^ 255) (2 ^ 255 + 1) = Fault Undefined.
Proof.
  apply der_buffer_overrun; split; (discriminate || reflexivity).
Defined.

(** ** Hex text and bytes *)

Lemma lower_hex_inv (c : ascii) :
  is_lower_hex c = true -> exists d, 0 <= d < 16 /\ c = hex_digit d.
Proof.
  destruct c as [[] [] [] [] [] [] [] []]; try discriminate; intros _.
  all: first
         [ exists 0; split; [lia | reflexivity]
         | exists 1; split; [lia | reflexivity]
         | exists 2; split; [lia | reflexivity]
         | exists 3; split; [lia | reflexivity]
         | exists 4; split; [lia | reflexivity]
         | exists 5; split; [lia | reflexivity]
         | exists 6; split; [lia | reflexivity]
         | exists 7; split; [lia | reflexivity]
         | exists 8; split; [lia | reflexivity]
         | exists 9; split; [lia | reflexivity]
         | exists 10; split; [lia | reflexivity]
         | exists 11; split; [lia | reflexivity]
         | exists 12; split; [lia | reflexivity]
         | exists 13; split; [lia | reflexivity]
         | exists 14; split; [lia | reflexivity]
         | exists 15; split; [lia | reflexivity] ].
Qed.

Lemma hex_digit_lower (d : Z) : 0 <= d < 16 -> is_lower_hex (hex_digit d) = true.
Proof.
  intros H.
  assert (d = 0 \/ d = 1 \/ d = 2 \/ d = 3 \/ d = 4 \/ d = 5 \/ d = 6 \/
          d = 7 \/ d = 8 \/ d = 9 \/ d = 10 \/ d = 11 \/ d = 12 \/ d = 13 \/
          d = 14 \/ d = 15) as C by lia.
  repeat (destruct C as [->|C]; [reflexivity|]). now subst d.
Qed.

(** One byte: two digits read by [stoul], printed again by ["%02hhx"]. *)
Lemma byte_round_trip (d1 d2 : Z) :
  0 <= d1 < 16 -> 0 <= d2 < 16 ->
  stoul (String (hex_digit d1) (String (hex_digit d2) EmptyString))
  = Val (16 * d1 + d2) /\
  hex_fixed 2 (code (ascii_of_N (Z.to_N ((16 * d1 + d2) mod 256))))
  = String (hex_digit d1) (String (hex_digit d2) EmptyString).
Proof.
  intros H1 H2.
  assert (d1 = 0 \/ d1 = 1 \/ d1 = 2 \/ d1 = 3 \/ d1 = 4 \/ d1 = 5 \/ d1 = 6 \/
          d1 = 7 \/ d1 = 8 \/ d1 = 9 \/ d1 = 10 \/ d1 = 11 \/ d1 = 12 \/
          d1 = 13 \/ d1 = 14 \/ d1 = 15) as C1 by lia.
  assert (d2 = 0 \/ d2 = 1 \/ d2 = 2 \/ d2 = 3 \/ d2 = 4 \/ d2 = 5 \/ d2 = 6 \/
          d2 = 7 \/ d2 = 8 \/ d2 = 9 \/ d2 = 10 \/ d2 = 11 \/ d2 = 12 \/
          d2 = 13 \/ d2 = 14 \/ d2 = 15) as C2 by lia.
  clear H1 H2.
  repeat (destruct C1 as [->|C1]);
    [.. | subst d1];
    repeat (destruct C2 as [->|C2]);
    try subst d2; split; vm_compute; reflexivity.
Qed.

Lemma all_lower_hex_app (a b : string) :
  all_lower_hex (a ++ b) = all_lower_hex a && all_lower_hex b.
Proof.
  induction a as [|c a IH]; [reflexivity|]. cbn. now rewrite IH, andb_assoc.
Qed.

Lemma all_lower_hex_fixed (w : nat) (v : Z) :
  all_lower_hex (hex_fixed w v) = true.
Proof.
  induction w as [|w IH]; [reflexivity|].
  rewrite hex_fixed_cons. cbn [all_lower_hex].
  now rewrite IH, hex_digit_lower by apply digit_range.
Qed.

Lemma hex_to_bytes_pairs (n : nat) :
  forall s,
    String.length s = (2 * n)%nat -> all_lower_hex s = true ->
    exists bs,
      hex_to_bytes s = Val bs /\
      List.length bs = n /\
      Forall (fun b => 0 <= b < 256) bs /\
      bytes_to_hex (string_of_bytes bs) = s.
Proof.
  induction n as [|n IH]; intros s Hl Hs.
  - destruct s; [|discriminate]. exists []. repeat split. constructor.
  - destruct s as [|c1 [|c2 s]]; try (cbn in Hl; lia).
    cbn [all_lower_hex] in Hs.
    apply andb_true_iff in Hs. destruct Hs as [Hc1 Hs].
    apply andb_true_iff in Hs. destruct Hs as [Hc2 Hs].
    destruct (lower_hex_inv c1 Hc1) as (d1 & Hd1 & ->).
    destruct (lower_hex_inv c2 Hc2) as (d2 & Hd2 & ->).
    destruct (IH s) as (bs & Hb & Hn & Hr & Hh); [cbn in Hl; lia | exact Hs|].
    destruct (byte_round_trip d1 d2 Hd1 Hd2) as [Est Epr].
    exists ((16 * d1 + d2) mod 256 :: bs).
    cbn [hex_to_bytes]. rewrite Est. cbn [obind]. rewrite Hb. cbn [obind].
    split; [reflexivity|]. split; [cbn; lia|]. split.
    + constructor; [apply Z.mod_pos_bound; lia | exact Hr].
    + unfold string_of_bytes in *. cbn [map string_of_list_ascii bytes_to_hex].
      rewrite Hh. rewrite Epr. reflexivity.
Qed.

(** The DER text is made of lower-case hex digits, an even number of them. *)
Lemma der_of_lower_hex (r s : Z) (der : string) :
  0 <= r < 2 ^ 256 -> 0 <= s < 2 ^ 256 ->
  der_of r s = Val der ->
  all_lower_hex der = true /\
  exists n, String.length der = (2 * n)%nat.
Proof.
  intros Hr Hs Hd.
  destruct (der_of_text r s Hr Hs) as [Ht Hl]. cbv zeta in Ht, Hl.
  rewrite Hd in Ht.
  destruct (2 ^ 255 <=? r), (2 ^ 255 <=? s); cbn [andb] in Ht;
    try discriminate Ht; apply Val_inj in Ht; subst der.
  all: split;
    [ rewrite !all_lower_hex_app, !all_lower_hex_fixed; reflexivity
    | rewrite Hl ].
  - now exists 71%nat.
  - now exists 71%nat.
  - now exists 70%nat.
Qed.

(** X19: Whatever Base64 codec is linked in, as long as decoding an encoded
    byte array gives those bytes back, the signature text that [sign]
    prints for two integers below [2^256] (not both with the top bit
    set) is read by [verify] as the same two integers. *)
Theorem signature_text_round_trip
  (base64_encode : list Z -> string) (base64_decode : string -> string)
  (r s : Z) :
  (forall bs, Forall (fun b => 0 <= b < 256) bs ->
              base64_decode (base64_encode bs) = string_of_bytes bs) ->
  0 <= r < 2 ^ 256 -> 0 <= s < 2 ^ 256 ->
  (2 ^ 255 <=? r) && (2 ^ 255 <=? s) = false ->
  exists sigB64,
    signature_text base64_encode r s = Val sigB64 /\
    read_signature base64_decode sigB64 = Val (r, s).
Proof.
  intros Hcodec Hr Hs Hhi.
  destruct (der_of_returns r s Hr Hs Hhi) as [der Hd].
  destruct (der_of_lower_hex r s der Hr Hs Hd) as [Hlow [n Hn]].
  destruct (hex_to_bytes_pairs n der Hn Hlow) as (bs & Hb & _ & Hrange & Hback).
  exists (base64_encode bs). unfold signature_text, read_signature.
  rewrite Hd. cbn [obind]. rewrite Hb. cbn [obind].
  split; [reflexivity|].
  rewrite Hcodec by exact Hrange. rewrite Hback.
  now apply parse_der_of.
Qed.

Lemma signature_text_round_trip_witness :
  exists sigB64,
    signature_text string_of_bytes 255 (2 ^ 255) = Val sigB64 /\
    read_signature (fun t => t) sigB64 = Val (255, 2 ^ 255).
Proof.
  apply (signature_text_round_trip string_of_bytes (fun t => t)).
  - reflexivity.
  - split; [lia | reflexivity].
  - split; [discriminate | reflexivity].
  - reflexivity.
Defined.

(** ** Base58 *)

Lemma base58_find_at (r : Z) : 0 <= r < 58 -> base58_find (base58_at r) = r.
Proof.
  intros H.
  assert (exists k, r = Z.of_nat k /\ (k < 58)%nat) as (k & -> & Hk)
    by (exists (Z.to_nat r); lia).
  clear H.
  do 58 (destruct k as [|k]; [reflexivity|]). lia.
Qed.

Lemma base58_find_range (c : ascii) : -1 <= base58_find c < 58.
Proof.
  unfold base58_find, base58. cbn [find_from].
  repeat (destruct (Ascii.eqb _ c); [lia|]). cbn. lia.
Qed.

(** The digits that the first loop of [encodeBase58Check] puts in front
    of [output] are read back by the loop of [decodeBase58] as [dec]. *)
Lemma base58_value_digits (fuel : nat) :
  forall dec output,
    0 <= dec < 2 ^ Z.of_nat fuel ->
    base58_value (base58_digits fuel dec output) 0 = base58_value output dec.
Proof.
  induction fuel as [|f IH]; intros dec output Hd.
  - cbn [base58_digits]. change (2 ^ Z.of_nat 0) with 1 in Hd.
    now replace dec with 0 by lia.
  - cbn [base58_digits]. destruct (Z.ltb_spec 0 dec) as [Hpos|Hz].
    + cbv zeta.
      pose proof (Z.mod_pos_bound dec 58 ltac:(lia)) as Hr.
      pose proof (Z.div_mod dec 58 ltac:(lia)) as Hq.
      assert ((dec - dec mod 58) / 58 = dec / 58) as ->.
      { replace (dec - dec mod 58) with (dec / 58 * 58) by lia.
        apply Z.div_mul. lia. }
      rewrite IH.
      * cbn [base58_value]. rewrite base58_find_at by exact Hr.
        destruct (Z.ltb_spec (dec mod 58) 0) as [?|_]; [lia|].
        f_equal. lia.
      * rewrite Nat2Z.inj_succ, Z.pow_succ_r in Hd by lia.
        split; [apply Z.div_pos; lia|].
        apply Z.div_lt_upper_bound; lia.
    + now replace dec with 0 by lia.
Qed.

Lemma base58_value_leading_ones (n : nat) :
  forall hex output,
    (String.length hex <= n)%nat ->
    base58_value (leading_ones hex output) 0 = base58_value output 0.
Proof.
  induction n as [|n IH]; intros hex output Hl.
  - destruct hex; [reflexivity | cbn in Hl; lia].
  - destruct hex as [|c1 [|c2 r]]; try reflexivity.
    cbn [leading_ones]. destruct (_ && _); [|reflexivity].
    rewrite IH by (cbn in Hl; lia). reflexivity.
Qed.

Lemma Z076x_fixed (v : Z) : 0 <= v < 16 ^ 76 -> Z076x v = hex_fixed 76 v.
Proof.
  intros Hv. unfold Z076x.
  assert (hex_len v <= 76)%nat by (apply hex_len_small; [exact Hv | lia]).
  now rewrite Nat.max_l by lia.
Qed.

Lemma encodeBase58Check_value (hex : string) (n : Z) :
  mpz_class_str hex = Val n -> 0 <= n ->
  exists wif,
    encodeBase58Check hex = Val wif /\ base58_value wif 0 = Some n.
Proof.
  intros Hn Hpos. unfold encodeBase58Check. rewrite Hn. cbn [obind].
  eexists. split; [reflexivity|].
  rewrite (base58_value_leading_ones (String.length hex)) by lia.
  rewrite base58_value_digits; [reflexivity|].
  split; [exact Hpos|].
  destruct (Z.eqb_spec n 0) as [->|Hne]; [reflexivity|].
  rewrite Nat2Z.inj_succ, Z2Nat.id by apply Z.log2_nonneg.
  apply Z.log2_spec. lia.
Qed.

Lemma ones_snoc (k : nat) (t : string) :
  (ones k ++ String "1"%char t)%string = String "1"%char (ones k ++ t).
Proof.
  induction k as [|k IH]; [reflexivity|]. cbn [ones append]. now rewrite IH.
Qed.

(** The second loop of [encodeBase58Check] puts one ['1'] in front for
    every leading ["00"] pair, and nothing else. *)
Lemma leading_ones_run (n : nat) :
  forall hex output,
    (String.length hex <= n)%nat ->
    leading_ones hex output = (ones (zero_pairs hex) ++ output)%string.
Proof.
  induction n as [|n IH]; intros hex output Hl.
  - destruct hex; [reflexivity | cbn in Hl; lia].
  - destruct hex as [|c1 [|c2 r]]; try reflexivity.
    cbn [leading_ones zero_pairs]. destruct (_ && _); [|reflexivity].
    rewrite IH by (cbn in Hl; lia). apply ones_snoc.
Qed.

(** The ['1'] characters in front are read by [decodeBase58] as zeros. *)
Lemma base58_value_ones (k : nat) (t : string) :
  base58_value (ones k ++ t) 0 = base58_value t 0.
Proof.
  induction k as [|k IH]; [reflexivity|].
  cbn [ones append base58_value].
  change (base58_find "1"%char) with 0. exact IH.
Qed.

(** The first loop of [encodeBase58Check] leaves nothing for zero, and
    for a positive number a text whose first digit is not zero. *)
Lemma base58_digits_head (fuel : nat) :
  forall dec output,
    0 < dec < 2 ^ Z.of_nat fuel ->
    exists d rest,
      base58_digits fuel dec output = String (base58_at d) rest /\
      1 <= d < 58.
Proof.
  induction fuel as [|f IH]; intros dec output Hd.
  - change (2 ^ Z.of_nat 0) with 1 in Hd. lia.
  - cbn [base58_digits]. destruct (Z.ltb_spec 0 dec) as [_|?]; [|lia].
    cbv zeta.
    pose proof (Z.mod_pos_bound dec 58 ltac:(lia)) as Hr.
    pose proof (Z.div_mod dec 58 ltac:(lia)) as Hq.
    assert ((dec - dec mod 58) / 58 = dec / 58) as ->.
    { replace (dec - dec mod 58) with (dec / 58 * 58) by lia.
      apply Z.div_mul. lia. }
    assert (0 <= dec / 58) as Hq0 by (apply Z.div_pos; lia).
    destruct (Z.eq_dec (dec / 58) 0) as [E|E].
    + rewrite E. exists (dec mod 58), output. split; [|lia].
      destruct f; reflexivity.
    + apply IH.
      rewrite Nat2Z.inj_succ, Z.pow_succ_r in Hd by lia.
      split; [lia|]. apply Z.div_lt_upper_bound; lia.
Qed.

(** X20: Whatever hex text [encodeBase58Check] is given, as long as GMP
    reads it as an integer [n] with [0 <= n < 16^76]: the result is one
    ['1'] for every leading ["00"] pair of the text, followed by the
    Base58 digits of [n], which do not start with ['1'] and are none at
    all for zero; and [decodeBase58] turns the result back into the 76
    hex digits of [n] and prints nothing. *)
Theorem base58_round_trip (hex : string) (n : Z) :
  mpz_class_str hex = Val n -> 0 <= n < 16 ^ 76 ->
  exists digits,
    encodeBase58Check hex = Val (ones (zero_pairs hex) ++ digits)%string /\
    (forall rest, digits <> String "1"%char rest) /\
    (n = 0 -> digits = EmptyString) /\
    base58_value digits 0 = Some n /\
    decodeBase58 (ones (zero_pairs hex) ++ digits)
    = Val ([], hex_fixed 76 n).
Proof.
  intros Hn Hr.
  set (fuel := S (Z.to_nat (Z.log2 n))).
  assert (0 <= n < 2 ^ Z.of_nat fuel) as Hfuel.
  { split; [lia|]. subst fuel.
    destruct (Z.eqb_spec n 0) as [->|Hne]; [reflexivity|].
    rewrite Nat2Z.inj_succ, Z2Nat.id by apply Z.log2_nonneg.
    apply Z.log2_spec. lia. }
  exists (base58_digits fuel n EmptyString).
  assert (encodeBase58Check hex
          = Val (ones (zero_pairs hex) ++ base58_digits fuel n EmptyString)%string)
    as He.
  { unfold encodeBase58Check. rewrite Hn. cbn [obind]. fold fuel.
    now rewrite (leading_ones_run (String.length hex)) by lia. }
  assert (base58_value (base58_digits fuel n EmptyString) 0 = Some n) as Hv
    by (now rewrite base58_value_digits by exact Hfuel).
  split; [exact He|]. split; [|split; [|split; [exact Hv|]]].
  - intros rest Habs.
    destruct (Z.eq_dec n 0) as [->|Hne].
    + subst fuel. cbn in Habs. discriminate Habs.
    + destruct (base58_digits_head fuel n EmptyString) as (d & t & Ed & Hd);
        [lia|].
      rewrite Ed in Habs. injection Habs as Hc _.
      pose proof (base58_find_at d ltac:(lia)) as Hf.
      rewrite Hc in Hf. change (base58_find "1"%char) with 0 in Hf. lia.
  - intros ->. reflexivity.
  - unfold decodeBase58.
    rewrite base58_value_ones, Hv, Z076x_fixed by exact Hr.
    rewrite into_buf_fits by (rewrite length_hex_fixed; lia).
    reflexivity.
Qed.

Lemma base58_round_trip_witness :
  exists digits,
    encodeBase58Check "0000010203" = Val ("11" ++ digits)%string /\
    (forall rest, digits <> String "1"%char rest) /\
    decodeBase58 ("11" ++ digits) = Val ([], hex_fixed 76 66051).
Proof.
  destruct (base58_round_trip "0000010203" 66051)
    as (digits & He & Hd & _ & _ & Hb);
    [reflexivity | split; [lia | reflexivity] |].
  exists digits. split; [exact He|]. split; [exact Hd | exact Hb].
Defined.

Lemma base58_value_outside (a b : string) (c : ascii) :
  base58_find c < 0 ->
  forall n, base58_value (a ++ String c b) n = None.
Proof.
  intros Hc. induction a as [|x a IH]; intros n; cbn [append base58_value].
  - now apply Z.ltb_lt in Hc as ->.
  - destruct (_ <? 0); [reflexivity | apply IH].
Qed.

Lemma base58_value_inside (wif : string) :
  Forall (fun a => 0 <= base58_find a) (list_ascii_of_string wif) ->
  forall n, 0 <= n ->
    exists m, base58_value wif n = Some m /\
              n * 58 ^ Z.of_nat (String.length wif) <= m.
Proof.
  induction wif as [|c r IH]; intros Hall n Hn.
  - exists n. split; [reflexivity|]. cbn. lia.
  - cbn [list_ascii_of_string] in Hall. inversion Hall as [|? ? Hc Hr]; subst.
    cbn [base58_value].
    destruct (Z.ltb_spec (base58_find c) 0) as [?|_]; [lia|].
    destruct (IH Hr (n * 58 + base58_find c)) as (m & Hm & Hle); [lia|].
    exists m. split; [exact Hm|].
    cbn [String.length]. rewrite Nat2Z.inj_succ, Z.pow_succ_r by lia.
    pose proof (Z.pow_pos_nonneg 58 (Z.of_nat (String.length r))
                  ltac:(lia) ltac:(lia)).
    nia.
Qed.

(** X21: A text with a character outside the Base58 alphabet makes
    [decodeBase58] print its message and return the empty string; [main]
    hands that to [remMainCheck], whose [hex.substr(hex.length()-8)] then
    throws [std::out_of_range], whatever the hash functions are. *)
Theorem wif_not_base58
  (computeSHA256 computeRIPEMD160 : list Z -> nat -> Z)
  (a b : string) (c : ascii) :
  base58_find c < 0 ->
  decodeBase58 (a ++ String c b)
  = Val (["Wrong WIF format. This is not Base58!"%string], EmptyString) /\
  wif_to_key computeSHA256 computeRIPEMD160 (a ++ String c b)
  = Fault OutOfRange.
Proof.
  intros Hc.
  assert (decodeBase58 (a ++ String c b)
          = Val (["Wrong WIF format. This is not Base58!"%string],
                 EmptyString)) as E
    by (unfold decodeBase58; now rewrite base58_value_outside).
  split; [exact E|].
  unfold wif_to_key. rewrite E. reflexivity.
Qed.

Lemma wif_not_base58_witness :
  decodeBase58 "5Kb0"
  = Val (["Wrong WIF format. This is not Base58!"%string], EmptyString) /\
  wif_to_key (fun _ _ => 0) (fun _ _ => 0) "5Kb0" = Fault OutOfRange.
Proof.
  apply (wif_not_base58 (fun _ _ => 0) (fun _ _ => 0) "5Kb" "" "0"%char).
  reflexivity.
Defined.

(** X22: A text of 53 or more Base58 characters that does not start with
    ['1'] stands for a number of more than 76 hex digits: the
    [gmp_sprintf] of [decodeBase58] writes past the end of its
    [char buf[77]]. *)
Theorem decodeBase58_overrun (c : ascii) (r : string) :
  1 <= base58_find c ->
  (52 <= String.length r)%nat ->
  Forall (fun a => 0 <= base58_find a) (list_ascii_of_string r) ->
  decodeBase58 (String c r) = Fault Undefined.
Proof.
  intros Hc Hl Hall.
  unfold decodeBase58. cbn [base58_value].
  destruct (Z.ltb_spec (base58_find c) 0) as [?|_]; [lia|].
  destruct (base58_value_inside r Hall (0 * 58 + base58_find c)) as (m & -> & Hm);
    [lia|].
  assert (16 ^ 76 < 58 ^ 52) as Hbig by reflexivity.
  assert (58 ^ 52 <= 58 ^ Z.of_nat (String.length r)) as Hpow
    by (apply Z.pow_le_mono_r; lia).
  assert (16 ^ 76 < m) as Hover by nia.
  assert (76 < hex_len m)%nat as Hlen.
  { apply Nat.nle_gt. intros Hle.
    pose proof (hex_len_bound m ltac:(lia)) as Hb.
    assert (16 ^ Z.of_nat (hex_len m) <= 16 ^ 76)
      by (apply Z.pow_le_mono_r; lia).
    lia. }
  rewrite into_buf_over; [reflexivity|].
  unfold Z076x. rewrite length_hex_fixed. lia.
Qed.

Lemma decodeBase58_overrun_witness :
  decodeBase58 "21111111111111111111111111111111111111111111111111111"
  = Fault Undefined.
Proof.
  apply decodeBase58_overrun.
  - vm_compute. discriminate.
  - vm_compute. lia.
  - apply Forall_forall. intros a Ha. cbn in Ha.
    repeat (destruct Ha as [<-|Ha]; [vm_compute; discriminate|]).
    contradiction.
Defined.

(** ** Hashing *)

Lemma stoul_one_digit (d : Z) :
  0 <= d < 16 -> stoul (String (hex_digit d) EmptyString) = Val d.
Proof.
  intros H.
  assert (d = 0 \/ d = 1 \/ d = 2 \/ d = 3 \/ d = 4 \/ d = 5 \/ d = 6 \/
          d = 7 \/ d = 8 \/ d = 9 \/ d = 10 \/ d = 11 \/ d = 12 \/ d = 13 \/
          d = 14 \/ d = 15) as C by lia.
  repeat (destruct C as [->|C]; [reflexivity|]). now subst d.
Qed.

(** An odd number of digits: the last [stoul] is stored at
    [source[length]], one past the array. *)
Lemma hex_to_bytes_odd (n : nat) :
  forall s,
    String.length s = S (2 * n) -> all_lower_hex s = true ->
    hex_to_bytes s = Fault Undefined.
Proof.
  induction n as [|n IH]; intros s Hl Hs.
  - destruct s as [|c1 [|c2 s]]; try discriminate Hl.
    cbn [all_lower_hex] in Hs. apply andb_true_iff in Hs as [Hc1 _].
    destruct (lower_hex_inv c1 Hc1) as (d1 & Hd1 & ->).
    cbn [hex_to_bytes]. now rewrite stoul_one_digit.
  - destruct s as [|c1 [|c2 s]]; try (cbn in Hl; lia).
    cbn [all_lower_hex] in Hs.
    apply andb_true_iff in Hs. destruct Hs as [Hc1 Hs].
    apply andb_true_iff in Hs. destruct Hs as [Hc2 Hs].
    destruct (lower_hex_inv c1 Hc1) as (d1 & Hd1 & ->).
    destruct (lower_hex_inv c2 Hc2) as (d2 & Hd2 & ->).
    destruct (byte_round_trip d1 d2 Hd1 Hd2) as [Est _].
    cbn [hex_to_bytes]. rewrite Est. cbn [obind].
    rewrite IH; [reflexivity | cbn in Hl; lia | exact Hs].
Qed.

Lemma concat_cons (x : string) (xs : list string) :
  String.concat EmptyString (x :: xs)
  = (x ++ String.concat EmptyString xs)%string.
Proof. destruct xs; cbn [String.concat append]; [now rewrite append_nil_r | reflexivity]. Qed.

Lemma concat_hex_bytes (f : nat -> Z) (l : list nat) :
  let h := String.concat EmptyString (map (fun i => hex_fixed 2 (f i)) l) in
  all_lower_hex h = true /\ String.length h = (2 * List.length l)%nat.
Proof.
  induction l as [|i l [IH1 IH2]]; [now split|].
  cbn [map]. rewrite concat_cons. split.
  - rewrite all_lower_hex_app, all_lower_hex_fixed. exact IH1.
  - rewrite length_app, length_hex_fixed, IH2. cbn [List.length]. lia.
Qed.

Section HashingFacts.

Variable computeSHA256 : list Z -> nat -> Z.
Variable computeRIPEMD160 : list Z -> nat -> Z.

Lemma getHash_returns (str : string) (function : Z) (n : nat) :
  all_lower_hex str = true -> String.length str = (2 * n)%nat ->
  function = 1 \/ function = 2 ->
  exists h,
    getHash computeSHA256 computeRIPEMD160 str function = Val h /\
    all_lower_hex h = true /\
    String.length h = (if function =? 2 then 40%nat else 64%nat).
Proof.
  intros Hs Hl Hf.
  destruct (hex_to_bytes_pairs n str Hl Hs) as (bs & Hb & _).
  unfold getHash. rewrite Hb. cbn [obind].
  destruct Hf as [-> | ->]; cbn [Z.eqb Pos.eqb obind]; eexists;
    (split; [reflexivity|]); apply concat_hex_bytes.
Qed.

End HashingFacts.

(** X23: [getHash] on a text of lower-case hex digits: with an even number of
    digits it returns 64 lower-case hex digits for SHA-256 and 40 for
    RIPEMD-160, whatever the two hash functions compute; with an odd
    number of digits it writes one byte past the end of [source]. *)
Theorem getHash_shape
  (computeSHA256 computeRIPEMD160 : list Z -> nat -> Z)
  (str : string) (function : Z) :
  all_lower_hex str = true ->
  function = 1 \/ function = 2 ->
  if Nat.even (String.length str)
  then exists h,
      getHash computeSHA256 computeRIPEMD160 str function = Val h /\
      all_lower_hex h = true /\
      String.length h = (if function =? 2 then 40%nat else 64%nat)
  else getHash computeSHA256 computeRIPEMD160 str function = Fault Undefined.
Proof.
  intros Hs Hf.
  destruct (Nat.even (String.length str)) eqn:He.
  - apply Nat.even_spec in He. destruct He as [n Hn].
    now apply (getHash_returns _ _ str function n).
  - assert (Nat.odd (String.length str) = true) as Ho
      by (rewrite <- Nat.negb_even, He; reflexivity).
    apply Nat.odd_spec in Ho. destruct Ho as [n Hn].
    unfold getHash. rewrite (hex_to_bytes_odd n); [reflexivity | lia | exact Hs].
Qed.

Lemma getHash_shape_witness :
  getHash (fun _ _ => 0) (fun _ _ => 0) "abc" 1 = Fault Undefined.
Proof.
  apply (getHash_shape (fun _ _ => 0) (fun _ _ => 0) "abc" 1);
    [reflexivity | now left].
Defined.

(** ** Hex text as a number *)

Lemma hex_fixed_mod (w : nat) :
  forall v, hex_fixed w (v mod 16 ^ Z.of_nat w) = hex_fixed w v.
Proof.
  induction w as [|w IH]; intros v; [reflexivity|].
  cbn [hex_fixed].
  pose proof (Z.pow_pos_nonneg 16 (Z.of_nat w) ltac:(lia) ltac:(lia)) as Hp.
  rewrite Nat2Z.inj_succ, Z.pow_succ_r by lia.
  assert ((v mod (16 * 16 ^ Z.of_nat w)) mod 16 = v mod 16) as ->.
  { apply Z.mod_mod_divide. exists (16 ^ Z.of_nat w). lia. }
  assert ((v mod (16 * 16 ^ Z.of_nat w)) / 16 = (v / 16) mod 16 ^ Z.of_nat w)
    as ->.
  { rewrite Z.rem_mul_r by lia.
    rewrite Z.mul_comm, Z.div_add by lia.
    rewrite (Z.div_small (v mod 16)) by (apply Z.mod_pos_bound; lia).
    reflexivity. }
  now rewrite IH.
Qed.

(** A text of lower-case hex digits is the fixed-width print of a
    number. *)
Lemma lower_hex_value (s : string) :
  all_lower_hex s = true ->
  exists v, 0 <= v < 16 ^ Z.of_nat (String.length s) /\
            s = hex_fixed (String.length s) v.
Proof.
  induction s as [|c r IH]; intros Hs.
  - exists 0. split; [cbn; lia | reflexivity].
  - cbn [all_lower_hex] in Hs. apply andb_true_iff in Hs as [Hc Hr].
    destruct (IH Hr) as (v & Hv & Er).
    destruct (lower_hex_inv c Hc) as (d & Hd & ->).
    set (w := String.length r) in *.
    pose proof (Z.pow_pos_nonneg 16 (Z.of_nat w) ltac:(lia) ltac:(lia)) as Hp.
    exists (d * 16 ^ Z.of_nat w + v). cbn [String.length]. fold w.
    rewrite Nat2Z.inj_succ, Z.pow_succ_r by lia.
    split; [nia|].
    rewrite hex_fixed_cons.
    assert ((d * 16 ^ Z.of_nat w + v) / 16 ^ Z.of_nat w = d) as ->.
    { rewrite Z.add_comm, Z.div_add by lia.
      rewrite Z.div_small by exact Hv. reflexivity. }
    rewrite Z.mod_small by exact Hd.
    rewrite <- (hex_fixed_mod w (d * 16 ^ Z.of_nat w + v)).
    rewrite Z.add_comm, Z.mod_add by lia.
    rewrite Z.mod_small by exact Hv.
    now rewrite <- Er.
Qed.

Lemma hex_fixed_pad2 (w : nat) (v : Z) :
  0 <= v < 16 ^ Z.of_nat w ->
  hex_fixed (S (S w)) v = ("00" ++ hex_fixed w v)%string.
Proof.
  intros Hv. rewrite !hex_fixed_cons.
  pose proof (Z.pow_pos_nonneg 16 (Z.of_nat w) ltac:(lia) ltac:(lia)) as Hp.
  rewrite Nat2Z.inj_succ, Z.pow_succ_r by lia.
  rewrite (Z.div_small v (16 * _)) by lia.
  rewrite (Z.div_small v (16 ^ _)) by lia.
  reflexivity.
Qed.

(** ** Pieces of a string *)

Lemma substr_head (v b : string) (len : Z) :
  len = Z.of_nat (String.length v) -> substr (v ++ b) 0 len = Val v.
Proof. intros H. now apply (substr_at EmptyString v b). Qed.

Lemma substr_from_tail (a b : string) (pos : Z) :
  pos = Z.of_nat (String.length a) -> substr_from (a ++ b) pos = Val b.
Proof.
  intros ->. unfold substr_from, substr.
  rewrite !length_app, !Nat2Z.id.
  assert ((0 <=? Z.of_nat (String.length a))
          && (Z.of_nat (String.length a)
              <=? Z.of_nat (String.length a + String.length b)) = true)
    as -> by (apply andb_true_iff; split; apply Z.leb_le; lia).
  assert ((Z.of_nat (String.length a + String.length b) <? 0) = false) as ->
      by (apply Z.ltb_ge; lia).
  rewrite substring_skip_app by reflexivity.
  rewrite substring_0_all by lia. reflexivity.
Qed.

Lemma all_lower_hex_substring (s : string) :
  all_lower_hex s = true ->
  forall n m, all_lower_hex (substring n m s) = true.
Proof.
  induction s as [|c r IH]; intros Hs n m.
  - now destruct n, m.
  - cbn [all_lower_hex] in Hs. apply andb_true_iff in Hs as [Hc Hr].
    destruct n as [|n]; [destruct m as [|m]|]; cbn [substring all_lower_hex].
    + reflexivity.
    + now rewrite Hc, IH.
    + now apply IH.
Qed.

Lemma length_substring_0 (s : string) :
  forall m, (m <= String.length s)%nat -> String.length (substring 0 m s) = m.
Proof.
  induction s as [|c r IH]; intros m Hm.
  - cbn in Hm. now replace m with 0%nat by lia.
  - destruct m as [|m]; [reflexivity|]. cbn [substring String.length].
    rewrite IH; [reflexivity | cbn in Hm; lia].
Qed.

(** ** Checksums and WIF *)

Section ChecksumFacts.

Variable computeSHA256 : list Z -> nat -> Z.
Variable computeRIPEMD160 : list Z -> nat -> Z.

(** [sha256(sha256(x))] and its first eight digits. *)
Lemma double_hash (body : string) (n : nat) :
  all_lower_hex body = true -> String.length body = (2 * n)%nat ->
  exists h sha ck,
    getHash computeSHA256 computeRIPEMD160 body 1 = Val h /\
    getHash computeSHA256 computeRIPEMD160 h 1 = Val sha /\
    substr sha 0 8 = Val ck /\
    String.length ck = 8%nat /\ all_lower_hex ck = true.
Proof.
  intros Hb Hl.
  destruct (getHash_returns computeSHA256 computeRIPEMD160 body 1 n Hb Hl)
    as (h & Hh & Hhl & Hhn); [now left|].
  destruct (getHash_returns computeSHA256 computeRIPEMD160 h 1 32 Hhl Hhn)
    as (sha & Hs & Hsl & Hsn); [now left|].
  exists h, sha, (substring 0 8 sha).
  change (1 =? 2) with false in Hsn. cbv iota in Hsn.
  split; [exact Hh|]. split; [exact Hs|]. split.
  - unfold substr. rewrite Hsn. reflexivity.
  - split; [apply length_substring_0; lia | now apply all_lower_hex_substring].
Qed.

Lemma mainnetChecksum_text (mainnet key : string) (compress : bool) (n : nat) :
  let body := (mainnet ++ key ++ (if compress then "01" else ""))%string in
  all_lower_hex body = true -> String.length body = (2 * n)%nat ->
  exists h sha ck,
    getHash computeSHA256 computeRIPEMD160 body 1 = Val h /\
    getHash computeSHA256 computeRIPEMD160 h 1 = Val sha /\
    substr sha 0 8 = Val ck /\
    String.length ck = 8%nat /\ all_lower_hex ck = true /\
    mainnetChecksum computeSHA256 computeRIPEMD160 mainnet key compress
    = Val (body ++ ck)%string.
Proof.
  intros body Hb Hl.
  destruct (double_hash body n Hb Hl) as (h & sha & ck & Hh & Hs & Hc & Hcl & Hcx).
  exists h, sha, ck. repeat (split; [assumption|]).
  unfold mainnetChecksum. fold body. cbv zeta.
  rewrite Hh. cbn [obind]. rewrite Hs. cbn [obind]. rewrite Hc. reflexivity.
Qed.

(** [remMainCheck] on an optional ["00"], the mainnet byte ["80"], 64
    characters of key, a tail and eight characters of checksum. *)
Lemma remMainCheck_payload
  (pad : bool) (key sfx check h sha ck : string) :
  let body := ("80" ++ key ++ sfx)%string in
  String.length key = 64%nat -> String.length check = 8%nat ->
  getHash computeSHA256 computeRIPEMD160 body 1 = Val h ->
  getHash computeSHA256 computeRIPEMD160 h 1 = Val sha ->
  substr sha 0 8 = Val ck ->
  remMainCheck computeSHA256 computeRIPEMD160
    ((if pad then "00" else "") ++ body ++ check)
  = Val (if String.eqb ck check then [] else ["Checksum is wrong!"%string],
         key).
Proof.
  intros body Hk Hc Hh Hs Hck.
  assert (substr (body ++ check) 0 2 = Val "80"%string) as B1.
  { subst body. rewrite append_assoc. now apply substr_head. }
  assert (substr body 0 2 = Val "80"%string) as B2
    by (subst body; now apply substr_head).
  assert (substr_from body 2 = Val (key ++ sfx)%string) as B3
    by (subst body; now apply substr_from_tail).
  assert (substr (key ++ sfx) 0 64 = Val key) as B4
    by (apply substr_head; lia).
  assert (Z.of_nat (String.length (body ++ check)) - 8
          = Z.of_nat (String.length body)) as Hpos
    by (rewrite length_app, Hc; lia).
  clearbody body.
  assert (forall hex p,
             substr hex 0 2 = Val p ->
             (if negb (negb (String.eqb p "00")) then substr_from hex 2
              else Val hex) = Val (body ++ check)%string ->
             remMainCheck computeSHA256 computeRIPEMD160 hex
             = Val (if String.eqb ck check then []
                    else ["Checksum is wrong!"%string], key)) as Step.
  { intros hex p Hp Hhex1. unfold remMainCheck.
    rewrite Hp. cbn [obind]. cbv zeta. rewrite Hhex1. cbn [obind].
    rewrite Hpos.
    rewrite (substr_from_tail body check) by reflexivity. cbn [obind].
    rewrite (substr_head body check) by reflexivity. cbn [obind].
    rewrite Hh. cbn [obind]. rewrite Hs. cbn [obind]. rewrite Hck.
    cbn [obind]. rewrite B2. cbn [obind].
    change (String.eqb "80" "80") with true. cbv iota.
    rewrite B3. cbn [obind]. rewrite B4. cbn [obind].
    now rewrite app_nil_r. }
  destruct pad; cbv iota.
  - apply (Step _ "00"%string).
    + now apply substr_head.
    + change (String.eqb "00" "00") with true. cbn [negb].
      now apply substr_from_tail.
  - change ("" ++ (body ++ check))%string with (body ++ check)%string.
    apply (Step _ "80"%string); [exact B1 | reflexivity].
Qed.

End ChecksumFacts.

(** X24: [remMainCheck] does not enforce the checksum: given the mainnet byte,
    a key of 64 hex digits, the optional compression marker and ANY eight
    characters in the place of the checksum, it returns the key; when the
    eight characters are not the ones [mainnetChecksum] computes, it only
    prints a message. *)
Theorem checksum_only_reported
  (computeSHA256 computeRIPEMD160 : list Z -> nat -> Z)
  (key : string) (compress : bool) :
  all_lower_hex key = true -> String.length key = 64%nat ->
  let body := ("80" ++ key ++ (if compress then "01" else ""))%string in
  exists checksum,
    mainnetChecksum computeSHA256 computeRIPEMD160 "80" key compress
    = Val (body ++ checksum)%string /\
    forall (pad : bool) (check : string),
      String.length check = 8%nat ->
      remMainCheck computeSHA256 computeRIPEMD160
        ((if pad then "00" else "") ++ body ++ check)
      = Val (if String.eqb checksum check then []
             else ["Checksum is wrong!"%string], key).
Proof.
  intros Hx Hl body.
  assert (all_lower_hex body = true) as Hb.
  { subst body. rewrite !all_lower_hex_app, Hx. now destruct compress. }
  assert (String.length body = (2 * (if compress then 34 else 33))%nat) as Hn.
  { subst body. rewrite !length_app, Hl. now destruct compress. }
  destruct (mainnetChecksum_text computeSHA256 computeRIPEMD160
              "80" key compress _ Hb Hn)
    as (h & sha & ck & Hh & Hs & Hc & _ & _ & Hm).
  exists ck. split; [exact Hm|].
  intros pad check Hcl.
  now apply (remMainCheck_payload _ _ pad key _ check h sha ck).
Qed.

Lemma checksum_only_reported_witness :
  exists checksum,
    mainnetChecksum (fun _ _ => 0) (fun _ _ => 0) "80" (hex_fixed 64 1) true
    = Val (("80" ++ hex_fixed 64 1 ++ "01") ++ checksum)%string /\
    forall (pad : bool) (check : string),
      String.length check = 8%nat ->
      remMainCheck (fun _ _ => 0) (fun _ _ => 0)
        ((if pad then "00" else "")
         ++ ("80" ++ hex_fixed 64 1 ++ "01") ++ check)
      = Val (if String.eqb checksum check then []
             else ["Checksum is wrong!"%string], hex_fixed 64 1).
Proof.
  apply (checksum_only_reported (fun _ _ => 0) (fun _ _ => 0)
           (hex_fixed 64 1) true); reflexivity.
Defined.

(** X25: A private key below [2^256], written as 64 hex digits, wrapped by
    [mainnetChecksum] with the mainnet byte ["80"] and encoded by
    [encodeBase58Check], comes back from the chain [decodeBase58],
    [remMainCheck], [mpz_class(hex,16)] of [main] as the same number, and
    nothing is printed; compressed or not, whatever the hash functions
    are. *)
Theorem wif_round_trip
  (computeSHA256 computeRIPEMD160 : list Z -> nat -> Z)
  (k : Z) (compress : bool) :
  0 <= k < 2 ^ 256 ->
  exists hexCheck wif,
    mainnetChecksum computeSHA256 computeRIPEMD160 "80" (hex_fixed 64 k)
      compress = Val hexCheck /\
    encodeBase58Check hexCheck = Val wif /\
    wif_to_key computeSHA256 computeRIPEMD160 wif = Val ([], k).
Proof.
  intros Hk.
  set (key := hex_fixed 64 k).
  set (body := ("80" ++ key ++ (if compress then "01" else ""))%string).
  assert (all_lower_hex body = true) as Hb.
  { subst body key. rewrite !all_lower_hex_app, all_lower_hex_fixed.
    now destruct compress. }
  assert (String.length body = (2 * (if compress then 34 else 33))%nat) as Hn.
  { subst body key. rewrite !length_app, length_hex_fixed.
    now destruct compress. }
  destruct (mainnetChecksum_text computeSHA256 computeRIPEMD160
              "80" key compress _ Hb Hn)
    as (h & sha & ck & Hh & Hs & Hc & Hcl & Hcx & Hm).
  fold body in Hm.
  set (hexCheck := (body ++ ck)%string) in *.
  assert (all_lower_hex hexCheck = true) as Hx
    by (subst hexCheck; now rewrite all_lower_hex_app, Hb, Hcx).
  assert (String.length hexCheck = if compress then 76%nat else 74%nat) as Hl.
  { subst hexCheck. rewrite length_app, Hn, Hcl. now destruct compress. }
  destruct (lower_hex_value hexCheck Hx) as (v & Hv & Ev).
  rewrite Hl in Hv, Ev.
  assert (0 <= v < 16 ^ 76) as Hv76.
  { destruct compress; [exact Hv|].
    assert (16 ^ Z.of_nat 74 < 16 ^ 76) by reflexivity. lia. }
  assert (mpz_class_str hexCheck = Val v) as Hparse.
  { rewrite Ev. destruct compress; rewrite mpz_class_str_hex_fixed;
      now rewrite Z.mod_small. }
  destruct (encodeBase58Check_value hexCheck v Hparse) as (wif & He & Hw);
    [lia|].
  exists hexCheck, wif. split; [exact Hm|]. split; [exact He|].
  assert (decodeBase58 wif
          = Val ([], ((if negb compress then "00" else "") ++ body ++ ck)%string))
    as Hd.
  { unfold decodeBase58. rewrite Hw, Z076x_fixed by exact Hv76.
    rewrite into_buf_fits by (rewrite length_hex_fixed; lia).
    fold hexCheck. do 2 f_equal.
    destruct compress; cbn [negb]; cbv iota.
    - now rewrite Ev.
    - rewrite (hex_fixed_pad2 74 v) by exact Hv. now rewrite <- Ev. }
  unfold wif_to_key. rewrite Hd. cbn [obind snd fst].
  subst hexCheck body.
  rewrite (remMainCheck_payload _ _ (negb compress) key _ ck h sha ck);
    [ | subst key; apply length_hex_fixed | exact Hcl | exact Hh | exact Hs
      | exact Hc ].
  cbn [obind snd fst]. rewrite String.eqb_refl.
  subst key. rewrite (mpz_class_str_hex_fixed 63). cbn [obind].
  change (16 ^ Z.of_nat 64) with (2 ^ 256).
  now rewrite Z.mod_small by exact Hk.
Qed.

Lemma wif_round_trip_witness :
  exists hexCheck wif,
    mainnetChecksum (fun _ _ => 0) (fun _ _ => 0) "80" (hex_fixed 64 12345)
      false = Val hexCheck /\
    encodeBase58Check hexCheck = Val wif /\
    wif_to_key (fun _ _ => 0) (fun _ _ => 0) wif = Val ([], 12345).
Proof.
  apply (wif_round_trip (fun _ _ => 0) (fun _ _ => 0) 12345 false).
  split; [lia | reflexivity].
Defined.

(** ** Addresses *)

Lemma leading_ones_head (n : nat) :
  forall hex r,
    (String.length hex <= n)%nat ->
    exists r', leading_ones hex (String "1"%char r) = String "1"%char r'.
Proof.
  induction n as [|n IH]; intros hex r Hl.
  - destruct hex; [now exists r | cbn in Hl; lia].
  - destruct hex as [|c1 [|c2 t]]; try (now exists r).
    cbn [leading_ones]. destruct (_ && _); [|now exists r].
    apply (IH t); cbn in Hl; lia.
Qed.

(** X26: Whatever the hash functions are, [binary2Addr] on an even number of
    lower-case hex digits returns, and the address it returns starts with
    ['1']. *)
Theorem binary2Addr_starts_with_1
  (computeSHA256 computeRIPEMD160 : list Z -> nat -> Z) (str : string) :
  all_lower_hex str = true -> Nat.even (String.length str) = true ->
  exists rest,
    binary2Addr computeSHA256 computeRIPEMD160 str
    = Val (String "1"%char rest).
Proof.
  intros Hs He. apply Nat.even_spec in He. destruct He as [n Hn].
  destruct (getHash_returns computeSHA256 computeRIPEMD160 str 1 n Hs Hn)
    as (sha & Hsha & Hshax & Hshal); [now left|].
  destruct (getHash_returns computeSHA256 computeRIPEMD160 sha 2 32 Hshax Hshal)
    as (rip & Hrip & Hripx & Hripl); [now right|].
  change (2 =? 2) with true in Hripl. cbv iota in Hripl.
  assert (all_lower_hex ("00" ++ rip ++ "") = true) as Hb
    by (now rewrite !all_lower_hex_app, Hripx).
  assert (String.length ("00" ++ rip ++ "") = (2 * 21)%nat) as Hl
    by (rewrite !length_app, Hripl; reflexivity).
  destruct (mainnetChecksum_text computeSHA256 computeRIPEMD160
              "00" rip false _ Hb Hl)
    as (h & sha2 & ck & _ & _ & _ & Hcl & Hcx & Hm).
  unfold binary2Addr. rewrite Hsha. cbn [obind]. rewrite Hrip. cbn [obind].
  rewrite Hm. cbn [obind].
  set (hexCheck := (("00" ++ rip ++ "") ++ ck)%string).
  assert (all_lower_hex hexCheck = true) as Hx
    by (subst hexCheck; now rewrite all_lower_hex_app, Hb, Hcx).
  assert (String.length hexCheck = 50%nat) as Hl50
    by (subst hexCheck; rewrite length_app, Hl, Hcl; reflexivity).
  destruct (lower_hex_value hexCheck Hx) as (v & Hv & Ev).
  rewrite Hl50 in Ev.
  assert (mpz_class_str hexCheck = Val (v mod 16 ^ Z.of_nat 50)) as Hparse
    by (rewrite Ev; apply (mpz_class_str_hex_fixed 49)).
  unfold encodeBase58Check. rewrite Hparse. cbn [obind].
  subst hexCheck. cbn [append leading_ones].
  change ((code "0" =? 48) && (code "0" =? 48)) with true. cbv iota.
  destruct (leading_ones_head (String.length ((rip ++ "") ++ ck))
              ((rip ++ "") ++ ck)%string
              (base58_digits
                 (S (Z.to_nat (Z.log2 (v mod 16 ^ Z.of_nat 50))))
                 (v mod 16 ^ Z.of_nat 50) EmptyString)) as (r' & Hr');
    [lia|].
  exists r'. now rewrite Hr'.
Qed.

Lemma binary2Addr_starts_with_1_witness :
  exists rest,
    binary2Addr (fun _ _ => 0) (fun _ _ => 0) "04ab" = Val (String "1"%char rest).
Proof.
  apply (binary2Addr_starts_with_1 (fun _ _ => 0) (fun _ _ => 0) "04ab");
    reflexivity.
Defined.

(** ** Reading the file *)

Lemma code_of_byte (b : Z) :
  0 <= b < 256 -> code (ascii_of_N (Z.to_N b)) = b.
Proof.
  intros Hb. unfold code. rewrite N_ascii_embedding by lia. lia.
Qed.

Lemma bytes_to_hex_cons (b : Z) (l : list Z) :
  0 <= b < 256 ->
  bytes_to_hex (string_of_bytes (b :: l))
  = (hex_fixed 2 b ++ bytes_to_hex (string_of_bytes l))%string.
Proof.
  intros Hb. unfold string_of_bytes.
  cbn [map string_of_list_ascii bytes_to_hex].
  now rewrite code_of_byte.
Qed.

Lemma x02_char_plain (char_signed : bool) (b : Z) :
  0 <= b < 256 -> char_signed && (128 <=? b) = false ->
  x02_char char_signed b = hex_fixed 2 b.
Proof.
  intros Hb Hs. unfold x02_char. rewrite Hs. cbv zeta.
  rewrite Z.mod_small by lia.
  assert (hex_len b <= 2)%nat
    by (apply hex_len_small; [change (16 ^ Z.of_nat 2) with 256; lia | lia]).
  now rewrite Nat.max_l by lia.
Qed.

Lemma x02_char_negative (b : Z) :
  128 <= b < 256 -> (3 <= String.length (x02_char true b))%nat.
Proof.
  intros Hb. unfold x02_char.
  assert ((128 <=? b) = true) as -> by (apply Z.leb_le; lia).
  cbn [andb]. cbv zeta. rewrite length_hex_fixed.
  assert ((b - 256) mod 2 ^ 32 = 2 ^ 32 + (b - 256)) as ->.
  { rewrite <- (Z.mod_add _ 1) by lia.
    rewrite Z.mod_small by lia. lia. }
  set (u := 2 ^ 32 + (b - 256)).
  pose proof (hex_len_bound u ltac:(subst u; lia)) as Hu.
  assert (2 < hex_len u)%nat; [|lia].
  apply Nat.nle_gt. intros Hle.
  assert (16 ^ Z.of_nat (hex_len u) <= 16 ^ 2)
    by (apply Z.pow_le_mono_r; lia).
  subst u. lia.
Qed.

Lemma readFile_loop_text (char_signed : bool) (input : list Z) :
  Forall (fun b => 0 <= b < 256) input ->
  forall tmp,
    readFile_loop char_signed input tmp
    = if char_signed && existsb (fun b => 128 <=? b) input
      then Fault Undefined
      else Val (tmp ++ bytes_to_hex (string_of_bytes input))%string.
Proof.
  induction 1 as [|b l Hb Hl IH]; intros tmp.
  - cbn. rewrite andb_false_r. now rewrite append_nil_r.
  - cbn [readFile_loop existsb].
    destruct (char_signed && (128 <=? b)) eqn:Hs.
    + apply andb_true_iff in Hs as [-> Hhigh]. rewrite Hhigh. cbn [andb orb].
      rewrite into_buf_over; [reflexivity|].
      apply x02_char_negative. apply Z.leb_le in Hhigh. lia.
    + rewrite x02_char_plain by assumption.
      rewrite into_buf_fits by (rewrite length_hex_fixed; lia).
      cbn [obind]. rewrite IH, bytes_to_hex_cons by exact Hb.
      rewrite append_assoc.
      destruct char_signed; cbn [andb] in *; [|reflexivity].
      now rewrite Hs.
Qed.

(** X27: [readFile] on the bytes of a file: where [char] is signed, one byte
    of [0x80] or more makes [sprintf] print eight digits into
    [char buf[3]]; otherwise the result is the two lower-case hex digits
    of every byte, in order. *)
Theorem readFile_text (char_signed : bool) (input : list Z) :
  Forall (fun b => 0 <= b < 256) input ->
  readFile char_signed input
  = if char_signed && existsb (fun b => 128 <=? b) input
    then Fault Undefined
    else Val (bytes_to_hex (string_of_bytes input)).
Proof.
  intros H. unfold readFile. rewrite readFile_loop_text by exact H.
  reflexivity.
Qed.

Lemma readFile_text_witness :
  readFile true [104; 233] = Fault Undefined /\
  readFile false [104; 233] = Val "68e9"%string.
Proof.
  split.
  - apply (readFile_text true [104; 233]). repeat constructor; lia.
  - apply (readFile_text false [104; 233]). repeat constructor; lia.
Defined.

Lemma bytes_to_hex_shape (l : list Z) :
  Forall (fun b => 0 <= b < 256) l ->
  all_lower_hex (bytes_to_hex (string_of_bytes l)) = true /\
  String.length (bytes_to_hex (string_of_bytes l)) = (2 * List.length l)%nat.
Proof.
  induction 1 as [|b l Hb Hl [IH1 IH2]]; [now split|].
  rewrite bytes_to_hex_cons by exact Hb. split.
  - now rewrite all_lower_hex_app, all_lower_hex_fixed.
  - rewrite length_app, length_hex_fixed, IH2. cbn [List.length]. lia.
Qed.

(** X28: Whatever the hash functions are, for a file that [readFile] gets
    through, the double hash is read by [mpz_class(doubleSha,16)] without
    an exception, as a number below [2^256]. *)
Theorem message_number_range
  (computeSHA256 computeRIPEMD160 : list Z -> nat -> Z)
  (char_signed : bool) (input : list Z) :
  Forall (fun b => 0 <= b < 256) input ->
  char_signed && existsb (fun b => 128 <=? b) input = false ->
  exists z,
    message_number computeSHA256 computeRIPEMD160 char_signed input = Val z /\
    0 <= z < 2 ^ 256.
Proof.
  intros Hin Hs.
  destruct (bytes_to_hex_shape input Hin) as [Hx Hl].
  destruct (double_hash computeSHA256 computeRIPEMD160 _ _ Hx Hl)
    as (h & sha & _ & Hh & Hsha & _).
  destruct (getHash_returns computeSHA256 computeRIPEMD160 _ 1 _ Hx Hl)
    as (h' & Hh' & Hhx & Hhl); [now left|].
  rewrite Hh in Hh'. apply Val_inj in Hh'. subst h'.
  destruct (getHash_returns computeSHA256 computeRIPEMD160 h 1 32 Hhx Hhl)
    as (sha' & Hsha' & Hsx & Hsl); [now left|].
  rewrite Hsha in Hsha'. apply Val_inj in Hsha'. subst sha'.
  change (1 =? 2) with false in Hsl. cbv iota in Hsl.
  destruct (lower_hex_value sha Hsx) as (v & Hv & Ev).
  rewrite Hsl in Hv, Ev.
  exists v. split.
  - unfold message_number, readFile.
    rewrite readFile_loop_text, Hs by exact Hin.
    cbn [obind append]. rewrite Hh. cbn [obind]. rewrite Hsha. cbn [obind].
    rewrite Ev, (mpz_class_str_hex_fixed 63). now rewrite Z.mod_small.
  - exact Hv.
Qed.

Lemma message_number_range_witness :
  exists z,
    message_number (fun _ _ => 171) (fun _ _ => 0) true [104; 105] = Val z /\
    0 <= z < 2 ^ 256.
Proof.
  apply (message_number_range (fun _ _ => 171) (fun _ _ => 0) true [104; 105]).
  - repeat constructor; lia.
  - reflexivity.
Defined.
